(** * Hamiltonian library: a shallow embedding of [hamiltonian_library/models.py]

    The Python module builds Hamiltonians of six textbook models with QuTiP.
    The operators are complex matrices tagged with the dimensions of the
    subsystems they act on ([Qobj.dims]).  The embedding keeps them as
    they are in QuTiP: a record of the subsystem dimensions, the matrix
    shape and the matrix entries.  Matrix entries live in a scalar
    structure [Scalar] that stands for Python's numbers: a commutative ring
    with complex conjugation, the constant [0.5], the imaginary unit, a
    division, the square root of a natural number and the comparison
    within a tolerance that [Qobj.isherm] makes.  Arithmetic on scalars is
    exact: rounding of IEEE doubles is outside the model. *)

From Stdlib Require Import ZArith List Bool Lia String Ring Setoid Morphisms.
From Stdlib Require Import QArith Qabs Qcanon DecimalString.
Import ListNotations.
Local Open Scope nat_scope.

(** ** Scalars

    The square root is kept abstract: it is real, exact at 0 and 1 and
    non-zero on a positive argument, which is all the development uses.
    [within_atol x y] is QuTiP's test that [x] and [y] agree within
    [settings.core['atol']]: all that is known of it is that a number
    agrees with itself. *)

Class Scalar : Type := {
  C : Type;
  c0 : C;
  c1 : C;
  cadd : C -> C -> C;
  cmul : C -> C -> C;
  csub : C -> C -> C;
  copp : C -> C;
  cdiv : C -> C -> C;
  chalf : C;
  ci : C;
  conj : C -> C;
  sqrtn : nat -> C;
  ceqb : C -> C -> bool;
  within_atol : C -> C -> bool;
  C_ring : ring_theory c0 c1 cadd cmul csub copp (@eq C);
  conj_add : forall x y, conj (cadd x y) = cadd (conj x) (conj y);
  conj_mul : forall x y, conj (cmul x y) = cmul (conj x) (conj y);
  conj_invol : forall x, conj (conj x) = x;
  conj_div : forall x y, conj (cdiv x y) = cdiv (conj x) (conj y);
  conj_half : conj chalf = chalf;
  conj_i : conj ci = copp ci;
  conj_sqrtn : forall n, conj (sqrtn n) = sqrtn n;
  half_double : cadd chalf chalf = c1;
  i_square : cmul ci ci = copp c1;
  sqrtn_0 : sqrtn 0 = c0;
  sqrtn_1 : sqrtn 1 = c1;
  sqrtn_nonzero : forall n, 0 < n -> sqrtn n <> c0;
  ceqb_eq : forall x y, ceqb x y = true <-> x = y;
  within_atol_refl : forall x, within_atol x x = true
}.

Declare Scope C_scope.
Delimit Scope C_scope with C.
Bind Scope C_scope with C.
Infix "+" := cadd : C_scope.
Infix "*" := cmul : C_scope.
Infix "-" := csub : C_scope.
Notation "- x" := (copp x) : C_scope.

(** A scalar is real when conjugation fixes it. *)
Definition is_real `{Scalar} (x : C) : Prop := conj x = x.

(** ** Outcomes of Python expressions, loops and lists *)

Inductive error : Type :=
| TypeError | ValueError | IndexError | AttributeError | ZeroDivisionError.

(** The outcome of a Python expression: a value, or a raised exception. *)
Inductive res (A : Type) : Type :=
| Ok (a : A)
| Raise (e : error).
Arguments Ok {A} a.
Arguments Raise {A} e.

Definition bind {A B : Type} (r : res A) (k : A -> res B) : res B :=
  match r with
  | Ok a => k a
  | Raise e => Raise e
  end.

Notation "x <- e ;; k" := (bind e (fun x => k))
  (at level 61, e at next level, right associativity).
Notation "' p <- e ;; k" := (bind e (fun x => let 'p := x in k))
  (at level 61, p pattern, e at next level, right associativity).

Fixpoint mapM {A B : Type} (f : A -> res B) (l : list A) : res (list B) :=
  match l with
  | [] => Ok []
  | x :: t => y <- f x ;; t' <- mapM f t ;; Ok (y :: t')
  end.

Fixpoint foldM {A B : Type} (f : B -> A -> res B) (l : list A) (b : B) : res B :=
  match l with
  | [] => Ok b
  | x :: t => b' <- f b x ;; foldM f t b'
  end.

(** [range(N)] for a Python [int]: empty when [N <= 0]. *)
Definition range (N : Z) : list nat := seq 0 (Z.to_nat N).

(** [[x] * N]: the list of [N] copies, empty when [N <= 0]. *)
Definition list_repeat {A : Type} (x : A) (N : Z) : list A := repeat x (Z.to_nat N).

(** [l[n] = x] and [l[n]] for [0 <= n]; out of range raises [IndexError]. *)
Fixpoint list_set {A : Type} (l : list A) (n : nat) (x : A) : res (list A) :=
  match l, n with
  | [], _ => Raise IndexError
  | _ :: t, O => Ok (x :: t)
  | h :: t, S n' => t' <- list_set t n' x ;; Ok (h :: t')
  end.

(** The list after [l[n] = x], when [n] is in range. *)
Fixpoint upd {A : Type} (l : list A) (n : nat) (x : A) : list A :=
  match l, n with
  | [], _ => []
  | _ :: t, O => x :: t
  | h :: t, S n' => h :: upd t n' x
  end.

Definition list_get {A : Type} (l : list A) (n : nat) : res A :=
  match nth_error l n with
  | Some x => Ok x
  | None => Raise IndexError
  end.

(** The total dimension of a composite space: the product of the
    dimensions of its subsystems. *)
Definition total_dimension (ds : list nat) : nat := fold_right Nat.mul 1 ds.

Fixpoint dims_eqb (l1 l2 : list nat) : bool :=
  match l1, l2 with
  | [], [] => true
  | x :: t1, y :: t2 => Nat.eqb x y && dims_eqb t1 t2
  | _, _ => false
  end.

(** ** Finite sums and matrices over the scalars *)

Section Model.

Context {Sc : Scalar}.
Local Open Scope C_scope.

(** [csum n f] is the sum of [f 0], ..., [f (n - 1)], in that order. *)
Fixpoint csum (n : nat) (f : nat -> C) : C :=
  match n with
  | O => c0
  | S n' => csum n' f + f n'
  end.

(** Python's [int] as a scalar. *)
Definition cofnat (n : nat) : C := Nat.iter n (fun x => x + c1) c0.
Definition cofZ (z : Z) : C :=
  match z with
  | Z0 => c0
  | Zpos p => cofnat (Pos.to_nat p)
  | Zneg p => - cofnat (Pos.to_nat p)
  end.

Definition Matrix : Type := nat -> nat -> C.

(** The entries of the [n] by [n] identity, of a sum, a scaled matrix, the
    adjoint, a product of [n] by [n] matrices and a Kronecker product whose
    right factor is [n] by [n]. *)
Definition meye (n : nat) : Matrix :=
  fun i j => if Nat.eqb i j && Nat.ltb i n then c1 else c0.
Definition madd (A B : Matrix) : Matrix := fun i j => A i j + B i j.
Definition mscale (c : C) (A : Matrix) : Matrix := fun i j => c * A i j.
Definition mdag (A : Matrix) : Matrix := fun i j => conj (A j i).
Definition mmul (n : nat) (A B : Matrix) : Matrix :=
  fun i j => csum n (fun k => A i k * B k j).
Definition mkron (n : nat) (A B : Matrix) : Matrix :=
  fun i j => A (i / n)%nat (j / n)%nat * B (i mod n)%nat (j mod n)%nat.

(** Two matrices agree as [n] by [n] matrices. *)
Definition meq (n : nat) (A B : Matrix) : Prop :=
  forall i j, (i < n)%nat -> (j < n)%nat -> A i j = B i j.

(** ** QuTiP's [Qobj]

    Every object of the module is an operator, so [Qobj.dims] is
    [[ds, ds]] and [Qobj.shape] is [(n, n)]: the record keeps [ds] and [n].
    [data i j] is the entry of row [i] and column [j]; only entries with
    [i, j < shape] belong to the matrix. *)
Record Qobj : Type := mkQobj {
  dims : list nat;
  shape : nat;
  data : Matrix
}.

Definition qadd (a b : Qobj) : Qobj :=
  mkQobj (dims a) (shape a) (madd (data a) (data b)).
Definition qscale (c : C) (a : Qobj) : Qobj :=
  mkQobj (dims a) (shape a) (mscale c (data a)).
Definition qdag (a : Qobj) : Qobj :=
  mkQobj (dims a) (shape a) (mdag (data a)).
Definition qmul (a b : Qobj) : Qobj :=
  mkQobj (dims a) (shape a) (mmul (shape a) (data a) (data b)).
Definition kron (a b : Qobj) : Qobj :=
  mkQobj (dims a ++ dims b) (shape a * shape b)
         (mkron (shape b) (data a) (data b)).

(** Equality of operators: same [dims], same [shape], same entries. *)
Definition qeq (a b : Qobj) : Prop :=
  dims a = dims b /\ shape a = shape b /\ meq (shape a) (data a) (data b).

(** An operator that equals its own adjoint, entry by entry. *)
Definition hermitian (a : Qobj) : Prop :=
  forall i j, (i < shape a)%nat -> (j < shape a)%nat ->
              data a i j = conj (data a j i).
(** [Qobj.isherm]: every entry agrees with the conjugate of the
    transposed entry within the tolerance. *)
Definition isherm (a : Qobj) : bool :=
  forallb (fun i => forallb (fun j => within_atol (data a i j) (conj (data a j i)))
                            (seq 0 (shape a)))
          (seq 0 (shape a)).

(** *** The constructors of QuTiP the module calls

    QuTiP is not part of the repository: the operators are modelled from
    its documentation and its behaviour.  [qeye] rejects a dimension below
    1.  [destroy(N)] puts the [N - 1] square roots on the first diagonal
    above the main one, and QuTiP raises [ValueError] when there is none
    to put: below dimension 2.  [jmat(j, 'x')] builds the raising operator
    in the same way and raises [ValueError] for the spin 0. *)
Definition eye (n : nat) : Qobj := mkQobj [n] n (meye n).
Definition qeye (N : Z) : res Qobj :=
  if (N <? 1)%Z then Raise ValueError else Ok (eye (Z.to_nat N)).

(** [destroy(N)]: entry [sqrt (i + 1)] at row [i], column [i + 1]. *)
Definition lowering (n : nat) : Matrix :=
  fun i j => if Nat.eqb j (i + 1) && Nat.ltb j n then sqrtn j else c0.
Definition destroy_op (n : nat) : Qobj := mkQobj [n] n (lowering n).
Definition destroy (N : Z) : res Qobj :=
  if (N <? 2)%Z then Raise ValueError else Ok (destroy_op (Z.to_nat N)).

Definition sigmax : Qobj :=
  mkQobj [2%nat] 2 (fun i j => match i, j with
                            | 0%nat, 1%nat => c1
                            | 1%nat, 0%nat => c1
                            | _, _ => c0
                            end).
Definition sigmay : Qobj :=
  mkQobj [2%nat] 2 (fun i j => match i, j with
                            | 0%nat, 1%nat => - ci
                            | 1%nat, 0%nat => ci
                            | _, _ => c0
                            end).
Definition sigmaz : Qobj :=
  mkQobj [2%nat] 2 (fun i j => match i, j with
                            | 0%nat, 0%nat => c1
                            | 1%nat, 1%nat => - c1
                            | _, _ => c0
                            end).

(** [jmat(j, axis)] for the spin [j = twoj / 2], in the basis
    [m = j, j - 1, ..., -j].  The raising operator has
    [sqrt (j (j + 1) - (m + 1) m)] at row [k], column [k + 1], where
    [m = j - 1 - k]; the radicand is the integer [(k + 1) * (twoj - k)]. *)
Inductive axis : Type := AxisX | AxisZ.

Definition jplus (n : nat) : Qobj :=
  mkQobj [(n + 1)%nat] (n + 1)
         (fun i j => if Nat.eqb j (i + 1) && Nat.ltb j (n + 1)
                     then sqrtn ((i + 1) * (n - i)) else c0).
Definition jz (twoj : Z) : Qobj :=
  let n := Z.to_nat twoj in
  mkQobj [(n + 1)%nat] (n + 1)
         (fun i j => if Nat.eqb i j && Nat.ltb i (n + 1)
                     then cdiv (cofZ twoj) (c1 + c1) - cofnat i else c0).
Definition jmat (twoj : Z) (ax : axis) : res Qobj :=
  if (twoj <? 0)%Z then Raise ValueError
  else match ax with
       | AxisX => if (twoj =? 0)%Z then Raise ValueError
                  else let jp := jplus (Z.to_nat twoj) in
                       Ok (qscale chalf (qadd jp (qdag jp)))
       | AxisZ => Ok (jz twoj)
       end.

(** [tensor]: Kronecker product of the arguments, left to right. *)
Definition tensor (qs : list Qobj) : res Qobj :=
  match qs with
  | [] => Raise TypeError
  | q :: qs' => Ok (fold_left kron qs' q)
  end.

(** The operator [tensor] returns; for no argument, the scalar identity
    (which [tensor] itself never returns). *)
Definition tensor_op (qs : list Qobj) : Qobj :=
  match qs with
  | [] => mkQobj [] 1 (meye 1)
  | q :: qs' => fold_left kron qs' q
  end.

(** The embedding pattern of the builders, for subsystem dimensions [ds]:
    [op_list = [qeye(d) for d in ds]; op_list[i] = A; tensor(op_list)]
    places [A] at index [i] and the identity elsewhere.  The chain and
    lattice builders use it with all dimensions equal. *)
Definition embed_single (ds : list nat) (i : nat) (A : Qobj) : res Qobj :=
  op_list <- list_set (map eye ds) i A ;;
  tensor op_list.

(** The joint embedding of the specification, [A] at [i] and [B] at [j]
    in one tensor product.  The builders never form it: they multiply two
    single embeddings. *)
Definition embed_joint (ds : list nat) (i : nat) (A : Qobj)
           (j : nat) (B : Qobj) : res Qobj :=
  op_list <- list_set (map eye ds) i A ;;
  op_list <- list_set op_list j B ;;
  tensor op_list.

(** ** Python values and operators

    A coupling is a Python number.  Its type matters besides its value:
    [json.dumps] accepts an [int] or a [float] and rejects a [complex],
    also one whose imaginary part is zero.  [is_complex] tells the
    [complex] numbers from the others; an [int] or [float] has a real
    value.  A product or sum with a [complex] is a [complex]. *)
Record number : Type := mkNumber {
  is_complex : bool;
  value :> C
}.

Definition float (x : C) : number := mkNumber false x.
Definition complex (z : C) : number := mkNumber true z.
Definition nadd (x y : number) : number :=
  mkNumber (is_complex x || is_complex y) (value x + value y).
Definition nmul (x y : number) : number :=
  mkNumber (is_complex x || is_complex y) (value x * value y).
Definition nopp (x : number) : number := mkNumber (is_complex x) (- value x).

(** An [int] or a [float], as Python has them: not a [complex], and
    real. *)
Definition is_float (x : number) : Prop :=
  is_complex x = false /\ is_real (value x).

(** The values the module computes with: [int] (the [0] that starts a
    sum), numbers (the couplings) and [Qobj]. *)
Inductive pyval : Type :=
| PNone
| PInt (z : Z)
| PNum (x : number)
| PObj (q : Qobj).

Definition is_zero (c : C) : bool := ceqb c c0.

(** [Qobj + number]: the number times the identity is added; adding zero
    returns the operator. *)
Definition qadd_scalar (q : Qobj) (c : C) : Qobj :=
  if is_zero c then q
  else qadd q (qscale c (mkQobj (dims q) (shape q) (meye (shape q)))).

Definition py_add (x y : pyval) : res pyval :=
  match x, y with
  | PInt a, PInt b => Ok (PInt (a + b))
  | PInt a, PNum c => Ok (PNum (nadd (float (cofZ a)) c))
  | PNum c, PInt b => Ok (PNum (nadd c (float (cofZ b))))
  | PNum c, PNum d => Ok (PNum (nadd c d))
  | PInt a, PObj q => Ok (PObj (if (a =? 0)%Z then q else qadd_scalar q (cofZ a)))
  | PObj q, PInt b => Ok (PObj (if (b =? 0)%Z then q else qadd_scalar q (cofZ b)))
  | PNum c, PObj q => Ok (PObj (qadd_scalar q (value c)))
  | PObj q, PNum c => Ok (PObj (qadd_scalar q (value c)))
  | PObj a, PObj b =>
      if dims_eqb (dims a) (dims b) then Ok (PObj (qadd a b))
      else Raise TypeError
  | PNone, _ | _, PNone => Raise TypeError
  end.

Definition py_mul (x y : pyval) : res pyval :=
  match x, y with
  | PInt a, PInt b => Ok (PInt (a * b))
  | PInt a, PNum c => Ok (PNum (nmul (float (cofZ a)) c))
  | PNum c, PInt b => Ok (PNum (nmul c (float (cofZ b))))
  | PNum c, PNum d => Ok (PNum (nmul c d))
  | PInt a, PObj q => Ok (PObj (qscale (cofZ a) q))
  | PObj q, PInt b => Ok (PObj (qscale (cofZ b) q))
  | PNum c, PObj q => Ok (PObj (qscale (value c) q))
  | PObj q, PNum c => Ok (PObj (qscale (value c) q))
  | PObj a, PObj b =>
      if dims_eqb (dims a) (dims b) then Ok (PObj (qmul a b))
      else Raise TypeError
  | PNone, _ | _, PNone => Raise TypeError
  end.

(** [x.dag()]: only a [Qobj] has the method. *)
Definition py_dag (x : pyval) : res pyval :=
  match x with
  | PObj q => Ok (PObj (qdag q))
  | _ => Raise AttributeError
  end.

(** [g / s] for a number [g] and a [float] [s]. *)
Definition py_div (g : number) (s : C) : res pyval :=
  if is_zero s then Raise ZeroDivisionError
  else Ok (PNum (mkNumber (is_complex g) (cdiv (value g) s))).

(** [N ** 0.5] for an [int]: the builders reach it with [0 <= N] only. *)
Definition pow_half (N : Z) : C := sqrtn (Z.to_nat N).

(** [sum(l)]: [0 + l[0] + l[1] + ...]. *)
Definition py_sum (l : list pyval) : res pyval := foldM py_add l (PInt 0).

(** Operators on expressions: the left operand is evaluated first. *)
Definition lift2 (op : pyval -> pyval -> res pyval) (x y : res pyval) : res pyval :=
  a <- x ;; b <- y ;; op a b.
Definition dag (x : res pyval) : res pyval := a <- x ;; py_dag a.
(** A number and an operator as expressions. *)
Definition num (x : number) : res pyval := Ok (PNum x).
Definition obj (q : Qobj) : res pyval := Ok (PObj q).
(** [l[n]] for a list of operators. *)
Definition item (l : list Qobj) (n : nat) : res pyval :=
  q <- list_get l n ;; Ok (PObj q).

(** ** The base class

    [HamiltonianBase] keeps the name, the parameter dictionary (in
    insertion order) and the Hamiltonian, [None] until [build] runs. *)
Record HamiltonianBase : Type := mkBase {
  name : string;
  params : list (string * pyval);
  H : pyval
}.

(** [__init__(self, name, params=None)]: [params or {}]. *)
Definition HamiltonianBase_init (nm : string)
           (ps : option (list (string * pyval))) : HamiltonianBase :=
  mkBase nm (match ps with Some l => l | None => [] end) PNone.

(** A method body: it reads and updates [self], and returns or raises. *)
Definition M (A : Type) : Type := HamiltonianBase -> res A * HamiltonianBase.

Definition mret {A : Type} (a : A) : M A := fun self => (Ok a, self).
Definition mbind {A B : Type} (m : M A) (k : A -> M B) : M B :=
  fun self => match m self with
              | (Ok a, self') => k a self'
              | (Raise e, self') => (Raise e, self')
              end.
Definition lift {A : Type} (r : res A) : M A := fun self => (r, self).
Definition set_params (ps : list (string * pyval)) : M unit :=
  fun self => (Ok tt, mkBase (name self) ps (H self)).
Definition set_H (h : pyval) : M unit :=
  fun self => (Ok tt, mkBase (name self) (params self) h).
Definition get_H : M pyval := fun self => (Ok (H self), self).

Fixpoint forM_ {A : Type} (l : list A) (body : A -> M unit) : M unit :=
  match l with
  | [] => mret tt
  | x :: t => mbind (body x) (fun _ => forM_ t body)
  end.

End Model.

Declare Scope py_scope.
Delimit Scope py_scope with py.
Notation "x .* y" := (lift2 py_mul x y) (at level 40, left associativity) : py_scope.
Notation "x .+ y" := (lift2 py_add x y) (at level 50, left associativity) : py_scope.
Notation "x <<- e ;; k" := (mbind e (fun x => k))
  (at level 61, e at next level, right associativity).
Notation "' p <<- e ;; k" := (mbind e (fun x => let 'p := x in k))
  (at level 61, p pattern, e at next level, right associativity).
Notation "e ;;; k" := (mbind e (fun _ => k))
  (at level 61, right associativity).

(** ** The six models *)

Section Models.

Context {Sc : Scalar}.
Local Open Scope C_scope.
Local Open Scope py_scope.
Local Open Scope string_scope.

(** [JaynesCummings.build(self, N, wc, wa, g)] *)
Definition JaynesCummings_build (N : Z) (wc wa g : number) : M pyval :=
  set_params [("N", PInt N); ("wc", PNum wc); ("wa", PNum wa); ("g", PNum g)] ;;;
  a <<- lift (d <- destroy N ;; e <- qeye 2 ;; tensor [d; e]) ;;
  sm <<- lift (e <- qeye N ;; d <- destroy 2 ;; tensor [e; d]) ;;
  h <<- lift (num wc .* dag (obj a) .* obj a .+ num wa .* dag (obj sm) .* obj sm
              .+ num g .* (dag (obj a) .* obj sm .+ obj a .* dag (obj sm))) ;;
  set_H h ;;; mret h.

(** [RabiModel.build(self, N, wc, wa, g)] *)
Definition RabiModel_build (N : Z) (wc wa g : number) : M pyval :=
  set_params [("N", PInt N); ("wc", PNum wc); ("wa", PNum wa); ("g", PNum g)] ;;;
  a <<- lift (d <- destroy N ;; e <- qeye 2 ;; tensor [d; e]) ;;
  sx <<- lift (e <- qeye N ;; tensor [e; sigmax]) ;;
  sz <<- lift (e <- qeye N ;; tensor [e; sigmaz]) ;;
  h <<- lift (num wc .* dag (obj a) .* obj a .+ num (float chalf) .* num wa .* obj sz
              .+ num g .* (dag (obj a) .+ obj a) .* obj sx) ;;
  set_H h ;;; mret h.

(** One turn of the loop of [TavisCummings.build]: the collective
    operators after atom [i] is added. *)
Definition TavisCummings_step (N_atoms N_cavity : Z)
           (acc : pyval * pyval) (i : nat) : res (pyval * pyval) :=
  let '(sz_tot, sm_tot) := acc in
  e2 <- qeye 2 ;;
  sz_i <- list_set (list_repeat e2 N_atoms) i sigmaz ;;
  eN <- qeye N_cavity ;;
  t <- tensor (eN :: sz_i) ;;
  sz_tot <- py_add sz_tot (PObj t) ;;
  e2 <- qeye 2 ;;
  d2 <- destroy 2 ;;
  sm_i <- list_set (list_repeat e2 N_atoms) i d2 ;;
  eN <- qeye N_cavity ;;
  t <- tensor (eN :: sm_i) ;;
  sm_tot <- py_add sm_tot (PObj t) ;;
  Ok (sz_tot, sm_tot).

(** [TavisCummings.build(self, N_atoms, N_cavity, wc, wa, g)].  The
    unused [a] is still evaluated; [2 ** N_atoms] is not an integer for a
    negative [N_atoms], which [qeye] rejects. *)
Definition TavisCummings_build (N_atoms N_cavity : Z) (wc wa g : number) : M pyval :=
  set_params [("N_atoms", PInt N_atoms); ("N_cavity", PInt N_cavity);
              ("wc", PNum wc); ("wa", PNum wa); ("g", PNum g)] ;;;
  a <<- lift (d <- destroy N_cavity ;;
              e <- (if (N_atoms <? 0)%Z then Raise ValueError
                    else qeye (2 ^ N_atoms)) ;;
              tensor [d; e]) ;;
  ' (sz_tot, sm_tot) <<- lift (foldM (TavisCummings_step N_atoms N_cavity)
                                    (range N_atoms) (PInt 0, PInt 0)) ;;
  a_field <<- lift (d <- destroy N_cavity ;; e2 <- qeye 2 ;;
                    tensor (d :: list_repeat e2 N_atoms)) ;;
  h <<- lift (num wc .* dag (obj a_field) .* obj a_field .+ num (float chalf) .* num wa .* Ok sz_tot
              .+ num g .* (dag (obj a_field) .* Ok sm_tot .+ obj a_field .* dag (Ok sm_tot))) ;;
  set_H h ;;; mret h.

(** [DickeModel.build(self, N_atoms, N_cavity, wc, wa, g)].  The spin
    [j = N_atoms / 2.0] is kept as [2 j = N_atoms], so
    [int(2*j + 1) = N_atoms + 1]. *)
Definition DickeModel_build (N_atoms N_cavity : Z) (wc wa g : number) : M pyval :=
  set_params [("N_atoms", PInt N_atoms); ("N_cavity", PInt N_cavity);
              ("wc", PNum wc); ("wa", PNum wa); ("g", PNum g)] ;;;
  a <<- lift (d <- destroy N_cavity ;; e <- qeye (N_atoms + 1) ;; tensor [d; e]) ;;
  jz <<- lift (e <- qeye N_cavity ;; m <- jmat N_atoms AxisZ ;; tensor [e; m]) ;;
  jx <<- lift (e <- qeye N_cavity ;; m <- jmat N_atoms AxisX ;; tensor [e; m]) ;;
  h <<- lift (num wc .* dag (obj a) .* obj a .+ num wa .* obj jz
              .+ py_div g (pow_half N_atoms) .* (dag (obj a) .+ obj a) .* obj jx) ;;
  set_H h ;;; mret h.

(** One turn of the first loop of [HeisenbergSpinChain.build]. *)
Definition Heisenberg_step (N_spins : Z) (si : Qobj)
           (acc : list Qobj * list Qobj * list Qobj) (n : nat)
  : res (list Qobj * list Qobj * list Qobj) :=
  let '(sx_list, sy_list, sz_list) := acc in
  let op_list := list_repeat si N_spins in
  op_list <- list_set op_list n sigmax ;;
  tx <- tensor op_list ;;
  op_list <- list_set op_list n sigmay ;;
  ty <- tensor op_list ;;
  op_list <- list_set op_list n sigmaz ;;
  tz <- tensor op_list ;;
  Ok ((sx_list ++ [tx])%list, (sy_list ++ [ty])%list, (sz_list ++ [tz])%list).

(** The coupling of sites [n] and [n + 1] as the second loop writes it. *)
Definition Heisenberg_term (Jx Jy Jz : number) (sx_list sy_list sz_list : list Qobj)
           (n : nat) : res pyval :=
  num Jx .* item sx_list n .* item sx_list (n + 1)
  .+ num Jy .* item sy_list n .* item sy_list (n + 1)
  .+ num Jz .* item sz_list n .* item sz_list (n + 1).

(** [HeisenbergSpinChain.build(self, N_spins, Jx, Jy, Jz)] *)
Definition HeisenbergSpinChain_build (N_spins : Z) (Jx Jy Jz : number) : M pyval :=
  set_params [("N_spins", PInt N_spins); ("Jx", PNum Jx); ("Jy", PNum Jy);
              ("Jz", PNum Jz)] ;;;
  ' (sx_list, sy_list, sz_list) <<-
    lift (si <- qeye 2 ;;
          foldM (Heisenberg_step N_spins si) (range N_spins) ([], [], [])) ;;
  set_H (PInt 0) ;;;
  forM_ (range (N_spins - 1)) (fun n =>
    h <<- get_H ;;
    t <<- lift (Heisenberg_term Jx Jy Jz sx_list sy_list sz_list n) ;;
    h' <<- lift (py_add h t) ;;
    set_H h') ;;;
  get_H.

(** [BoseHubbard.build(self, N_sites, N_levels, t, U)] *)
Definition BoseHubbard_build (N_sites N_levels : Z) (t U : number) : M pyval :=
  set_params [("N_sites", PInt N_sites); ("N_levels", PInt N_levels);
              ("t", PNum t); ("U", PNum U)] ;;;
  ops <<- lift (mapM (fun _ => destroy N_levels) (range N_sites)) ;;
  a <<- lift (mapM (fun j =>
                l <- mapM (fun i => if Nat.eqb i j then list_get ops j
                                    else qeye N_levels) (range N_sites) ;;
                tensor l) (range N_sites)) ;;
  H_hop <<- lift (l <- mapM (fun i =>
                     num (nopp t) .* (dag (item a i) .* item a (i + 1)
                                .+ dag (item a (i + 1)) .* item a i))
                     (range (N_sites - 1)) ;;
                  py_sum l) ;;
  H_int <<- lift (l <- mapM (fun i =>
                     num (float chalf) .* num U .* dag (item a i) .* dag (item a i)
                     .* item a i .* item a i)
                     (range N_sites) ;;
                  py_sum l) ;;
  h <<- lift (py_add H_hop H_int) ;;
  set_H h ;;; mret h.

End Models.

(** ** Serialization: [HamiltonianBase.to_json] *)

Section Json.

Context {Sc : Scalar}.
Local Open Scope string_scope.

(** The record [json.dumps] is given.  Its rendering as text (with
    [indent=4]) is not modelled: [to_json] returns the record when every
    value in it can be serialized, and raises [TypeError] as [json.dumps]
    does otherwise. *)
#[local] Set Warnings "-register-all".
Inductive json : Type :=
| JNull
| JBool (b : bool)
| JInt (z : Z)
| JNum (c : C)
| JStr (s : string)
| JObj (l : list (string * json)).

(** The truth value of [self.H] in [... if self.H else None]. *)
Definition truthy (v : pyval) : bool :=
  match v with
  | PNone => false
  | PInt z => negb (z =? 0)%Z
  | PNum x => negb (is_zero (value x))
  | PObj _ => true
  end.

(** [self.H.shape] and [self.H.isherm]: attributes of a [Qobj] only. *)
Definition get_shape (v : pyval) : res (nat * nat) :=
  match v with
  | PObj q => Ok (shape q, shape q)
  | _ => Raise AttributeError
  end.
Definition get_isherm (v : pyval) : res bool :=
  match v with
  | PObj q => Ok (isherm q)
  | _ => Raise AttributeError
  end.

Definition string_of_nat (n : nat) : string :=
  NilEmpty.string_of_uint (Nat.to_uint n).

(** [str] of a shape tuple. *)
Definition str_shape (sh : nat * nat) : string :=
  "(" ++ string_of_nat (fst sh) ++ ", " ++ string_of_nat (snd sh) ++ ")".

(** [json.dumps] of a parameter value: a [complex] or an operator is not
    serializable, whatever its value. *)
Definition json_of_pyval (v : pyval) : res json :=
  match v with
  | PNone => Ok JNull
  | PInt z => Ok (JInt z)
  | PNum x => if is_complex x then Raise TypeError else Ok (JNum (value x))
  | PObj _ => Raise TypeError
  end.

Definition to_json (self : HamiltonianBase) : res json :=
  matrix_shape <- (if truthy (H self)
                   then sh <- get_shape (H self) ;; Ok (JStr (str_shape sh))
                   else Ok JNull) ;;
  is_hermitian <- (if truthy (H self)
                   then b <- get_isherm (H self) ;; Ok (JBool b)
                   else Ok JNull) ;;
  ps <- mapM (fun kv => j <- json_of_pyval (snd kv) ;; Ok (fst kv, j))
             (params self) ;;
  Ok (JObj [("model_name", JStr (name self));
            ("parameters", JObj ps);
            ("matrix_shape", matrix_shape);
            ("is_hermitian", is_hermitian)]).

End Json.

(** ** Notions used in the statements, and the operators the builders return *)

Section Notions.

Context {Sc : Scalar}.
Local Open Scope C_scope.

(** Two operators commute. *)
Definition commute (a b : Qobj) : Prop := qeq (qmul a b) (qmul b a).

(** No entry off the diagonal. *)
Definition diagonal (a : Qobj) : Prop :=
  forall i j, (i < shape a)%nat -> (j < shape a)%nat -> i <> j ->
              data a i j = c0.

(** Entries vanish off the diagonal at offset [k]: column minus row. *)
Definition band (k : Z) (a : Qobj) : Prop :=
  forall i j, (i < shape a)%nat -> (j < shape a)%nat ->
              (Z.of_nat j - Z.of_nat i <> k)%Z -> data a i j = c0.

(** A diagonal operator over the subsystems [ds], of the right shape. *)
Definition diag_over (ds : list nat) (q : Qobj) : Prop :=
  dims q = ds /\ shape q = total_dimension ds /\ diagonal q.

Definition same_shape (a b : Qobj) : Prop := shape a = shape b.

(** The operators of two lists multiplied position by position. *)
Definition qmul_list (l l' : list Qobj) : list Qobj :=
  map (fun p => qmul (fst p) (snd p)) (combine l l').

(** What [acc + q] is when [acc] is the [0] that starts a sum or the
    operator accumulated so far. *)
Definition acc_add (acc : pyval) (q : Qobj) : pyval :=
  match acc with
  | PObj a => PObj (qadd a q)
  | _ => PObj q
  end.
Definition acc_sum (qs : list Qobj) : pyval := fold_left acc_add qs (PInt 0).
(** Such an accumulator, over the subsystems [ds]. *)
Definition acc_dims (ds : list nat) (acc : pyval) : Prop :=
  acc = PInt 0 \/ exists a, acc = PObj a /\ dims a = ds.

(** An operator over the subsystems [ds], of the right shape. *)
Definition plain_over (ds : list nat) (q : Qobj) : Prop :=
  dims q = ds /\ shape q = total_dimension ds.

(** A Hermitian operator over the subsystems [ds], of the right shape. *)
Definition herm_over (ds : list nat) (q : Qobj) : Prop :=
  dims q = ds /\ shape q = total_dimension ds /\ hermitian q.

(** An operator over [ds] whose adjoint commutes with [a]: what the
    loop of the Tavis-Cummings builder keeps for [sm_tot]. *)
Definition couples_to (a : Qobj) (ds : list nat) (q : Qobj) : Prop :=
  dims q = ds /\ commute a (qdag q).

(** Equality up to relabeling of the basis states: a permutation [p] of
    the indices carries the entries of [b] to those of [a]. *)
Definition relabeling (n : nat) (p : nat -> nat) : Prop :=
  (forall i, (i < n)%nat -> (p i < n)%nat) /\
  (forall i j, (i < n)%nat -> (j < n)%nat -> p i = p j -> i = j).
Definition equal_up_to_relabeling (a b : Qobj) : Prop :=
  shape a = shape b /\
  exists p, relabeling (shape a) p /\
            forall i j, (i < shape a)%nat -> (j < shape a)%nat ->
                        data a (p i) (p j) = data b i j.

(** The object [Model(name)] makes: no parameters, nothing built. *)
Definition fresh (nm : string) : HamiltonianBase := HamiltonianBase_init nm None.

(** An operator whose matrix has the total dimension of its [dims]. *)
Definition well_shaped (q : Qobj) : Prop := shape q = total_dimension (dims q).

(** A parameter value [json.dumps] accepts. *)
Definition serializable (v : pyval) : Prop := exists j, json_of_pyval v = Ok j.

(** A value [json.dumps] has no encoding for: a [complex] or an operator. *)
Definition rejected (v : pyval) : Prop :=
  match v with
  | PNum x => is_complex x = true
  | PObj _ => True
  | _ => False
  end.

(** [js] holds, key by key and in the same order, the encodings of the
    values of [ps]. *)
Definition json_image (ps : list (string * pyval)) (js : list (string * json)) : Prop :=
  Forall2 (fun kv kj => fst kj = fst kv /\ json_of_pyval (snd kv) = Ok (snd kj)) ps js.

(** An operator of one subsystem of dimension [d]. *)
Definition local (d : nat) (x : Qobj) : Prop := dims x = [d] /\ shape x = d.

(** [A] at index [i] of the space [ds], the identity elsewhere; and the
    same with [B] at index [j] as well. *)
Definition embed_op (ds : list nat) (i : nat) (A : Qobj) : Qobj :=
  tensor_op (upd (map eye ds) i A).
Definition embed2_op (ds : list nat) (i : nat) (A : Qobj)
           (j : nat) (B : Qobj) : Qobj :=
  tensor_op (upd (upd (map eye ds) i A) j B).

(** [A] at site [i] of a chain of [m] sites of dimension [d]. *)
Definition site_op (d m i : nat) (A : Qobj) : Qobj :=
  embed_op (repeat d m) i A.

Definition JaynesCummings_op (n : nat) (wc wa g : C) : Qobj :=
  let a := kron (destroy_op n) (eye 2) in
  let sm := kron (eye n) (destroy_op 2) in
  qadd (qadd (qmul (qscale wc (qdag a)) a) (qmul (qscale wa (qdag sm)) sm))
       (qscale g (qadd (qmul (qdag a) sm) (qmul a (qdag sm)))).

Definition RabiModel_op (n : nat) (wc wa g : C) : Qobj :=
  let a := kron (destroy_op n) (eye 2) in
  let sx := kron (eye n) sigmax in
  let sz := kron (eye n) sigmaz in
  qadd (qadd (qmul (qscale wc (qdag a)) a) (qscale (chalf * wa) sz))
       (qmul (qscale g (qadd (qdag a) a)) sx).

Definition DickeModel_op (N_atoms : Z) (nc : nat) (wc wa g : C) : Qobj :=
  let na := Z.to_nat N_atoms in
  let a := kron (destroy_op nc) (eye (na + 1)) in
  let Jz := kron (eye nc) (jz N_atoms) in
  let Jx := kron (eye nc) (qscale chalf (qadd (jplus na) (qdag (jplus na)))) in
  qadd (qadd (qmul (qscale wc (qdag a)) a) (qscale wa Jz))
       (qmul (qscale (cdiv g (pow_half N_atoms)) (qadd (qdag a) a)) Jx).

(** The cavity is subsystem 0 and atom [i] is subsystem [i + 1]. *)
Definition TavisCummings_space (na nc : nat) : list nat := nc :: repeat 2%nat na.
Definition atom_op (na nc i : nat) (A : Qobj) : Qobj :=
  embed_op (TavisCummings_space na nc) (S i) A.

Definition TavisCummings_op (na nc : nat) (wc wa g : C) : pyval :=
  let a_field := embed_op (TavisCummings_space na nc) 0 (destroy_op nc) in
  let sz_tot := acc_sum (map (fun i => atom_op na nc i sigmaz) (seq 0 na)) in
  let sm_tot := acc_sum (map (fun i => atom_op na nc i (destroy_op 2)) (seq 0 na)) in
  match sz_tot, sm_tot with
  | PObj sz, PObj sm =>
      PObj (qadd (qadd (qmul (qscale wc (qdag a_field)) a_field)
                       (qscale (chalf * wa) sz))
                 (qscale g (qadd (qmul (qdag a_field) sm)
                                 (qmul a_field (qdag sm)))))
  | _, _ => PNone
  end.

Definition Heisenberg_term_op (m : nat) (Jx Jy Jz : C) (n : nat) : Qobj :=
  qadd (qadd (qmul (qscale Jx (site_op 2 m n sigmax)) (site_op 2 m (n + 1) sigmax))
             (qmul (qscale Jy (site_op 2 m n sigmay)) (site_op 2 m (n + 1) sigmay)))
       (qmul (qscale Jz (site_op 2 m n sigmaz)) (site_op 2 m (n + 1) sigmaz)).

Definition Heisenberg_op (m : nat) (Jx Jy Jz : C) : pyval :=
  acc_sum (map (Heisenberg_term_op m Jx Jy Jz) (seq 0 (m - 1))).

Definition BoseHubbard_hop_op (d m : nat) (t : C) (i : nat) : Qobj :=
  let a := fun k => site_op d m k (destroy_op d) in
  qscale (- t) (qadd (qmul (qdag (a i)) (a (i + 1)%nat))
                     (qmul (qdag (a (i + 1)%nat)) (a i))).

Definition BoseHubbard_int_op (d m : nat) (U : C) (i : nat) : Qobj :=
  let a := site_op d m i (destroy_op d) in
  qmul (qmul (qmul (qscale (chalf * U) (qdag a)) (qdag a)) a) a.

Definition BoseHubbard_op (d m : nat) (t U : C) : pyval :=
  let H_hop := acc_sum (map (BoseHubbard_hop_op d m t) (seq 0 (m - 1))) in
  let H_int := acc_sum (map (BoseHubbard_int_op d m U) (seq 0 m)) in
  match H_hop, H_int with
  | PObj h, PObj k => PObj (qadd h k)
  | PObj h, _ => PObj h
  | _, v => v
  end.

(** The per-site number operator [a[i].dag() * a[i]] of the lattice. *)
Definition site_number (d m i : nat) : Qobj :=
  let a := site_op d m i (destroy_op d) in
  qmul (qdag a) a.

(** The two-site coupling of the chain written with one joint embedding
    per term: [A] at site [n] and at site [n + 1], the identity
    elsewhere. *)
Definition Heisenberg_coupling_spec (m : nat) (Jx Jy Jz : C) (n : nat) : Qobj :=
  let ds := repeat 2%nat m in
  qadd (qadd (qscale Jx (embed2_op ds n sigmax (n + 1) sigmax))
             (qscale Jy (embed2_op ds n sigmay (n + 1) sigmay)))
       (qscale Jz (embed2_op ds n sigmaz (n + 1) sigmaz)).

End Notions.

(** ** Plotting: [HamiltonianBase.plot_energy_levels] *)

Section Plot.

Context {Sc : Scalar}.
Local Open Scope string_scope.

(** What the method does to the outside, in order: the line it prints, or
    the calls it makes to [matplotlib.pyplot] with their arguments. *)
Inductive effect : Type :=
| Stdout (line : string)
| PltFigure (width height : nat)
| PltPlot (ys : list C) (fmt : string) (markersize : nat)
| PltTitle (s : string)
| PltYlabel (s : string)
| PltXlabel (s : string)
| PltGrid (on : bool) (linestyle : string) (alpha : Q)
| PltShow.

(** QuTiP's eigensolver is not part of the repository. *)
Variable eigenenergies : Qobj -> res (list C).

(** [self.H.eigenenergies()]: a method of a [Qobj] only. *)
Definition get_eigenenergies (v : pyval) : res (list C) :=
  match v with
  | PObj q => eigenenergies q
  | _ => Raise AttributeError
  end.

(** [plot_energy_levels(self)]: the guard is [self.H is None]. *)
Definition plot_energy_levels (self : HamiltonianBase) : res (list effect) :=
  match H self with
  | PNone => Ok [Stdout "Error: Build the Hamiltonian first."]
  | h =>
      energies <- get_eigenenergies h ;;
      Ok [PltFigure 7 5;
          PltPlot energies "ro" 4;
          PltTitle ("Energy Spectrum: " ++ name self);
          PltYlabel "Energy (E)";
          PltXlabel "Eigenvalue Index";
          PltGrid true "--" (6 # 10);
          PltShow]
  end.

End Plot.

(** ** Further notions used in the statements *)

Section FurtherNotions.

Context {Sc : Scalar}.
Local Open Scope C_scope.
Local Open Scope string_scope.

(** The values [self.H] takes: [None] before a build, the integer [0] of an
    empty sum, or an operator. *)
Definition stored_hamiltonian (v : pyval) : Prop :=
  v = PNone \/ v = PInt 0 \/ exists q, v = PObj q.

(** The record [to_json] hands to [json.dumps]. *)
Definition json_record (nm : string) (ps : list (string * json))
           (matrix_shape is_hermitian : json) : json :=
  JObj [("model_name", JStr nm); ("parameters", JObj ps);
        ("matrix_shape", matrix_shape); ("is_hermitian", is_hermitian)].

(** What [self.H] is after a method call that returned or raised. *)
Definition H_after (r : res pyval) (self : HamiltonianBase) : pyval :=
  match r with
  | Ok h => h
  | Raise _ => H self
  end.

(** An operator all of whose entries are zero. *)
Definition null (q : Qobj) : Prop :=
  forall i j, (i < shape q)%nat -> (j < shape q)%nat -> data q i j = c0.

(** What the atomic terms of the Tavis-Cummings and Jaynes-Cummings
    builders differ by on the atom, for a unit frequency:
    [0.5 * sigmaz - sm.dag() * sm], the matrix [diag(1/2, -3/2)]. *)
Definition atomic_offset : Qobj :=
  qadd (qscale chalf sigmaz)
       (qscale (- c1) (qmul (qdag (destroy_op 2)) (destroy_op 2))).

(** The number of quanta of the Jaynes-Cummings space: [n] photons count
    [n], and the atom counts [s] in the state [s] of [destroy(2)]. *)
Definition number_op (n : nat) : Qobj :=
  mkQobj [n] n (fun i j => if Nat.eqb i j && Nat.ltb i n then cofnat i else c0).
Definition excitation_number (n : nat) : Qobj :=
  qadd (kron (number_op n) (eye 2)) (kron (eye n) (number_op 2)).

(** *** Conserved numbers

    In a tensor product the last factor is the lowest digit of the index
    of a basis state.  [digits_sum d m i] is the sum of the [m] lowest
    digits of [i] in base [d]: the number of bosons in the state [i] of
    [m] sites with [d] levels each. *)
Fixpoint digits_sum (d m i : nat) : nat :=
  match m with
  | O => 0
  | S m' => (digits_sum d m' i + (i / d ^ m') mod d)%nat
  end.

(** The diagonal operator over [ds] with entry [f i] at the state [i]. *)
Definition diag_of (ds : list nat) (n : nat) (f : nat -> nat) : Qobj :=
  mkQobj ds n (fun i j => if Nat.eqb i j && Nat.ltb i n then cofnat (f i) else c0).

(** The number of bosons on a lattice of [m] sites with [d] levels. *)
Definition total_number (d m : nat) : Qobj :=
  diag_of (repeat d m) (d ^ m)%nat (digits_sum d m).

(** The number of quanta of [na] atoms in a cavity of [nc] levels: the
    photons, the highest digit, and one for each atom in state 1. *)
Definition total_quanta (na nc : nat) : Qobj :=
  diag_of (TavisCummings_space na nc) (nc * 2 ^ na)%nat
          (fun i => i / 2 ^ na + digits_sum 2 na i)%nat.

(** The number of spins of a chain of [m] spins that are in state 1, the
    state where [sigmaz] is [-1]: the total [sigmaz] is [m] minus twice
    this number. *)
Definition spins_down (m : nat) : Qobj :=
  diag_of (repeat 2%nat m) (2 ^ m)%nat (digits_sum 2 m).

(** An operator whose entries join a state [i] to a state [j] only when
    the number [f] grows by [s] from [i] to [j]. *)
Definition graded (f : nat -> nat) (s : Z) (a : Qobj) : Prop :=
  forall i j, (i < shape a)%nat -> (j < shape a)%nat ->
              (Z.of_nat (f j) - Z.of_nat (f i) <> s)%Z -> data a i j = c0.

(** The number after [k] more factors of dimension [d], when it is [g]
    on the factors before them. *)
Definition grade_after (d k : nat) (g : nat -> nat) : nat -> nat :=
  fun i => (g (i / d ^ k) + digits_sum d k i)%nat.

End FurtherNotions.

(** ** The Gaussian rationals, an executable instance *)

Module GaussQ.

Definition G : Type := (Qc * Qc)%type.

Definition g0 : G := (0%Qc, 0%Qc).
Definition g1 : G := (1%Qc, 0%Qc).
Definition gadd (x y : G) : G := ((fst x + fst y)%Qc, (snd x + snd y)%Qc).
Definition gmul (x y : G) : G :=
  ((fst x * fst y - snd x * snd y)%Qc, (fst x * snd y + snd x * fst y)%Qc).
Definition gopp (x : G) : G := ((- fst x)%Qc, (- snd x)%Qc).
Definition gsub (x y : G) : G := gadd x (gopp y).
Definition gconj (x : G) : G := (fst x, (- snd x)%Qc).
Definition gnorm2 (x : G) : Qc := (fst x * fst x + snd x * snd x)%Qc.
Definition gdiv (x y : G) : G :=
  let n := gnorm2 y in
  let z := gmul x (gconj y) in
  ((fst z / n)%Qc, (snd z / n)%Qc).
Definition ghalf : G := (Q2Qc (1 # 2), 0%Qc).
Definition gi : G := (0%Qc, 1%Qc).
(** The integer square root: exact on the perfect squares, which are the
    only arguments the evaluations of this development reach. *)
Definition gsqrtn (n : nat) : G := (Q2Qc (inject_Z (Z.sqrt (Z.of_nat n))), 0%Qc).
Definition geqb (x y : G) : bool :=
  Qc_eq_bool (fst x) (fst y) && Qc_eq_bool (snd x) (snd y).
(** QuTiP's default [atol] is [1e-12]: the real parts and the imaginary
    parts are compared on their own. *)
Definition atol : Q := 1 # 1000000000000.
Definition gwithin (x y : G) : bool :=
  negb (Qle_bool atol (Qabs (fst x - fst y)%Qc)) &&
  negb (Qle_bool atol (Qabs (snd x - snd y)%Qc)).

Lemma g_ring : ring_theory g0 g1 gadd gmul gsub gopp (@eq G).
Proof.
  constructor; intros; unfold gsub, gadd, gmul, gopp, g0, g1;
    repeat match goal with x : G |- _ => destruct x end;
    cbn [fst snd]; f_equal; ring.
Qed.

Lemma geqb_eq (x y : G) : geqb x y = true <-> x = y.
Proof.
  destruct x as [a b], y as [c d]; unfold geqb; cbn [fst snd].
  rewrite andb_true_iff. split.
  - intros [E1 E2]. apply Qc_eq_bool_correct in E1, E2. now subst.
  - intros E. injection E as -> ->. split; unfold Qc_eq_bool;
      now destruct (Qc_eq_dec _ _).
Qed.

Lemma gconj_div (x y : G) : gconj (gdiv x y) = gdiv (gconj x) (gconj y).
Proof.
  destruct x as [a b], y as [c d]; unfold gdiv, gconj, gmul, gnorm2;
    cbn [fst snd].
  replace (c * c + - d * - d)%Qc with (c * c + d * d)%Qc by ring.
  f_equal; unfold Qcdiv; ring.
Qed.

Lemma gwithin_refl (x : G) : gwithin x x = true.
Proof.
  destruct x as [a b]. unfold gwithin. cbn [fst snd].
  replace (a - a)%Qc with 0%Qc by ring. replace (b - b)%Qc with 0%Qc by ring.
  reflexivity.
Qed.

Lemma gsqrtn_nonzero (n : nat) : 0 < n -> gsqrtn n <> g0.
Proof.
  intros Hn E. apply (f_equal fst) in E. unfold gsqrtn, g0 in E.
  cbn [fst] in E.
  assert (Hs : (1 <= Z.sqrt (Z.of_nat n))%Z).
  { change 1%Z with (Z.sqrt 1). apply Z.sqrt_le_mono. lia. }
  apply Q2Qc_eq_iff in E. unfold Qeq, inject_Z in E. cbn in E. lia.
Qed.

#[export] Instance scalar : Scalar.
Proof.
  refine {| C := G; c0 := g0; c1 := g1; cadd := gadd; cmul := gmul;
            csub := gsub; copp := gopp; cdiv := gdiv; chalf := ghalf;
            ci := gi; conj := gconj; sqrtn := gsqrtn; ceqb := geqb;
            within_atol := gwithin; within_atol_refl := gwithin_refl;
            C_ring := g_ring; ceqb_eq := geqb_eq; conj_div := gconj_div;
            sqrtn_nonzero := gsqrtn_nonzero; sqrtn_0 := eq_refl;
            sqrtn_1 := eq_refl |}.
  - intros [a b] [c d]; unfold gconj, gadd; cbn [fst snd]; f_equal; ring.
  - intros [a b] [c d]; unfold gconj, gmul; cbn [fst snd]; f_equal; ring.
  - intros [a b]; unfold gconj; cbn [fst snd]; f_equal; ring.
  - unfold gconj, ghalf; cbn [fst snd]; f_equal.
  - unfold gconj, gi, gopp; cbn [fst snd]; f_equal; ring.
  - intros n; unfold gconj, gsqrtn; cbn [fst snd]; f_equal.
  - unfold gadd, ghalf, g1; cbn [fst snd]; f_equal; apply Qc_is_canon; reflexivity.
  - unfold gmul, gi, gopp, g1; cbn [fst snd]; f_equal; ring.
Defined.

End GaussQ.




(** * Theory *)

(** ** Scalars and finite sums *)

Section SumTheory.

Context {Sc : Scalar}.
Local Open Scope C_scope.

Add Ring C_ring_sum : C_ring.

Lemma conj_0 : conj c0 = c0.
Proof.
  assert (E : conj c0 + conj c0 = conj c0 + c0).
  { rewrite <- conj_add. replace (c0 + c0) with c0 by ring. ring. }
  replace (conj c0) with (conj c0 + conj c0 - conj c0) by ring.
  rewrite E. ring.
Qed.

Lemma conj_1 : conj c1 = c1.
Proof.
  rewrite <- (conj_invol c1) at 2.
  replace (conj c1) with (c1 * conj c1) at 2 by ring.
  rewrite conj_mul, conj_invol. ring.
Qed.

Lemma conj_opp (x : C) : conj (- x) = - conj x.
Proof.
  assert (E : conj (- x) + conj x = c0).
  { rewrite <- conj_add. replace (- x + x) with c0 by ring. apply conj_0. }
  replace (conj (- x)) with (conj (- x) + conj x - conj x) by ring.
  rewrite E. ring.
Qed.

Lemma conj_sub (x y : C) : conj (x - y) = conj x - conj y.
Proof.
  replace (x - y) with (x + - y) by ring.
  rewrite conj_add, conj_opp. ring.
Qed.

Lemma conj_cofnat (n : nat) : conj (cofnat n) = cofnat n.
Proof.
  induction n as [|n IH]; [apply conj_0|].
  change (cofnat (S n)) with (cofnat n + c1).
  now rewrite conj_add, IH, conj_1.
Qed.

Lemma conj_cofZ (z : Z) : conj (cofZ z) = cofZ z.
Proof.
  destruct z; cbn.
  - apply conj_0.
  - apply conj_cofnat.
  - now rewrite conj_opp, conj_cofnat.
Qed.

Lemma csum_ext (n : nat) (f g : nat -> C) :
  (forall k, (k < n)%nat -> f k = g k) -> csum n f = csum n g.
Proof.
  induction n as [|n IH]; intros E; cbn; [reflexivity|].
  rewrite IH by (intros; apply E; lia). now rewrite E by lia.
Qed.

Lemma csum_zero (n : nat) (f : nat -> C) :
  (forall k, (k < n)%nat -> f k = c0) -> csum n f = c0.
Proof.
  induction n as [|n IH]; intros E; cbn; [reflexivity|].
  rewrite IH by (intros; apply E; lia). rewrite E by lia. ring.
Qed.

Lemma csum_add (n : nat) (f g : nat -> C) :
  csum n (fun k => f k + g k) = csum n f + csum n g.
Proof. induction n as [|n IH]; cbn; [|rewrite IH]; ring. Qed.

Lemma csum_mul_l (n : nat) (c : C) (f : nat -> C) :
  csum n (fun k => c * f k) = c * csum n f.
Proof. induction n as [|n IH]; cbn; [|rewrite IH]; ring. Qed.

Lemma csum_mul_r (n : nat) (c : C) (f : nat -> C) :
  csum n (fun k => f k * c) = csum n f * c.
Proof. induction n as [|n IH]; cbn; [|rewrite IH]; ring. Qed.

Lemma conj_csum (n : nat) (f : nat -> C) :
  conj (csum n f) = csum n (fun k => conj (f k)).
Proof.
  induction n as [|n IH]; cbn; [apply conj_0|].
  now rewrite conj_add, IH.
Qed.

Lemma csum_swap (m n : nat) (f : nat -> nat -> C) :
  csum m (fun a => csum n (fun b => f a b)) =
  csum n (fun b => csum m (fun a => f a b)).
Proof.
  induction m as [|m IH]; cbn.
  - symmetry. now apply csum_zero.
  - rewrite IH, <- csum_add. reflexivity.
Qed.

Lemma csum_split (a b : nat) (f : nat -> C) :
  csum (a + b) f = csum a f + csum b (fun k => f (a + k)%nat).
Proof.
  induction b as [|b IH].
  - rewrite Nat.add_0_r. cbn. ring.
  - rewrite Nat.add_succ_r. cbn. rewrite IH. ring.
Qed.

(** A sum over [m * n] indices is a double sum over quotient and
    remainder. *)
Lemma csum_prod (m n : nat) (f : nat -> nat -> C) :
  csum (m * n) (fun k => f (k / n)%nat (k mod n)%nat) =
  csum m (fun a => csum n (fun b => f a b)).
Proof.
  induction m as [|m IH]; [reflexivity|].
  replace (S m * n)%nat with (m * n + n)%nat by lia.
  rewrite csum_split, IH. cbn. f_equal.
  apply csum_ext. intros k Hk.
  assert (n <> 0)%nat by lia.
  rewrite Nat.div_add_l, Nat.div_small, Nat.add_0_r by lia.
  rewrite Nat.add_comm, Nat.Div0.mod_add, Nat.mod_small by lia.
  reflexivity.
Qed.

(** A sum with a single non-zero term. *)
Lemma csum_single (n k0 : nat) (f : nat -> C) :
  (k0 < n)%nat -> (forall k, (k < n)%nat -> k <> k0 -> f k = c0) ->
  csum n f = f k0.
Proof.
  induction n as [|n IH]; intros Hk E; [lia|]. cbn.
  destruct (Nat.eq_dec k0 n) as [->|Hne].
  - rewrite csum_zero by (intros; apply E; lia). ring.
  - rewrite IH by (try lia; intros; apply E; lia).
    rewrite (E n) by lia. ring.
Qed.

End SumTheory.

(** ** Matrices *)

Section MatrixTheory.

Context {Sc : Scalar}.
Local Open Scope C_scope.

Add Ring C_ring_mat : C_ring.

#[export] Instance meq_equiv (n : nat) : Equivalence (meq n).
Proof.
  split.
  - intros A i j _ _. reflexivity.
  - intros A B E i j Hi Hj. symmetry. now apply E.
  - intros A B D E1 E2 i j Hi Hj. rewrite E1 by assumption. now apply E2.
Qed.

#[export] Instance madd_proper (n : nat) :
  Proper (meq n ==> meq n ==> meq n) madd.
Proof.
  intros A A' EA B B' EB i j Hi Hj. unfold madd.
  now rewrite EA, EB.
Qed.

#[export] Instance mscale_proper (n : nat) (c : C) :
  Proper (meq n ==> meq n) (mscale c).
Proof. intros A A' EA i j Hi Hj. unfold mscale. now rewrite EA. Qed.

#[export] Instance mdag_proper (n : nat) : Proper (meq n ==> meq n) mdag.
Proof. intros A A' EA i j Hi Hj. unfold mdag. now rewrite EA. Qed.

#[export] Instance mmul_proper (n : nat) :
  Proper (meq n ==> meq n ==> meq n) (mmul n).
Proof.
  intros A A' EA B B' EB i j Hi Hj. unfold mmul.
  apply csum_ext. intros k Hk. now rewrite EA, EB.
Qed.

Lemma index_split (m n i : nat) :
  (i < m * n)%nat -> (i / n < m)%nat /\ (i mod n < n)%nat.
Proof.
  intros Hi. assert (n <> 0)%nat by nia. split.
  - apply Nat.Div0.div_lt_upper_bound. lia.
  - now apply Nat.mod_upper_bound.
Qed.

Lemma mkron_proper (m n : nat) (A A' B B' : Matrix) :
  meq m A A' -> meq n B B' -> meq (m * n) (mkron n A B) (mkron n A' B').
Proof.
  intros EA EB i j Hi Hj. unfold mkron.
  apply index_split in Hi, Hj.
  rewrite EA, EB by tauto. reflexivity.
Qed.

Lemma mmul_assoc (n : nat) (A B D : Matrix) (i j : nat) :
  mmul n (mmul n A B) D i j = mmul n A (mmul n B D) i j.
Proof.
  unfold mmul.
  transitivity (csum n (fun k => csum n (fun l => A i l * B l k * D k j))).
  { apply csum_ext. intros k _. now rewrite csum_mul_r. }
  rewrite csum_swap. apply csum_ext. intros l _.
  rewrite <- csum_mul_l. apply csum_ext. intros k _. ring.
Qed.

(** The mixed-product rule of the Kronecker product. *)
Lemma mkron_mixed (m n : nat) (A B A' B' : Matrix) (i j : nat) :
  mmul (m * n) (mkron n A B) (mkron n A' B') i j =
  mkron n (mmul m A A') (mmul n B B') i j.
Proof.
  unfold mmul, mkron.
  rewrite (csum_prod m n
             (fun a b => A (i / n)%nat a * B (i mod n)%nat b *
                         (A' a (j / n)%nat * B' b (j mod n)%nat))).
  rewrite <- csum_mul_r. apply csum_ext. intros a _.
  rewrite <- csum_mul_l. apply csum_ext. intros b _. ring.
Qed.

Lemma mdag_mmul (n : nat) (A B : Matrix) (i j : nat) :
  mdag (mmul n A B) i j = mmul n (mdag B) (mdag A) i j.
Proof.
  unfold mdag, mmul. rewrite conj_csum. apply csum_ext. intros k _.
  rewrite conj_mul. ring.
Qed.

Lemma mdag_mkron (n : nat) (A B : Matrix) (i j : nat) :
  mdag (mkron n A B) i j = mkron n (mdag A) (mdag B) i j.
Proof. unfold mdag, mkron. apply conj_mul. Qed.

Lemma mdag_invol (A : Matrix) (i j : nat) : mdag (mdag A) i j = A i j.
Proof. unfold mdag. apply conj_invol. Qed.

Lemma meye_diag (n i : nat) : (i < n)%nat -> meye n i i = c1.
Proof.
  intros Hi. unfold meye. rewrite Nat.eqb_refl.
  apply Nat.ltb_lt in Hi. now rewrite Hi.
Qed.

Lemma meye_off (n i j : nat) : i <> j -> meye n i j = c0.
Proof.
  intros Hne. unfold meye. apply Nat.eqb_neq in Hne. now rewrite Hne.
Qed.

Lemma mdag_meye (n i j : nat) : mdag (meye n) i j = meye n i j.
Proof.
  unfold mdag, meye.
  destruct (Nat.eqb_spec j i) as [->|Hne].
  - rewrite Nat.eqb_refl. cbn [andb].
    destruct (Nat.ltb i n); [apply conj_1|apply conj_0].
  - assert (E : Nat.eqb i j = false) by (apply Nat.eqb_neq; congruence).
    rewrite E. cbn [andb]. apply conj_0.
Qed.

Lemma mmul_eye_r (n : nat) (A : Matrix) : meq n (mmul n A (meye n)) A.
Proof.
  intros i j Hi Hj. unfold mmul.
  rewrite (csum_single n j) by
    (try assumption; intros k _ Hk; rewrite meye_off by assumption; ring).
  rewrite meye_diag by assumption. ring.
Qed.

Lemma mmul_eye_l (n : nat) (A : Matrix) : meq n (mmul n (meye n) A) A.
Proof.
  intros i j Hi Hj. unfold mmul.
  rewrite (csum_single n i) by
    (try assumption; intros k _ Hk; rewrite meye_off by congruence; ring).
  rewrite meye_diag by assumption. ring.
Qed.

Lemma meye_kron (m n i j : nat) :
  mkron n (meye m) (meye n) i j = meye (m * n) i j.
Proof.
  unfold mkron, meye.
  destruct n as [|n].
  - rewrite Nat.mul_0_r.
    replace (Nat.ltb (i mod 0) 0) with false by (symmetry; apply Nat.ltb_ge; lia).
    replace (Nat.ltb i 0) with false by (symmetry; apply Nat.ltb_ge; lia).
    rewrite !andb_false_r. destruct (_ && _); ring.
  - assert (Hn : (S n <> 0)%nat) by lia.
    pose proof (Nat.div_mod_eq i (S n)) as Ei.
    pose proof (Nat.div_mod_eq j (S n)) as Ej.
    pose proof (Nat.mod_upper_bound i (S n) Hn) as Bi.
    pose proof (Nat.mod_upper_bound j (S n) Hn) as Bj.
    destruct (Nat.eqb_spec i j) as [->|Hne].
    + rewrite !Nat.eqb_refl. cbn [andb].
      destruct (Nat.ltb_spec j (m * S n)) as [Hlt|Hge].
      * destruct (index_split m (S n) j Hlt) as [H1 H2].
        apply Nat.ltb_lt in H1, H2. rewrite H1, H2. ring.
      * assert (H1 : (j / S n <? m)%nat = false).
        { apply Nat.ltb_ge. apply Nat.div_le_lower_bound; lia. }
        rewrite H1. ring.
    + cbn [andb].
      destruct (Nat.eqb_spec (i / S n) (j / S n)) as [Ed|Nd];
        destruct (Nat.eqb_spec (i mod S n) (j mod S n)) as [Em|Nm];
        cbn [andb];
        first [ ring
              | exfalso; apply Hne; rewrite Ei, Ej, Ed, Em; reflexivity
              | destruct (_ <? _)%nat; ring
              | destruct (_ <? _)%nat; destruct (_ <? _)%nat; ring ].
Qed.

End MatrixTheory.

(** ** Operators *)

Section QobjTheory.

Context {Sc : Scalar}.
Local Open Scope C_scope.

Add Ring C_ring_qobj : C_ring.

#[export] Instance qeq_equiv : Equivalence qeq.
Proof.
  split.
  - intros a. repeat split.
  - intros a b (Ed & Es & Em). repeat split; try congruence.
    rewrite <- Es. now symmetry.
  - intros a b d (Ed & Es & Em) (Ed' & Es' & Em'). repeat split; try congruence.
    rewrite <- Es in Em'. now transitivity (data b).
Qed.

Lemma qeq_qadd (a a' b b' : Qobj) :
  shape a = shape b -> qeq a a' -> qeq b b' -> qeq (qadd a b) (qadd a' b').
Proof.
  intros Hs (Ed & Es & Em) (Ed' & Es' & Em'). repeat split; cbn; try congruence.
  rewrite <- Hs in Em'. now apply madd_proper.
Qed.

Lemma qeq_qscale (c : C) (a a' : Qobj) :
  qeq a a' -> qeq (qscale c a) (qscale c a').
Proof.
  intros (Ed & Es & Em). repeat split; cbn; try congruence.
  now apply mscale_proper.
Qed.

Lemma qeq_qdag (a a' : Qobj) : qeq a a' -> qeq (qdag a) (qdag a').
Proof.
  intros (Ed & Es & Em). repeat split; cbn; try congruence.
  now apply mdag_proper.
Qed.

Lemma qeq_qmul (a a' b b' : Qobj) :
  shape a = shape b -> qeq a a' -> qeq b b' -> qeq (qmul a b) (qmul a' b').
Proof.
  intros Hs (Ed & Es & Em) (Ed' & Es' & Em'). repeat split; cbn; try congruence.
  rewrite <- Hs in Em'. rewrite <- Es. now apply mmul_proper.
Qed.

Lemma qeq_kron (a a' b b' : Qobj) :
  qeq a a' -> qeq b b' -> qeq (kron a b) (kron a' b').
Proof.
  intros (Ed & Es & Em) (Ed' & Es' & Em'). repeat split; cbn; try congruence.
  rewrite <- Es'. now apply mkron_proper.
Qed.

Lemma kron_mixed (a b a' b' : Qobj) :
  shape a = shape a' -> shape b = shape b' ->
  qeq (qmul (kron a b) (kron a' b')) (kron (qmul a a') (qmul b b')).
Proof.
  intros Ha Hb. repeat split. cbn. rewrite <- Hb.
  intros i j _ _. apply mkron_mixed.
Qed.

Lemma qdag_kron (a b : Qobj) : qeq (qdag (kron a b)) (kron (qdag a) (qdag b)).
Proof. repeat split. cbn. intros i j _ _. apply mdag_mkron. Qed.

Lemma qdag_qmul (a b : Qobj) :
  dims a = dims b -> shape a = shape b ->
  qeq (qdag (qmul a b)) (qmul (qdag b) (qdag a)).
Proof.
  intros Hd Hs. repeat split; cbn; try congruence.
  rewrite <- Hs. intros i j _ _. apply mdag_mmul.
Qed.

Lemma qmul_assoc (a b d : Qobj) :
  shape a = shape b -> qeq (qmul (qmul a b) d) (qmul a (qmul b d)).
Proof.
  intros Hs. repeat split. cbn. rewrite <- Hs.
  intros i j _ _. apply mmul_assoc.
Qed.

Lemma qmul_eye_r (a : Qobj) (n : nat) :
  shape a = n -> qeq (qmul a (eye n)) a.
Proof. intros <-. repeat split. cbn. apply mmul_eye_r. Qed.

Lemma qmul_eye_l (a : Qobj) (n : nat) :
  dims a = [n] -> shape a = n -> qeq (qmul (eye n) a) a.
Proof.
  intros Hd <-. repeat split; cbn; try congruence. apply mmul_eye_l.
Qed.

Lemma qdag_eye (n : nat) : qeq (qdag (eye n)) (eye n).
Proof. repeat split. cbn. intros i j _ _. apply mdag_meye. Qed.

Lemma qmul_qscale_l (c : C) (a b : Qobj) :
  qeq (qmul (qscale c a) b) (qscale c (qmul a b)).
Proof.
  repeat split. cbn. intros i j _ _. unfold mmul, mscale.
  rewrite <- csum_mul_l. apply csum_ext. intros k _. ring.
Qed.

(** *** Hermitian operators *)

Lemma hermitian_iff (a : Qobj) : hermitian a <-> qeq (qdag a) a.
Proof.
  split.
  - intros Hh. repeat split. cbn. intros i j Hi Hj. unfold mdag.
    symmetry. now apply Hh.
  - intros (_ & _ & Em) i j Hi Hj. cbn in Em. symmetry. now apply Em.
Qed.

Lemma hermitian_qeq (a b : Qobj) : qeq a b -> hermitian a -> hermitian b.
Proof.
  intros (Ed & Es & Em) Hh i j Hi Hj. rewrite <- Es in Hi, Hj.
  rewrite <- !Em by assumption. now apply Hh.
Qed.

(** An operator that equals its adjoint passes the test of [isherm]. *)
Lemma hermitian_isherm (a : Qobj) : hermitian a -> isherm a = true.
Proof.
  unfold isherm, hermitian. intros Hh. apply forallb_forall.
  intros i Hi. apply in_seq in Hi. apply forallb_forall.
  intros j Hj. apply in_seq in Hj.
  rewrite <- Hh by lia. apply within_atol_refl.
Qed.

(** [isherm] is false as soon as one entry fails the comparison. *)
Lemma isherm_false_at (a : Qobj) (i j : nat) :
  (i < shape a)%nat -> (j < shape a)%nat ->
  within_atol (data a i j) (conj (data a j i)) = false ->
  isherm a = false.
Proof.
  intros Hi Hj E. destruct (isherm a) eqn:Eh; [|reflexivity].
  unfold isherm in Eh. rewrite forallb_forall in Eh.
  specialize (Eh i). rewrite in_seq, forallb_forall in Eh.
  specialize (Eh ltac:(lia) j). rewrite in_seq in Eh.
  rewrite Eh in E by lia. discriminate E.
Qed.

Lemma hermitian_qadd (a b : Qobj) :
  shape a = shape b -> hermitian a -> hermitian b -> hermitian (qadd a b).
Proof.
  intros Hs Ha Hb i j Hi Hj. cbn in *. unfold madd.
  rewrite conj_add, <- Ha, <- Hb by congruence. reflexivity.
Qed.

Lemma hermitian_qscale (c : C) (a : Qobj) :
  is_real c -> hermitian a -> hermitian (qscale c a).
Proof.
  intros Hc Ha i j Hi Hj. cbn in *. unfold mscale.
  rewrite conj_mul, Hc, <- Ha by assumption. reflexivity.
Qed.

Lemma hermitian_eye (n : nat) : hermitian (eye n).
Proof. apply hermitian_iff, qdag_eye. Qed.

Lemma hermitian_kron (a b : Qobj) :
  hermitian a -> hermitian b -> hermitian (kron a b).
Proof.
  intros Ha Hb. apply hermitian_iff. rewrite qdag_kron.
  apply qeq_kron; now apply hermitian_iff.
Qed.

(** [c * a.dag() * a] is Hermitian for a real [c]. *)
Lemma hermitian_number (c : C) (a : Qobj) :
  is_real c -> hermitian (qmul (qscale c (qdag a)) a).
Proof.
  intros Hc i j Hi Hj. cbn. unfold mmul, mscale, mdag.
  rewrite conj_csum. apply csum_ext. intros k _.
  rewrite !conj_mul, conj_invol, Hc. ring.
Qed.

(** [a.dag() * b + b.dag() * a] is Hermitian. *)
Lemma hermitian_cross (a b : Qobj) :
  shape a = shape b ->
  hermitian (qadd (qmul (qdag a) b) (qmul (qdag b) a)).
Proof.
  intros Hs i j Hi Hj. cbn. rewrite <- Hs. unfold madd, mmul, mdag.
  rewrite conj_add, !conj_csum.
  rewrite (Radd_comm C_ring (csum _ _)). f_equal.
  all: apply csum_ext; intros k _; rewrite conj_mul, conj_invol; ring.
Qed.

Lemma commute_sym (a b : Qobj) : commute a b -> commute b a.
Proof. unfold commute. intros E. now symmetry. Qed.

Lemma commute_shape (a b : Qobj) : commute a b -> shape a = shape b.
Proof. intros (_ & Es & _). exact Es. Qed.

Lemma commute_dims (a b : Qobj) : commute a b -> dims a = dims b.
Proof. intros (Ed & _ & _). exact Ed. Qed.

(** A product of commuting Hermitian operators is Hermitian. *)
Lemma hermitian_qmul (a b : Qobj) :
  hermitian a -> hermitian b -> commute a b -> hermitian (qmul a b).
Proof.
  intros Ha Hb Hc. apply hermitian_iff.
  pose proof (commute_shape _ _ Hc) as Hs.
  pose proof (commute_dims _ _ Hc) as Hd.
  rewrite qdag_qmul by assumption.
  apply hermitian_iff in Ha, Hb.
  rewrite (qeq_qmul (qdag b) b (qdag a) a) by (cbn; congruence || assumption).
  now symmetry.
Qed.

End QobjTheory.

(** ** Lists and tensor products *)

Section ListTheory.

Context {A : Type}.

Lemma list_set_ok (l : list A) (n : nat) (x : A) :
  n < List.length l -> list_set l n x = Ok (upd l n x).
Proof.
  revert n. induction l as [|h t IH]; intros [|n] Hn; cbn in *; try lia.
  - reflexivity.
  - now rewrite IH by lia.
Qed.

Lemma upd_length (l : list A) (n : nat) (x : A) :
  List.length (upd l n x) = List.length l.
Proof.
  revert n. induction l as [|h t IH]; intros [|n]; cbn; auto.
Qed.

Lemma upd_upd (l : list A) (n : nat) (x y : A) :
  upd (upd l n x) n y = upd l n y.
Proof.
  revert n. induction l as [|h t IH]; intros [|n]; cbn; auto.
  now rewrite IH.
Qed.

Lemma upd_nil_iff (l : list A) (n : nat) (x : A) : upd l n x = [] <-> l = [].
Proof. destruct l, n; cbn; split; congruence. Qed.

Lemma nth_error_upd_same (l : list A) (n : nat) (x : A) :
  n < List.length l -> nth_error (upd l n x) n = Some x.
Proof.
  revert n. induction l as [|h t IH]; intros [|n] Hn; cbn in *; try lia.
  - reflexivity.
  - apply IH. lia.
Qed.

Lemma Forall2_refl (R : A -> A -> Prop) (l : list A) :
  (forall x, R x x) -> Forall2 R l l.
Proof. intros HR. induction l; constructor; auto. Qed.

Lemma Forall2_upd (R : A -> A -> Prop) (l l' : list A) (n : nat) (x y : A) :
  Forall2 R l l' -> R x y -> Forall2 R (upd l n x) (upd l' n y).
Proof.
  intros HF. revert n. induction HF; intros [|n] HR; cbn; constructor; auto.
Qed.

Lemma mapM_ok {B : Type} (f : A -> res B) (g : A -> B) (l : list A) :
  (forall x, In x l -> f x = Ok (g x)) -> mapM f l = Ok (map g l).
Proof.
  induction l as [|x t IH]; intros E; cbn; [reflexivity|].
  rewrite E by now left. cbn. rewrite IH by (intros; apply E; now right).
  reflexivity.
Qed.

End ListTheory.

Section TensorTheory.

Context {Sc : Scalar}.
Local Open Scope C_scope.

Add Ring C_ring_tensor : C_ring.

Lemma fold_kron_dims (l : list Qobj) (q : Qobj) :
  dims (fold_left kron l q) = (dims q ++ List.concat (map dims l))%list.
Proof.
  revert q. induction l as [|a l IH]; intros q; cbn.
  - now rewrite app_nil_r.
  - rewrite IH. cbn. now rewrite <- app_assoc.
Qed.

Lemma fold_kron_shape (l : list Qobj) (q : Qobj) :
  shape (fold_left kron l q) = (shape q * total_dimension (map shape l))%nat.
Proof.
  revert q. induction l as [|a l IH]; intros q; cbn.
  - lia.
  - rewrite IH. cbn. symmetry. apply Nat.mul_assoc.
Qed.

Lemma tensor_op_dims (l : list Qobj) :
  dims (tensor_op l) = List.concat (map dims l).
Proof. destruct l as [|q l]; [reflexivity|]. apply fold_kron_dims. Qed.

Lemma tensor_op_shape (l : list Qobj) :
  shape (tensor_op l) = total_dimension (map shape l).
Proof. destruct l as [|q l]; [reflexivity|]. apply fold_kron_shape. Qed.

Lemma tensor_ok (l : list Qobj) : l <> [] -> tensor l = Ok (tensor_op l).
Proof. destruct l; [congruence|reflexivity]. Qed.

Lemma fold_kron_qeq (l l' : list Qobj) (q q' : Qobj) :
  qeq q q' -> Forall2 qeq l l' ->
  qeq (fold_left kron l q) (fold_left kron l' q').
Proof.
  intros Hq HF. revert q q' Hq.
  induction HF as [|a b l l' Hab HF IH]; intros q q' Hq; cbn; [assumption|].
  apply IH. now apply qeq_kron.
Qed.

Lemma tensor_op_qeq (l l' : list Qobj) :
  Forall2 qeq l l' -> qeq (tensor_op l) (tensor_op l').
Proof.
  intros HF. destruct HF as [|a b l l' Hab HF]; [reflexivity|].
  now apply fold_kron_qeq.
Qed.

Lemma fold_kron_mixed (l l' : list Qobj) (q q' : Qobj) :
  shape q = shape q' -> Forall2 same_shape l l' ->
  qeq (qmul (fold_left kron l q) (fold_left kron l' q'))
      (fold_left kron (qmul_list l l') (qmul q q')).
Proof.
  intros Hq HF. revert q q' Hq.
  induction HF as [|a b l l' Hab HF IH]; intros q q' Hq; cbn; [reflexivity|].
  rewrite IH by (cbn; unfold same_shape in Hab; congruence).
  apply fold_kron_qeq.
  - now apply kron_mixed.
  - apply Forall2_refl. reflexivity.
Qed.

(** The mixed-product rule for [tensor]. *)
Lemma tensor_op_mixed (l l' : list Qobj) :
  Forall2 same_shape l l' ->
  qeq (qmul (tensor_op l) (tensor_op l')) (tensor_op (qmul_list l l')).
Proof.
  intros HF. destruct HF as [|a b l l' Hab HF].
  - repeat split. cbn. apply mmul_eye_l.
  - now apply fold_kron_mixed.
Qed.

Lemma fold_kron_dag (l : list Qobj) (q : Qobj) :
  qeq (qdag (fold_left kron l q)) (fold_left kron (map qdag l) (qdag q)).
Proof.
  revert q. induction l as [|a l IH]; intros q; cbn; [reflexivity|].
  rewrite IH. apply fold_kron_qeq.
  - apply qdag_kron.
  - apply Forall2_refl. reflexivity.
Qed.

Lemma tensor_op_dag (l : list Qobj) :
  qeq (qdag (tensor_op l)) (tensor_op (map qdag l)).
Proof.
  destruct l as [|q l].
  - repeat split. cbn. intros i j _ _. apply mdag_meye.
  - apply fold_kron_dag.
Qed.

Lemma Forall2_map_l {X Y : Type} (R : X -> Y -> Prop) (f : Y -> X) (l : list Y) :
  Forall (fun y => R (f y) y) l -> Forall2 R (map f l) l.
Proof. induction 1; cbn; constructor; auto. Qed.

Lemma hermitian_tensor_op (l : list Qobj) :
  Forall hermitian l -> hermitian (tensor_op l).
Proof.
  intros HF. apply hermitian_iff. rewrite tensor_op_dag.
  apply tensor_op_qeq. apply Forall2_map_l.
  eapply Forall_impl; [|exact HF]. intros a. apply hermitian_iff.
Qed.

Lemma qmul_list_comm (l l' : list Qobj) :
  Forall2 commute l l' -> Forall2 qeq (qmul_list l l') (qmul_list l' l).
Proof. induction 1; cbn; constructor; auto. Qed.

Lemma commute_tensor_op (l l' : list Qobj) :
  Forall2 commute l l' -> commute (tensor_op l) (tensor_op l').
Proof.
  intros HF. unfold commute.
  assert (H1 : Forall2 same_shape l l').
  { eapply Forall2_impl; [|exact HF]. intros a b. apply commute_shape. }
  assert (H2 : Forall2 same_shape l' l).
  { clear H1. induction HF; constructor; auto.
    symmetry. now apply commute_shape. }
  rewrite tensor_op_mixed, (tensor_op_mixed l' l) by assumption.
  apply tensor_op_qeq. now apply qmul_list_comm.
Qed.

End TensorTheory.

(** ** Commuting operators *)

Section CommuteTheory.

Context {Sc : Scalar}.
Local Open Scope C_scope.

Add Ring C_ring_commute : C_ring.

Lemma commute_qeq (a a' b b' : Qobj) :
  qeq a a' -> qeq b b' -> commute a b -> commute a' b'.
Proof.
  unfold commute. intros Ea Eb Hc.
  pose proof (commute_shape _ _ Hc) as Hs.
  rewrite <- (qeq_qmul a a' b b') by assumption.
  rewrite <- (qeq_qmul b b' a a') by (try assumption; congruence).
  exact Hc.
Qed.

Lemma commute_eye (a : Qobj) (n : nat) :
  dims a = [n] -> shape a = n -> commute a (eye n).
Proof.
  intros Hd Hs. unfold commute.
  rewrite qmul_eye_r, qmul_eye_l by assumption. reflexivity.
Qed.

Lemma commute_refl (a : Qobj) : commute a a.
Proof. unfold commute. reflexivity. Qed.

(** Operators on different factors of a product commute. *)
Lemma commute_kron (x y : Qobj) (n k : nat) :
  dims x = [n] -> shape x = n -> dims y = [k] -> shape y = k ->
  commute (kron x (eye k)) (kron (eye n) y).
Proof.
  intros Hdx Hsx Hdy Hsy.
  change (commute (tensor_op [x; eye k]) (tensor_op [eye n; y])).
  apply commute_tensor_op.
  constructor; [|constructor; [|constructor]].
  - now apply commute_eye.
  - apply commute_sym. now apply commute_eye.
Qed.

Lemma commute_qadd_l (a b d : Qobj) :
  commute a d -> commute b d -> commute (qadd a b) d.
Proof.
  destruct a as [da sa A], b as [db sb B], d as [dd sd D].
  intros (Ed1 & Es1 & Em1) (Ed2 & Es2 & Em2). cbn in *. subst.
  repeat split. cbn.
  intros i j Hi Hj. specialize (Em1 i j Hi Hj). specialize (Em2 i j Hi Hj).
  unfold mmul, madd in *.
  transitivity (csum sd (fun k => A i k * D k j) +
                csum sd (fun k => B i k * D k j)).
  - rewrite <- csum_add. apply csum_ext. intros k _. ring.
  - rewrite Em1, Em2, <- csum_add. apply csum_ext. intros k _. ring.
Qed.

(** The coupling [a.dag() * m + a * m.dag()] of the rotating-wave models. *)
Lemma hermitian_rwa (a m : Qobj) :
  commute a (qdag m) ->
  hermitian (qadd (qmul (qdag a) m) (qmul a (qdag m))).
Proof.
  intros Hc. pose proof (commute_shape _ _ Hc) as Hs. cbn in Hs.
  apply (hermitian_qeq (qadd (qmul (qdag a) m) (qmul (qdag m) a))).
  - apply qeq_qadd; [cbn; congruence|reflexivity|now symmetry].
  - now apply hermitian_cross.
Qed.

Lemma hermitian_dag_plus (a : Qobj) : hermitian (qadd (qdag a) a).
Proof.
  intros i j _ _. cbn. unfold madd, mdag.
  rewrite conj_add, conj_invol. ring.
Qed.

Lemma hermitian_plus_dag (a : Qobj) : hermitian (qadd a (qdag a)).
Proof.
  intros i j _ _. cbn. unfold madd, mdag.
  rewrite conj_add, conj_invol. ring.
Qed.

Lemma hermitian_scaled_qmul (c : C) (a b : Qobj) :
  is_real c -> hermitian a -> hermitian b -> commute a b ->
  hermitian (qmul (qscale c a) b).
Proof.
  intros Hc Ha Hb Hab.
  apply (hermitian_qeq (qscale c (qmul a b))).
  - symmetry. apply qmul_qscale_l.
  - apply hermitian_qscale; [assumption|]. now apply hermitian_qmul.
Qed.

Lemma is_real_mul (x y : C) : is_real x -> is_real y -> is_real (x * y).
Proof. unfold is_real. intros Hx Hy. now rewrite conj_mul, Hx, Hy. Qed.

Lemma is_real_opp (x : C) : is_real x -> is_real (- x).
Proof. unfold is_real. intros Hx. now rewrite conj_opp, Hx. Qed.

Lemma hermitian_sigmax : hermitian sigmax.
Proof.
  intros [|[|i]] [|[|j]] Hi Hj; cbn in *; try lia;
    rewrite ?conj_0, ?conj_1; reflexivity.
Qed.

Lemma hermitian_sigmay : hermitian sigmay.
Proof.
  intros [|[|i]] [|[|j]] Hi Hj; cbn in *; try lia;
    rewrite ?conj_0, ?conj_opp, ?conj_i; try reflexivity; ring.
Qed.

Lemma hermitian_sigmaz : hermitian sigmaz.
Proof.
  intros [|[|i]] [|[|j]] Hi Hj; cbn in *; try lia;
    rewrite ?conj_0, ?conj_opp, ?conj_1; reflexivity.
Qed.

Lemma hermitian_jz (N : Z) : hermitian (jz N).
Proof.
  intros i j _ _. unfold jz. cbn [data].
  destruct (Nat.eqb_spec i j) as [->|Hne].
  - rewrite Nat.eqb_refl. cbn [andb].
    destruct (Nat.ltb j (Z.to_nat N + 1)); [|now rewrite conj_0].
    now rewrite conj_sub, conj_div, conj_cofZ, conj_add, conj_1, conj_cofnat.
  - assert (E : Nat.eqb j i = false) by (apply Nat.eqb_neq; congruence).
    rewrite E. cbn [andb]. now rewrite conj_0.
Qed.

End CommuteTheory.

(** ** The builders on valid arguments *)

Lemma dims_eqb_refl (l : list nat) : dims_eqb l l = true.
Proof. induction l; cbn; [reflexivity|]. now rewrite Nat.eqb_refl. Qed.

Lemma dims_eqb_eq (l l' : list nat) : dims_eqb l l' = true <-> l = l'.
Proof.
  split; [|intros ->; apply dims_eqb_refl].
  revert l'. induction l as [|x l IH]; intros [|y l']; cbn; try congruence.
  rewrite andb_true_iff. intros [E1 E2].
  apply Nat.eqb_eq in E1. apply IH in E2. congruence.
Qed.

Ltac py_eval :=
  repeat (cbn [bind tensor fold_left lift2 dag obj num py_dag py_mul py_add
               value is_complex nmul nadd nopp float
               dims qscale qdag qmul qadd kron eye destroy_op jz jplus
               sigmax sigmay sigmaz app name params H fst snd];
          rewrite ?dims_eqb_refl).

Section BuilderTheory.

Context {Sc : Scalar}.
Local Open Scope C_scope.
Local Open Scope string_scope.

Add Ring C_ring_builder : C_ring.

Lemma qeye_ok (N : Z) : (1 <= N)%Z -> qeye N = Ok (eye (Z.to_nat N)).
Proof. intros HN. unfold qeye. now rewrite (proj2 (Z.ltb_ge N 1)) by lia. Qed.

Lemma destroy_ok (N : Z) :
  (2 <= N)%Z -> destroy N = Ok (destroy_op (Z.to_nat N)).
Proof. intros HN. unfold destroy. now rewrite (proj2 (Z.ltb_ge N 2)) by lia. Qed.

Lemma JaynesCummings_build_ok (N : Z) (wc wa g : number) (self : HamiltonianBase) :
  (2 <= N)%Z ->
  JaynesCummings_build N wc wa g self =
  (Ok (PObj (JaynesCummings_op (Z.to_nat N) wc wa g)),
   mkBase (name self)
          [("N", PInt N); ("wc", PNum wc); ("wa", PNum wa); ("g", PNum g)]
          (PObj (JaynesCummings_op (Z.to_nat N) wc wa g))).
Proof.
  intros HN. unfold JaynesCummings_build, mbind, set_params, lift, set_H, mret.
  rewrite (destroy_ok N), (qeye_ok N) by lia.
  change (destroy 2) with (Ok (destroy_op 2)).
  change (qeye 2) with (Ok (eye 2)).
  py_eval. reflexivity.
Qed.

Lemma RabiModel_build_ok (N : Z) (wc wa g : number) (self : HamiltonianBase) :
  (2 <= N)%Z ->
  RabiModel_build N wc wa g self =
  (Ok (PObj (RabiModel_op (Z.to_nat N) wc wa g)),
   mkBase (name self)
          [("N", PInt N); ("wc", PNum wc); ("wa", PNum wa); ("g", PNum g)]
          (PObj (RabiModel_op (Z.to_nat N) wc wa g))).
Proof.
  intros HN. unfold RabiModel_build, mbind, set_params, lift, set_H, mret.
  rewrite (destroy_ok N), (qeye_ok N) by lia.
  change (qeye 2) with (Ok (eye 2)).
  py_eval. reflexivity.
Qed.

Lemma pow_half_nonzero (N : Z) : (1 <= N)%Z -> is_zero (pow_half N) = false.
Proof.
  intros HN. unfold is_zero, pow_half.
  destruct (ceqb (sqrtn (Z.to_nat N)) c0) eqn:E; [|reflexivity].
  apply ceqb_eq in E. exfalso. revert E. apply sqrtn_nonzero. lia.
Qed.

Lemma DickeModel_build_ok (N_atoms N_cavity : Z) (wc wa g : number)
      (self : HamiltonianBase) :
  (1 <= N_atoms)%Z -> (2 <= N_cavity)%Z ->
  DickeModel_build N_atoms N_cavity wc wa g self =
  (Ok (PObj (DickeModel_op N_atoms (Z.to_nat N_cavity) wc wa g)),
   mkBase (name self)
          [("N_atoms", PInt N_atoms); ("N_cavity", PInt N_cavity);
           ("wc", PNum wc); ("wa", PNum wa); ("g", PNum g)]
          (PObj (DickeModel_op N_atoms (Z.to_nat N_cavity) wc wa g))).
Proof.
  intros Ha Hc. unfold DickeModel_build, mbind, set_params, lift, set_H, mret.
  rewrite (destroy_ok N_cavity), (qeye_ok N_cavity), (qeye_ok (N_atoms + 1)) by lia.
  unfold jmat, py_div. rewrite (proj2 (Z.ltb_ge N_atoms 0)) by lia.
  rewrite (proj2 (Z.eqb_neq N_atoms 0)) by lia.
  rewrite pow_half_nonzero by assumption.
  rewrite Z2Nat.inj_add by lia. change (Z.to_nat 1) with 1%nat.
  py_eval. reflexivity.
Qed.

Lemma hermitian_JaynesCummings_op (n : nat) (wc wa g : C) :
  is_real wc -> is_real wa -> is_real g ->
  hermitian (JaynesCummings_op n wc wa g).
Proof.
  intros Hwc Hwa Hg. unfold JaynesCummings_op.
  apply hermitian_qadd; [reflexivity| |].
  - apply hermitian_qadd; [reflexivity| |]; now apply hermitian_number.
  - apply hermitian_qscale; [assumption|]. apply hermitian_rwa.
    apply (commute_qeq (kron (destroy_op n) (eye 2))
                       (kron (destroy_op n) (eye 2))
                       (kron (eye n) (qdag (destroy_op 2)))).
    + reflexivity.
    + rewrite qdag_kron. apply qeq_kron; [|reflexivity].
      symmetry. apply qdag_eye.
    + now apply commute_kron.
Qed.

Lemma commute_field_quadrature (n k : nat) (y : Qobj) :
  dims y = [k] -> shape y = k ->
  commute (qadd (qdag (kron (destroy_op n) (eye k))) (kron (destroy_op n) (eye k)))
          (kron (eye n) y).
Proof.
  intros Hd Hs. apply commute_qadd_l.
  - apply (commute_qeq (kron (qdag (destroy_op n)) (eye k))
                       (qdag (kron (destroy_op n) (eye k)))
                       (kron (eye n) y) (kron (eye n) y)).
    + rewrite qdag_kron. apply qeq_kron; [reflexivity|].
      symmetry. apply qdag_eye.
    + reflexivity.
    + now apply commute_kron.
  - now apply commute_kron.
Qed.

Lemma hermitian_RabiModel_op (n : nat) (wc wa g : C) :
  is_real wc -> is_real wa -> is_real g ->
  hermitian (RabiModel_op n wc wa g).
Proof.
  intros Hwc Hwa Hg. unfold RabiModel_op.
  apply hermitian_qadd; [reflexivity| |].
  - apply hermitian_qadd; [reflexivity| |].
    + now apply hermitian_number.
    + apply hermitian_qscale.
      * apply is_real_mul; [apply conj_half|assumption].
      * apply hermitian_kron; [apply hermitian_eye|apply hermitian_sigmaz].
  - apply hermitian_scaled_qmul; try assumption.
    + apply hermitian_dag_plus.
    + apply hermitian_kron; [apply hermitian_eye|apply hermitian_sigmax].
    + now apply commute_field_quadrature.
Qed.

Lemma hermitian_DickeModel_op (N_atoms : Z) (nc : nat) (wc wa g : C) :
  is_real wc -> is_real wa -> is_real g ->
  hermitian (DickeModel_op N_atoms nc wc wa g).
Proof.
  intros Hwc Hwa Hg. unfold DickeModel_op.
  apply hermitian_qadd; [reflexivity| |].
  - apply hermitian_qadd; [reflexivity| |].
    + now apply hermitian_number.
    + apply hermitian_qscale; [assumption|].
      apply hermitian_kron; [apply hermitian_eye|apply hermitian_jz].
  - apply hermitian_scaled_qmul.
    + unfold is_real, pow_half. now rewrite conj_div, Hg, conj_sqrtn.
    + apply hermitian_dag_plus.
    + apply hermitian_kron; [apply hermitian_eye|].
      apply hermitian_qscale; [apply conj_half|apply hermitian_plus_dag].
    + now apply commute_field_quadrature.
Qed.

End BuilderTheory.

(** ** Embedding a local operator in a composite space *)

Section EmbedTheory.

Context {Sc : Scalar}.
Local Open Scope C_scope.

Add Ring C_ring_embed : C_ring.

Lemma local_eye (d : nat) : local d (eye d).
Proof. split; reflexivity. Qed.

Lemma local_qdag (d : nat) (x : Qobj) : local d x -> local d (qdag x).
Proof. intros [Hd Hs]. split; assumption. Qed.

Lemma local_qmul (d : nat) (x y : Qobj) : local d x -> local d (qmul x y).
Proof. intros [Hd Hs]. split; assumption. Qed.

Lemma upd_comm {X : Type} (l : list X) (i j : nat) (x y : X) :
  i <> j -> upd (upd l i x) j y = upd (upd l j y) i x.
Proof.
  revert i j. induction l as [|h t IH]; intros [|i] [|j] Hne; cbn;
    try reflexivity; try congruence.
  f_equal. apply IH. congruence.
Qed.

Lemma map_upd {X Y : Type} (f : X -> Y) (l : list X) (i : nat) (x : X) :
  map f (upd l i x) = upd (map f l) i (f x).
Proof.
  revert i. induction l as [|h t IH]; intros [|i]; cbn; try reflexivity.
  now rewrite IH.
Qed.

Lemma map_shape_embed (ds : list nat) (i : nat) (A : Qobj) :
  local (nth i ds 0%nat) A -> map shape (upd (map eye ds) i A) = ds.
Proof.
  revert i. induction ds as [|d ds IH]; intros [|i] [Hd Hs]; cbn in *.
  - reflexivity.
  - reflexivity.
  - rewrite Hs. f_equal. rewrite map_map. cbn. apply map_id.
  - f_equal. apply IH. now split.
Qed.

Lemma map_dims_embed (ds : list nat) (i : nat) (A : Qobj) :
  local (nth i ds 0%nat) A ->
  map dims (upd (map eye ds) i A) = map (fun d => [d]) ds.
Proof.
  revert i. induction ds as [|d ds IH]; intros [|i] [Hd Hs]; cbn in *.
  - reflexivity.
  - reflexivity.
  - rewrite Hd. f_equal. now rewrite map_map.
  - f_equal. apply IH. now split.
Qed.

Lemma concat_singletons (ds : list nat) :
  List.concat (map (fun d => [d]) ds) = ds.
Proof. induction ds as [|d ds IH]; cbn; congruence. Qed.

Lemma embed_op_dims (ds : list nat) (i : nat) (A : Qobj) :
  local (nth i ds 0%nat) A -> dims (embed_op ds i A) = ds.
Proof.
  intros HA. unfold embed_op.
  now rewrite tensor_op_dims, map_dims_embed, concat_singletons.
Qed.

Lemma embed_op_shape (ds : list nat) (i : nat) (A : Qobj) :
  local (nth i ds 0%nat) A -> shape (embed_op ds i A) = total_dimension ds.
Proof.
  intros HA. unfold embed_op. now rewrite tensor_op_shape, map_shape_embed.
Qed.

Lemma same_shape_of_map (l l' : list Qobj) :
  map shape l = map shape l' -> Forall2 same_shape l l'.
Proof.
  revert l'. induction l as [|a l IH]; intros [|b l'] E; cbn in E;
    try discriminate; constructor.
  - unfold same_shape. congruence.
  - apply IH. congruence.
Qed.

Lemma qmul_eye_eye (d : nat) : qeq (qmul (eye d) (eye d)) (eye d).
Proof. now apply qmul_eye_r. Qed.

Lemma qmul_list_eye_eye (ds : list nat) :
  Forall2 qeq (qmul_list (map eye ds) (map eye ds)) (map eye ds).
Proof.
  induction ds as [|d ds IH]; cbn; constructor.
  - apply qmul_eye_eye.
  - exact IH.
Qed.

Lemma qmul_list_eye_l (ds : list nat) (j : nat) (B : Qobj) :
  local (nth j ds 0%nat) B ->
  Forall2 qeq (qmul_list (map eye ds) (upd (map eye ds) j B))
          (upd (map eye ds) j B).
Proof.
  revert j. induction ds as [|d ds IH]; intros [|j] [Hd Hs]; cbn in *.
  - constructor.
  - constructor.
  - constructor; [now apply qmul_eye_l|apply qmul_list_eye_eye].
  - constructor; [apply qmul_eye_eye|]. apply IH. now split.
Qed.

Lemma qmul_list_eye_r (ds : list nat) (i : nat) (A : Qobj) :
  local (nth i ds 0%nat) A ->
  Forall2 qeq (qmul_list (upd (map eye ds) i A) (map eye ds))
          (upd (map eye ds) i A).
Proof.
  revert i. induction ds as [|d ds IH]; intros [|i] [Hd Hs]; cbn in *.
  - constructor.
  - constructor.
  - constructor; [now apply qmul_eye_r|apply qmul_list_eye_eye].
  - constructor; [apply qmul_eye_eye|]. apply IH. now split.
Qed.

(** Position by position, the two single embeddings multiply to the joint
    one. *)
Lemma qmul_list_joint (ds : list nat) (i j : nat) (A B : Qobj) :
  i <> j -> local (nth i ds 0%nat) A -> local (nth j ds 0%nat) B ->
  Forall2 qeq (qmul_list (upd (map eye ds) i A) (upd (map eye ds) j B))
          (upd (upd (map eye ds) i A) j B).
Proof.
  revert i j.
  induction ds as [|d ds IH]; intros [|i] [|j] Hne HA HB; cbn in *;
    try congruence; try constructor.
  - apply qmul_eye_r. apply HA.
  - now apply qmul_list_eye_l.
  - apply qmul_eye_l; apply HB.
  - now apply qmul_list_eye_r.
  - apply qmul_eye_eye.
  - apply IH; [congruence|assumption|assumption].
Qed.

Lemma qmul_list_same (ds : list nat) (i : nat) (A B : Qobj) :
  Forall2 qeq (qmul_list (upd (map eye ds) i A) (upd (map eye ds) i B))
          (upd (map eye ds) i (qmul A B)).
Proof.
  revert i. induction ds as [|d ds IH]; intros [|i]; cbn.
  - constructor.
  - constructor.
  - constructor; [reflexivity|apply qmul_list_eye_eye].
  - constructor; [apply qmul_eye_eye|apply IH].
Qed.

Lemma same_shape_embed (ds : list nat) (i j : nat) (A B : Qobj) :
  local (nth i ds 0%nat) A -> local (nth j ds 0%nat) B ->
  Forall2 same_shape (upd (map eye ds) i A) (upd (map eye ds) j B).
Proof.
  intros HA HB. apply same_shape_of_map. now rewrite !map_shape_embed.
Qed.

(** A single embedding times a single embedding at another index is the
    joint embedding. *)
Lemma embed_op_mul (ds : list nat) (i j : nat) (A B : Qobj) :
  i <> j -> local (nth i ds 0%nat) A -> local (nth j ds 0%nat) B ->
  qeq (qmul (embed_op ds i A) (embed_op ds j B)) (embed2_op ds i A j B).
Proof.
  intros Hne HA HB. unfold embed_op, embed2_op.
  rewrite tensor_op_mixed by now apply same_shape_embed.
  apply tensor_op_qeq. now apply qmul_list_joint.
Qed.

Lemma embed_op_mul_same (ds : list nat) (i : nat) (A B : Qobj) :
  local (nth i ds 0%nat) A -> local (nth i ds 0%nat) B ->
  qeq (qmul (embed_op ds i A) (embed_op ds i B)) (embed_op ds i (qmul A B)).
Proof.
  intros HA HB. unfold embed_op.
  rewrite tensor_op_mixed by now apply same_shape_embed.
  apply tensor_op_qeq. apply qmul_list_same.
Qed.

Lemma commute_embed (ds : list nat) (i j : nat) (A B : Qobj) :
  i <> j -> local (nth i ds 0%nat) A -> local (nth j ds 0%nat) B ->
  commute (embed_op ds i A) (embed_op ds j B).
Proof.
  intros Hne HA HB. unfold commute.
  rewrite embed_op_mul, (embed_op_mul ds j i) by (assumption || congruence).
  unfold embed2_op. now rewrite upd_comm.
Qed.

Lemma map_qdag_eye (ds : list nat) :
  Forall2 qeq (map qdag (map eye ds)) (map eye ds).
Proof.
  induction ds as [|d ds IH]; cbn; constructor; [apply qdag_eye|exact IH].
Qed.

Lemma embed_op_dag (ds : list nat) (i : nat) (A : Qobj) :
  qeq (qdag (embed_op ds i A)) (embed_op ds i (qdag A)).
Proof.
  unfold embed_op. rewrite tensor_op_dag, map_upd.
  apply tensor_op_qeq. apply Forall2_upd; [apply map_qdag_eye|reflexivity].
Qed.

Lemma hermitian_embed_op (ds : list nat) (i : nat) (A : Qobj) :
  hermitian A -> hermitian (embed_op ds i A).
Proof.
  intros HA. apply hermitian_iff. rewrite embed_op_dag.
  unfold embed_op. apply tensor_op_qeq.
  apply Forall2_upd; [apply Forall2_refl; reflexivity|].
  now apply hermitian_iff.
Qed.

End EmbedTheory.

(** ** Sums of operators *)

Section SumOfOperators.

Context {Sc : Scalar}.

Lemma py_add_acc (ds : list nat) (acc : pyval) (q : Qobj) :
  acc_dims ds acc -> dims q = ds -> py_add acc (PObj q) = Ok (acc_add acc q).
Proof.
  intros [->|(a & -> & Ha)] Hq; cbn; [reflexivity|].
  rewrite Ha, Hq, dims_eqb_refl. reflexivity.
Qed.

Lemma acc_add_dims (ds : list nat) (acc : pyval) (q : Qobj) :
  acc_dims ds acc -> dims q = ds -> acc_dims ds (acc_add acc q).
Proof.
  intros [->|(a & -> & Ha)] Hq; right; eexists; split; try reflexivity;
    assumption.
Qed.

Lemma py_sum_acc (ds : list nat) (qs : list Qobj) (acc : pyval) :
  acc_dims ds acc -> Forall (fun q => dims q = ds) qs ->
  foldM py_add (map PObj qs) acc = Ok (fold_left acc_add qs acc).
Proof.
  intros Hacc HF. revert acc Hacc.
  induction HF as [|q qs Hq HF IH]; intros acc Hacc; cbn; [reflexivity|].
  rewrite (py_add_acc ds) by assumption. cbn.
  apply IH. now apply acc_add_dims.
Qed.

(** A sum of operators that all satisfy [P], when sums keep [P]. *)
Lemma fold_acc_add_inv (P : Qobj -> Prop) (qs : list Qobj) (acc : pyval) :
  (forall a b, P a -> P b -> P (qadd a b)) ->
  Forall P qs ->
  acc = PInt 0 \/ (exists a, acc = PObj a /\ P a) ->
  (qs = [] /\ fold_left acc_add qs acc = acc) \/
  (exists h, fold_left acc_add qs acc = PObj h /\ P h).
Proof.
  intros Hadd HF. revert acc.
  induction HF as [|q qs Hq HF IH]; intros acc Hacc; [now left|].
  right. cbn.
  assert (Hnext : exists a, acc_add acc q = PObj a /\ P a).
  { destruct Hacc as [->|(a & -> & Ha)]; cbn; eauto. }
  destruct (IH (acc_add acc q) (or_intror Hnext)) as [[-> E]|Hh].
  - cbn. exact Hnext.
  - exact Hh.
Qed.

Lemma acc_sum_inv (P : Qobj -> Prop) (qs : list Qobj) :
  (forall a b, P a -> P b -> P (qadd a b)) ->
  Forall P qs -> qs <> [] ->
  exists h, acc_sum qs = PObj h /\ P h.
Proof.
  intros Hadd HF Hne.
  destruct (fold_acc_add_inv P qs (PInt 0) Hadd HF (or_introl eq_refl))
    as [[E _]|Hh]; [contradiction|exact Hh].
Qed.

Lemma herm_over_qadd (ds : list nat) (a b : Qobj) :
  herm_over ds a -> herm_over ds b -> herm_over ds (qadd a b).
Proof.
  intros (Hd & Hs & Hh) (Hd' & Hs' & Hh'). repeat split; try assumption.
  apply hermitian_qadd; [congruence|assumption|assumption].
Qed.

Lemma nth_repeat_lt {X : Type} (x d : X) (n m : nat) :
  n < m -> nth n (repeat x m) d = x.
Proof.
  revert n. induction m as [|m IH]; intros [|n] Hn; cbn; try lia; auto.
  apply IH. lia.
Qed.

Lemma nth_error_map_seq {X : Type} (f : nat -> X) (m n : nat) :
  n < m -> nth_error (map f (seq 0 m)) n = Some (f n).
Proof.
  intros Hn. rewrite nth_error_map, nth_error_seq.
  apply Nat.ltb_lt in Hn. now rewrite Hn.
Qed.

Lemma item_map_seq (f : nat -> Qobj) (m n : nat) :
  n < m -> item (map f (seq 0 m)) n = Ok (PObj (f n)).
Proof.
  intros Hn. unfold item, list_get. now rewrite nth_error_map_seq.
Qed.

End SumOfOperators.

(** ** The Heisenberg chain *)

Section ChainTheory.

Context {Sc : Scalar}.
Local Open Scope C_scope.
Local Open Scope string_scope.

Lemma local_sigmax : local 2 sigmax.
Proof. split; reflexivity. Qed.
Lemma local_sigmay : local 2 sigmay.
Proof. split; reflexivity. Qed.
Lemma local_sigmaz : local 2 sigmaz.
Proof. split; reflexivity. Qed.
Lemma local_destroy_op (d : nat) : local d (destroy_op d).
Proof. split; reflexivity. Qed.

Lemma list_set_site (d m n : nat) (A : Qobj) :
  (n < m)%nat ->
  list_set (repeat (eye d) m) n A = Ok (upd (map eye (repeat d m)) n A).
Proof.
  intros Hn. rewrite list_set_ok by (rewrite repeat_length; lia).
  now rewrite map_repeat.
Qed.

Lemma tensor_site (d m n : nat) (A : Qobj) :
  (n < m)%nat -> tensor (upd (map eye (repeat d m)) n A) = Ok (site_op d m n A).
Proof.
  intros Hn. apply tensor_ok. intros E. apply upd_nil_iff in E.
  destruct m; [lia|discriminate].
Qed.

Lemma Heisenberg_step_ok (N : Z) (lx ly lz : list Qobj) (n : nat) :
  let m := Z.to_nat N in
  (n < m)%nat ->
  Heisenberg_step N (eye 2) (lx, ly, lz) n =
  Ok ((lx ++ [site_op 2 m n sigmax])%list,
      (ly ++ [site_op 2 m n sigmay])%list,
      (lz ++ [site_op 2 m n sigmaz])%list).
Proof.
  intros m Hn. unfold Heisenberg_step, list_repeat. fold m.
  rewrite list_set_site by assumption. cbn [bind].
  rewrite tensor_site by assumption. cbn [bind].
  rewrite list_set_ok by (rewrite upd_length, length_map, repeat_length; lia).
  rewrite upd_upd. cbn [bind].
  rewrite tensor_site by assumption. cbn [bind].
  rewrite list_set_ok by (rewrite upd_length, length_map, repeat_length; lia).
  rewrite upd_upd. cbn [bind].
  rewrite tensor_site by assumption. cbn [bind].
  reflexivity.
Qed.

Lemma Heisenberg_lists_ok (N : Z) (k a : nat) (lx ly lz : list Qobj) :
  let m := Z.to_nat N in
  (a + k <= m)%nat ->
  foldM (Heisenberg_step N (eye 2)) (seq a k) (lx, ly, lz) =
  Ok ((lx ++ map (fun n => site_op 2 m n sigmax) (seq a k))%list,
      (ly ++ map (fun n => site_op 2 m n sigmay) (seq a k))%list,
      (lz ++ map (fun n => site_op 2 m n sigmaz) (seq a k))%list).
Proof.
  intros m. revert a lx ly lz.
  induction k as [|k IH]; intros a lx ly lz Hk; cbn [seq foldM map].
  - now rewrite !app_nil_r.
  - rewrite Heisenberg_step_ok by (fold m; lia). cbn [bind].
    rewrite IH by lia. rewrite <- !app_assoc. reflexivity.
Qed.

Lemma site_op_dims (d m n : nat) (A : Qobj) :
  (n < m)%nat -> local d A -> dims (site_op d m n A) = repeat d m.
Proof.
  intros Hn HA. apply embed_op_dims. now rewrite nth_repeat_lt.
Qed.

Lemma site_op_shape (d m n : nat) (A : Qobj) :
  (n < m)%nat -> local d A -> shape (site_op d m n A) = total_dimension (repeat d m).
Proof.
  intros Hn HA. apply embed_op_shape. now rewrite nth_repeat_lt.
Qed.

Lemma Heisenberg_term_ok (m : nat) (Jx Jy Jz : number) (n : nat) :
  (n + 1 < m)%nat ->
  Heisenberg_term Jx Jy Jz
    (map (fun n => site_op 2 m n sigmax) (seq 0 m))
    (map (fun n => site_op 2 m n sigmay) (seq 0 m))
    (map (fun n => site_op 2 m n sigmaz) (seq 0 m)) n =
  Ok (PObj (Heisenberg_term_op m Jx Jy Jz n)).
Proof.
  intros Hn. unfold Heisenberg_term.
  rewrite !item_map_seq by lia.
  repeat (cbn [lift2 bind num py_mul py_add dims qscale qmul qadd];
          rewrite ?site_op_dims by (try lia; split; reflexivity);
          rewrite ?dims_eqb_refl).
  reflexivity.
Qed.

Lemma Heisenberg_term_op_dims (m : nat) (Jx Jy Jz : C) (n : nat) :
  (n + 1 < m)%nat -> dims (Heisenberg_term_op m Jx Jy Jz n) = repeat 2%nat m.
Proof.
  intros Hn. cbn. apply site_op_dims; [lia|split; reflexivity].
Qed.

Lemma Heisenberg_loop_ok (m : nat) (Jx Jy Jz : number) (l : list nat)
      (self : HamiltonianBase) :
  Forall (fun n => n + 1 < m)%nat l ->
  acc_dims (repeat 2%nat m) (H self) ->
  forM_ l (fun n =>
    h <<- get_H ;;
    t <<- lift (Heisenberg_term Jx Jy Jz
                  (map (fun n => site_op 2 m n sigmax) (seq 0 m))
                  (map (fun n => site_op 2 m n sigmay) (seq 0 m))
                  (map (fun n => site_op 2 m n sigmaz) (seq 0 m)) n) ;;
    h' <<- lift (py_add h t) ;;
    set_H h') self =
  (Ok tt, mkBase (name self) (params self)
                 (fold_left acc_add (map (Heisenberg_term_op m Jx Jy Jz) l) (H self))).
Proof.
  intros HF. revert self.
  induction HF as [|n l Hn HF IH]; intros self Hacc; cbn [forM_ map fold_left].
  - unfold mret. now destruct self.
  - unfold mbind at 1. unfold mbind at 1. unfold get_H at 1.
    unfold mbind at 1. unfold lift at 1.
    rewrite Heisenberg_term_ok by assumption.
    unfold mbind at 1. unfold lift at 1.
    rewrite (py_add_acc (repeat 2%nat m)) by
      (try assumption; now apply Heisenberg_term_op_dims).
    unfold set_H at 1.
    rewrite IH.
    + reflexivity.
    + cbn [H]. apply acc_add_dims; [assumption|].
      now apply Heisenberg_term_op_dims.
Qed.

Lemma HeisenbergSpinChain_build_ok (N : Z) (Jx Jy Jz : number) (self : HamiltonianBase) :
  HeisenbergSpinChain_build N Jx Jy Jz self =
  (Ok (Heisenberg_op (Z.to_nat N) Jx Jy Jz),
   mkBase (name self)
          [("N_spins", PInt N); ("Jx", PNum Jx); ("Jy", PNum Jy); ("Jz", PNum Jz)]
          (Heisenberg_op (Z.to_nat N) Jx Jy Jz)).
Proof.
  unfold HeisenbergSpinChain_build.
  unfold mbind at 1. unfold set_params at 1.
  unfold mbind at 1. unfold lift at 1.
  change (qeye 2) with (Ok (eye 2)). cbn [bind]. unfold range.
  rewrite (Heisenberg_lists_ok N (Z.to_nat N) 0) by lia.
  cbn [app].
  unfold mbind at 1. unfold set_H at 1.
  unfold mbind at 1.
  replace (Z.to_nat (N - 1)) with (Z.to_nat N - 1)%nat by lia.
  rewrite Heisenberg_loop_ok.
  - reflexivity.
  - apply Forall_forall. intros n Hn. apply in_seq in Hn. lia.
  - now left.
Qed.

Lemma local_at_site (d m n : nat) (A : Qobj) :
  (n < m)%nat -> local d A -> local (nth n (repeat d m) 0%nat) A.
Proof. intros Hn HA. now rewrite nth_repeat_lt. Qed.

Lemma hermitian_site_coupling (m n : nat) (J : C) (A : Qobj) :
  (n + 1 < m)%nat -> is_real J -> local 2 A -> hermitian A ->
  hermitian (qmul (qscale J (site_op 2 m n A)) (site_op 2 m (n + 1) A)).
Proof.
  intros Hn HJ HA Hh. apply hermitian_scaled_qmul; try assumption.
  - now apply hermitian_embed_op.
  - now apply hermitian_embed_op.
  - apply commute_embed; [lia| |]; apply local_at_site; (lia || assumption).
Qed.

Lemma Heisenberg_term_op_herm (m : nat) (Jx Jy Jz : C) (n : nat) :
  (n + 1 < m)%nat -> is_real Jx -> is_real Jy -> is_real Jz ->
  herm_over (repeat 2%nat m) (Heisenberg_term_op m Jx Jy Jz n).
Proof.
  intros Hn Hx Hy Hz. split; [now apply Heisenberg_term_op_dims|]. split.
  - cbn. apply site_op_shape; [lia|split; reflexivity].
  - unfold Heisenberg_term_op.
    assert (Hs : forall k A, (k < m)%nat -> local 2 A ->
                 shape (site_op 2 m k A) = total_dimension (repeat 2%nat m))
      by (intros; now apply site_op_shape).
    apply hermitian_qadd; [cbn; rewrite !Hs by (lia || apply local_sigmax || apply local_sigmaz); reflexivity| |].
    + apply hermitian_qadd; [cbn; rewrite !Hs by (lia || apply local_sigmax || apply local_sigmay); reflexivity| |].
      * apply hermitian_site_coupling; auto using local_sigmax, hermitian_sigmax.
      * apply hermitian_site_coupling; auto using local_sigmay, hermitian_sigmay.
    + apply hermitian_site_coupling; auto using local_sigmaz, hermitian_sigmaz.
Qed.

Lemma Heisenberg_op_herm (m : nat) (Jx Jy Jz : C) :
  (2 <= m)%nat -> is_real Jx -> is_real Jy -> is_real Jz ->
  exists h, Heisenberg_op m Jx Jy Jz = PObj h /\ herm_over (repeat 2%nat m) h.
Proof.
  intros Hm Hx Hy Hz. unfold Heisenberg_op. apply acc_sum_inv.
  - apply herm_over_qadd.
  - apply Forall_forall. intros q Hq. apply in_map_iff in Hq.
    destruct Hq as (n & <- & Hn). apply in_seq in Hn.
    apply Heisenberg_term_op_herm; (lia || assumption).
  - destruct m as [|[|m]]; try lia. discriminate.
Qed.
End ChainTheory.

(** ** The Tavis-Cummings model *)

Section CollectiveTheory.

Context {Sc : Scalar}.
Local Open Scope C_scope.
Local Open Scope string_scope.

Add Ring C_ring_tc : C_ring.

Lemma local_at_atom (na nc i : nat) (A : Qobj) :
  (i < na)%nat -> local 2 A ->
  local (nth (S i) (TavisCummings_space na nc) 0%nat) A.
Proof. intros Hi HA. cbn. now rewrite nth_repeat_lt. Qed.

Lemma atom_op_dims (na nc i : nat) (A : Qobj) :
  (i < na)%nat -> local 2 A ->
  dims (atom_op na nc i A) = TavisCummings_space na nc.
Proof. intros Hi HA. apply embed_op_dims. now apply local_at_atom. Qed.

Lemma atom_op_shape (na nc i : nat) (A : Qobj) :
  (i < na)%nat -> local 2 A ->
  shape (atom_op na nc i A) = total_dimension (TavisCummings_space na nc).
Proof. intros Hi HA. apply embed_op_shape. now apply local_at_atom. Qed.

Lemma tensor_atom (na nc i : nat) (A : Qobj) :
  tensor (eye nc :: upd (repeat (eye 2) na) i A) = Ok (atom_op na nc i A).
Proof.
  unfold atom_op, embed_op, TavisCummings_space. cbn [map upd].
  now rewrite map_repeat.
Qed.

Lemma TavisCummings_step_ok (N_atoms N_cavity : Z) (sz sm : pyval) (i : nat) :
  let na := Z.to_nat N_atoms in
  let nc := Z.to_nat N_cavity in
  (1 <= N_cavity)%Z -> (i < na)%nat ->
  acc_dims (TavisCummings_space na nc) sz ->
  acc_dims (TavisCummings_space na nc) sm ->
  TavisCummings_step N_atoms N_cavity (sz, sm) i =
  Ok (acc_add sz (atom_op na nc i sigmaz),
      acc_add sm (atom_op na nc i (destroy_op 2))).
Proof.
  intros na nc Hc Hi Hsz Hsm. unfold TavisCummings_step, list_repeat.
  fold na. change (qeye 2) with (Ok (eye 2)).
  change (destroy 2) with (Ok (destroy_op 2)).
  rewrite (qeye_ok N_cavity) by assumption. fold nc. cbn [bind].
  rewrite !list_set_ok by (rewrite repeat_length; lia). cbn [bind].
  rewrite !tensor_atom. cbn [bind].
  rewrite (py_add_acc (TavisCummings_space na nc)) by
    (first [assumption | apply atom_op_dims; [assumption|split; reflexivity]]).
  cbn [bind].
  rewrite (py_add_acc (TavisCummings_space na nc)) by
    (first [assumption | apply atom_op_dims; [assumption|split; reflexivity]]).
  reflexivity.
Qed.

Lemma TavisCummings_loop_ok (N_atoms N_cavity : Z) (k a : nat) (sz sm : pyval) :
  let na := Z.to_nat N_atoms in
  let nc := Z.to_nat N_cavity in
  (1 <= N_cavity)%Z -> (a + k <= na)%nat ->
  acc_dims (TavisCummings_space na nc) sz ->
  acc_dims (TavisCummings_space na nc) sm ->
  foldM (TavisCummings_step N_atoms N_cavity) (seq a k) (sz, sm) =
  Ok (fold_left acc_add (map (fun i => atom_op na nc i sigmaz) (seq a k)) sz,
      fold_left acc_add (map (fun i => atom_op na nc i (destroy_op 2)) (seq a k)) sm).
Proof.
  intros na nc Hc. revert a sz sm.
  induction k as [|k IH]; intros a sz sm Hk Hsz Hsm; cbn [seq foldM map fold_left].
  - reflexivity.
  - rewrite TavisCummings_step_ok by (assumption || (fold na; lia)).
    cbn [bind]. fold na nc. apply IH; [lia| |];
      (apply acc_add_dims; [assumption|]);
      (apply atom_op_dims; [lia|split; reflexivity]).
Qed.

Lemma acc_sum_dims (ds : list nat) (qs : list Qobj) :
  Forall (fun q => dims q = ds) qs -> qs <> [] ->
  exists h, acc_sum qs = PObj h /\ dims h = ds.
Proof.
  intros HF Hne. apply (acc_sum_inv (fun q => dims q = ds)); try assumption.
  intros a b Ha _. exact Ha.
Qed.

Lemma field_op_dims (na nc : nat) :
  dims (embed_op (TavisCummings_space na nc) 0 (destroy_op nc)) =
  TavisCummings_space na nc.
Proof. apply embed_op_dims. split; reflexivity. Qed.

Lemma tensor_field (na nc : nat) :
  tensor (destroy_op nc :: repeat (eye 2) na) =
  Ok (embed_op (TavisCummings_space na nc) 0 (destroy_op nc)).
Proof.
  unfold embed_op, TavisCummings_space. cbn [map upd]. now rewrite map_repeat.
Qed.

Lemma TavisCummings_build_ok (N_atoms N_cavity : Z) (wc wa g : number)
      (self : HamiltonianBase) :
  (1 <= N_atoms)%Z -> (2 <= N_cavity)%Z ->
  TavisCummings_build N_atoms N_cavity wc wa g self =
  (Ok (TavisCummings_op (Z.to_nat N_atoms) (Z.to_nat N_cavity) wc wa g),
   mkBase (name self)
          [("N_atoms", PInt N_atoms); ("N_cavity", PInt N_cavity);
           ("wc", PNum wc); ("wa", PNum wa); ("g", PNum g)]
          (TavisCummings_op (Z.to_nat N_atoms) (Z.to_nat N_cavity) wc wa g)).
Proof.
  intros Ha Hc. unfold TavisCummings_build, list_repeat.
  set (na := Z.to_nat N_atoms). set (nc := Z.to_nat N_cavity).
  change (qeye 2) with (Ok (eye 2)).
  rewrite (destroy_ok N_cavity) by assumption. fold nc. cbn [bind].
  rewrite tensor_field.
  unfold mbind at 1. unfold set_params at 1.
  unfold mbind at 1. unfold lift at 1.
  rewrite (proj2 (Z.ltb_ge N_atoms 0)) by lia.
  rewrite (qeye_ok (2 ^ N_atoms)) by (apply (Z.pow_le_mono_r 2 0 N_atoms); lia).
  cbn [bind tensor].
  unfold mbind at 1. unfold lift at 1. unfold range.
  rewrite (TavisCummings_loop_ok N_atoms N_cavity (Z.to_nat N_atoms) 0)
    by (try assumption; try lia; now left).
  fold na nc.
  unfold mbind at 1. unfold lift at 1.
  unfold TavisCummings_op.
  change (fold_left acc_add ?l (PInt 0)) with (acc_sum l).
  destruct (acc_sum_dims (TavisCummings_space na nc)
              (map (fun i => atom_op na nc i sigmaz) (seq 0 na)))
    as (sz & Esz & Hsz).
  { apply Forall_forall. intros q Hq. apply in_map_iff in Hq.
    destruct Hq as (i & <- & Hi). apply in_seq in Hi.
    apply atom_op_dims; [lia|split; reflexivity]. }
  { destruct na eqn:E; [lia|discriminate]. }
  destruct (acc_sum_dims (TavisCummings_space na nc)
              (map (fun i => atom_op na nc i (destroy_op 2)) (seq 0 na)))
    as (sm & Esm & Hsm).
  { apply Forall_forall. intros q Hq. apply in_map_iff in Hq.
    destruct Hq as (i & <- & Hi). apply in_seq in Hi.
    apply atom_op_dims; [lia|split; reflexivity]. }
  { destruct na eqn:E; [lia|discriminate]. }
  rewrite Esz, Esm.
  unfold mbind at 1. unfold lift at 1.
  repeat (cbn [bind lift2 dag obj num py_dag py_mul py_add dims qscale qdag qmul qadd];
          rewrite ?field_op_dims, ?Hsz, ?Hsm, ?dims_eqb_refl).
  reflexivity.
Qed.

Lemma qdag_qadd (a b : Qobj) : qeq (qdag (qadd a b)) (qadd (qdag a) (qdag b)).
Proof.
  repeat split. cbn. intros i j _ _. unfold mdag, madd. apply conj_add.
Qed.

Lemma commute_dag_qadd (a b d : Qobj) :
  commute a (qdag b) -> commute a (qdag d) -> commute a (qdag (qadd b d)).
Proof.
  intros Hb Hd.
  apply (commute_qeq a a (qadd (qdag b) (qdag d))); [reflexivity| |].
  - symmetry. apply qdag_qadd.
  - apply commute_sym. apply commute_qadd_l; now apply commute_sym.
Qed.

Lemma TavisCummings_op_herm (na nc : nat) (wc wa g : C) :
  (1 <= na)%nat -> is_real wc -> is_real wa -> is_real g ->
  exists h, TavisCummings_op na nc wc wa g = PObj h /\ hermitian h.
Proof.
  intros Hna Hwc Hwa Hg. unfold TavisCummings_op.
  set (ds := TavisCummings_space na nc).
  set (a := embed_op ds 0 (destroy_op nc)).
  destruct (acc_sum_inv (herm_over ds)
              (map (fun i => atom_op na nc i sigmaz) (seq 0 na)))
    as (sz & -> & Hsz).
  { apply herm_over_qadd. }
  { apply Forall_forall. intros q Hq. apply in_map_iff in Hq.
    destruct Hq as (i & <- & Hi). apply in_seq in Hi. repeat split.
    - apply atom_op_dims; [lia|split; reflexivity].
    - apply atom_op_shape; [lia|split; reflexivity].
    - apply hermitian_embed_op, hermitian_sigmaz. }
  { destruct na; [lia|discriminate]. }
  destruct (acc_sum_inv (couples_to a ds)
              (map (fun i => atom_op na nc i (destroy_op 2)) (seq 0 na)))
    as (sm & -> & Hsm).
  { intros x y [Hx Hcx] [Hy Hcy]. split; [exact Hx|].
    now apply commute_dag_qadd. }
  { apply Forall_forall. intros q Hq. apply in_map_iff in Hq.
    destruct Hq as (i & <- & Hi). apply in_seq in Hi. split.
    - apply atom_op_dims; [lia|split; reflexivity].
    - apply (commute_qeq a a (embed_op ds (S i) (qdag (destroy_op 2))));
        [reflexivity| |].
      + symmetry. apply embed_op_dag.
      + apply commute_embed; [lia| |].
        * split; reflexivity.
        * apply local_at_atom; [lia|split; reflexivity]. }
  { destruct na; [lia|discriminate]. }
  eexists. split; [reflexivity|].
  destruct Hsz as (Hd & Hs & Hh). destruct Hsm as [Hdm Hcm].
  assert (Hsa : shape a = total_dimension ds)
    by (apply embed_op_shape; split; reflexivity).
  apply hermitian_qadd; [reflexivity| |].
  - apply hermitian_qadd; [cbn [shape qmul qscale qdag]; congruence| |].
    + now apply hermitian_number.
    + apply hermitian_qscale; [|assumption].
      apply is_real_mul; [apply conj_half|assumption].
  - apply hermitian_qscale; [assumption|]. now apply hermitian_rwa.
Qed.
End CollectiveTheory.

(** ** The Bose-Hubbard lattice *)

Section LatticeTheory.

Context {Sc : Scalar}.
Local Open Scope C_scope.
Local Open Scope string_scope.

Add Ring C_ring_bh : C_ring.

Lemma map_const_seq {X : Type} (f : nat -> X) (y : X) (a m : nat) :
  (forall i, (a <= i)%nat -> f i = y) -> map f (seq a m) = repeat y m.
Proof.
  revert a. induction m as [|m IH]; intros a E; cbn; [reflexivity|].
  rewrite E by lia. f_equal. apply IH. intros i Hi. apply E. lia.
Qed.

Lemma map_if_seq {X : Type} (x y : X) (a m j : nat) :
  map (fun i => if Nat.eqb i (a + j) then x else y) (seq a m) =
  upd (repeat y m) j x.
Proof.
  revert a j. induction m as [|m IH]; intros a [|j]; cbn; try reflexivity.
  - rewrite Nat.add_0_r, Nat.eqb_refl. f_equal.
    apply map_const_seq. intros i Hi.
    now rewrite (proj2 (Nat.eqb_neq i a)) by lia.
  - rewrite (proj2 (Nat.eqb_neq a (a + S j))) by lia. f_equal.
    rewrite <- (IH (S a) j). apply map_ext. intros i.
    now replace (S a + j)%nat with (a + S j)%nat by lia.
Qed.

Lemma BoseHubbard_sites_ok (N_sites N_levels : Z) :
  let m := Z.to_nat N_sites in
  let d := Z.to_nat N_levels in
  (1 <= N_levels)%Z ->
  mapM (fun j =>
          l <- mapM (fun i => if Nat.eqb i j
                              then list_get (map (fun _ => destroy_op d) (seq 0 m)) j
                              else qeye N_levels) (seq 0 m) ;;
          tensor l) (seq 0 m) =
  Ok (map (fun j => site_op d m j (destroy_op d)) (seq 0 m)).
Proof.
  intros m d HL. apply mapM_ok. intros j Hj. apply in_seq in Hj.
  rewrite (mapM_ok _ (fun i => if Nat.eqb i j then destroy_op d else eye d)).
  - cbn [bind]. rewrite (map_if_seq (destroy_op d) (eye d) 0 m j).
    rewrite <- map_repeat. apply tensor_site. lia.
  - intros i _. destruct (Nat.eqb i j).
    + unfold list_get. now rewrite nth_error_map_seq by lia.
    + now apply qeye_ok.
Qed.

Lemma BoseHubbard_hop_ok (d m : nat) (t : number) (i : nat) :
  (i + 1 < m)%nat ->
  let a := map (fun j => site_op d m j (destroy_op d)) (seq 0 m) in
  (num (nopp t) .* (dag (item a i) .* item a (i + 1)
                 .+ dag (item a (i + 1)) .* item a i))%py =
  Ok (PObj (BoseHubbard_hop_op d m t i)).
Proof.
  intros Hi a. unfold a. rewrite !item_map_seq by lia.
  repeat (cbn [lift2 bind dag num py_dag py_mul py_add dims qscale qdag qmul qadd];
          rewrite ?site_op_dims by (try lia; split; reflexivity);
          rewrite ?dims_eqb_refl).
  reflexivity.
Qed.

Lemma BoseHubbard_int_ok (d m : nat) (U : number) (i : nat) :
  (i < m)%nat ->
  let a := map (fun j => site_op d m j (destroy_op d)) (seq 0 m) in
  (num (float chalf) .* num U .* dag (item a i) .* dag (item a i)
   .* item a i .* item a i)%py =
  Ok (PObj (BoseHubbard_int_op d m U i)).
Proof.
  intros Hi a. unfold a. rewrite !item_map_seq by lia.
  repeat (cbn [lift2 bind dag num py_dag py_mul py_add dims qscale qdag qmul qadd];
          rewrite ?site_op_dims by (try lia; split; reflexivity);
          rewrite ?dims_eqb_refl).
  reflexivity.
Qed.

Lemma BoseHubbard_hop_op_dims (d m : nat) (t : C) (i : nat) :
  (i + 1 < m)%nat -> dims (BoseHubbard_hop_op d m t i) = repeat d m.
Proof. intros Hi. cbn. apply site_op_dims; [lia|split; reflexivity]. Qed.

Lemma BoseHubbard_int_op_dims (d m : nat) (U : C) (i : nat) :
  (i < m)%nat -> dims (BoseHubbard_int_op d m U i) = repeat d m.
Proof. intros Hi. cbn. apply site_op_dims; [lia|split; reflexivity]. Qed.

Lemma Forall_map_seq {X : Type} (P : X -> Prop) (f : nat -> X) (a k : nat) :
  (forall i, (a <= i < a + k)%nat -> P (f i)) -> Forall P (map f (seq a k)).
Proof.
  intros HP. apply Forall_forall. intros x Hx. apply in_map_iff in Hx.
  destruct Hx as (i & <- & Hi). apply in_seq in Hi. now apply HP.
Qed.

Lemma py_add_sums (ds : list nat) (hs ks : list Qobj) :
  Forall (fun q => dims q = ds) hs -> Forall (fun q => dims q = ds) ks ->
  py_add (acc_sum hs) (acc_sum ks) =
  Ok (match acc_sum hs, acc_sum ks with
      | PObj h, PObj k => PObj (qadd h k)
      | PObj h, _ => PObj h
      | _, v => v
      end).
Proof.
  intros Hh Hk.
  assert (Hadd : forall a b : Qobj, dims a = ds -> dims b = ds ->
                                    dims (qadd a b) = ds)
    by (intros a b Ha _; exact Ha).
  unfold acc_sum.
  destruct (fold_acc_add_inv (fun q => dims q = ds) hs (PInt 0) Hadd Hh
                             (or_introl eq_refl))
    as [[_ E1]|(h & E1 & Hdh)];
    destruct (fold_acc_add_inv (fun q => dims q = ds) ks (PInt 0) Hadd Hk
                               (or_introl eq_refl))
    as [[_ E2]|(k & E2 & Hdk)];
    rewrite E1, E2; cbn; try reflexivity.
  now rewrite Hdh, Hdk, dims_eqb_refl.
Qed.

Lemma BoseHubbard_build_ok (N_sites N_levels : Z) (t U : number)
      (self : HamiltonianBase) :
  (2 <= N_levels)%Z ->
  BoseHubbard_build N_sites N_levels t U self =
  (Ok (BoseHubbard_op (Z.to_nat N_levels) (Z.to_nat N_sites) t U),
   mkBase (name self)
          [("N_sites", PInt N_sites); ("N_levels", PInt N_levels);
           ("t", PNum t); ("U", PNum U)]
          (BoseHubbard_op (Z.to_nat N_levels) (Z.to_nat N_sites) t U)).
Proof.
  intros HL. unfold BoseHubbard_build, range.
  set (m := Z.to_nat N_sites). set (d := Z.to_nat N_levels).
  replace (Z.to_nat (N_sites - 1)) with (m - 1)%nat by lia.
  unfold mbind at 1. unfold set_params at 1.
  unfold mbind at 1. unfold lift at 1.
  rewrite (mapM_ok _ (fun _ => destroy_op d)) by (intros; now apply destroy_ok).
  unfold mbind at 1. unfold lift at 1.
  pose proof (BoseHubbard_sites_ok N_sites N_levels ltac:(lia)) as Hsites.
  cbv zeta in Hsites. fold m d in Hsites. rewrite Hsites. clear Hsites.
  unfold mbind at 1. unfold lift at 1.
  rewrite (mapM_ok _ (fun i => PObj (BoseHubbard_hop_op d m t i))).
  2:{ intros i Hi. apply in_seq in Hi. apply BoseHubbard_hop_ok. lia. }
  cbn [bind]. unfold py_sum.
  rewrite <- (map_map (BoseHubbard_hop_op d m t) PObj).
  rewrite (py_sum_acc (repeat d m)).
  2:{ now left. }
  2:{ apply Forall_map_seq. intros i Hi. apply BoseHubbard_hop_op_dims. lia. }
  unfold mbind at 1. unfold lift at 1.
  rewrite (mapM_ok _ (fun i => PObj (BoseHubbard_int_op d m U i))).
  2:{ intros i Hi. apply in_seq in Hi. apply BoseHubbard_int_ok. lia. }
  cbn [bind].
  rewrite <- (map_map (BoseHubbard_int_op d m U) PObj).
  rewrite (py_sum_acc (repeat d m)).
  2:{ now left. }
  2:{ apply Forall_map_seq. intros i Hi. apply BoseHubbard_int_op_dims. lia. }
  unfold mbind at 1. unfold lift at 1.
  change (fold_left acc_add ?l (PInt 0)) with (acc_sum l).
  rewrite (py_add_sums (repeat d m)).
  2:{ apply Forall_map_seq. intros i Hi. apply BoseHubbard_hop_op_dims. lia. }
  2:{ apply Forall_map_seq. intros i Hi. apply BoseHubbard_int_op_dims. lia. }
  reflexivity.
Qed.

Lemma BoseHubbard_op_inv (P : Qobj -> Prop) (d m : nat) (t U : C) :
  (1 <= m)%nat ->
  (forall a b, P a -> P b -> P (qadd a b)) ->
  (forall i, (i + 1 < m)%nat -> P (BoseHubbard_hop_op d m t i)) ->
  (forall i, (i < m)%nat -> P (BoseHubbard_int_op d m U i)) ->
  exists h, BoseHubbard_op d m t U = PObj h /\ P h.
Proof.
  intros Hm Hadd Hhop Hint. unfold BoseHubbard_op.
  destruct (acc_sum_inv P (map (BoseHubbard_int_op d m U) (seq 0 m)) Hadd)
    as (k & -> & Hk).
  { apply Forall_map_seq. intros i Hi. apply Hint. lia. }
  { destruct m; [lia|discriminate]. }
  destruct (fold_acc_add_inv P (map (BoseHubbard_hop_op d m t) (seq 0 (m - 1)))
                             (PInt 0) Hadd)
    as [[_ E]|(h & E & Hh)].
  { apply Forall_map_seq. intros i Hi. apply Hhop. lia. }
  { now left. }
  - unfold acc_sum. rewrite E. eauto.
  - unfold acc_sum. rewrite E. eauto.
Qed.

(** [c * a.dag() * a.dag() * a * a], as Python brackets it, is
    [c * (a * a).dag() * (a * a)]. *)
Lemma quartic_regroup (c : C) (a : Qobj) :
  qeq (qmul (qmul (qmul (qscale c (qdag a)) (qdag a)) a) a)
      (qmul (qscale c (qdag (qmul a a))) (qmul a a)).
Proof.
  rewrite qmul_assoc by reflexivity.
  apply qeq_qmul; [reflexivity| |reflexivity].
  rewrite !qmul_qscale_l. apply qeq_qscale.
  symmetry. now apply qdag_qmul.
Qed.

Lemma hermitian_quartic (c : C) (a : Qobj) :
  is_real c ->
  hermitian (qmul (qmul (qmul (qscale c (qdag a)) (qdag a)) a) a).
Proof.
  intros Hc. apply (hermitian_qeq (qmul (qscale c (qdag (qmul a a))) (qmul a a))).
  - symmetry. apply quartic_regroup.
  - now apply hermitian_number.
Qed.

Lemma BoseHubbard_op_herm (d m : nat) (t U : C) :
  (1 <= m)%nat -> is_real t -> is_real U ->
  exists h, BoseHubbard_op d m t U = PObj h /\ herm_over (repeat d m) h.
Proof.
  intros Hm Ht HU. apply BoseHubbard_op_inv; try assumption.
  - apply herm_over_qadd.
  - intros i Hi. split; [now apply BoseHubbard_hop_op_dims|]. split.
    + cbn. apply site_op_shape; [lia|split; reflexivity].
    + apply hermitian_qscale; [now apply is_real_opp|].
      apply hermitian_cross.
      rewrite !site_op_shape by (try lia; split; reflexivity). reflexivity.
  - intros i Hi. split; [now apply BoseHubbard_int_op_dims|]. split.
    + cbn. apply site_op_shape; [lia|split; reflexivity].
    + apply hermitian_quartic.
      apply is_real_mul; [apply conj_half|assumption].
Qed.
End LatticeTheory.

(** ** Diagonal operators *)

Section DiagonalTheory.

Context {Sc : Scalar}.
Local Open Scope C_scope.

Add Ring C_ring_diag : C_ring.

Lemma band_diagonal (a : Qobj) : band 0 a <-> diagonal a.
Proof.
  split; intros Hb i j Hi Hj Hne; apply Hb; try assumption; lia.
Qed.

Lemma band_destroy_op (n : nat) : band 1 (destroy_op n).
Proof.
  intros i j _ _ Hne. cbn. unfold lowering.
  now rewrite (proj2 (Nat.eqb_neq j (i + 1))) by lia.
Qed.

Lemma band_qdag (k : Z) (a : Qobj) : band k a -> band (- k) (qdag a).
Proof.
  intros Hb i j Hi Hj Hne. cbn in *. unfold mdag.
  rewrite Hb by (try assumption; lia). apply conj_0.
Qed.

Lemma band_qmul (k l : Z) (a b : Qobj) :
  shape a = shape b -> band k a -> band l b -> band (k + l) (qmul a b).
Proof.
  intros Hs Ha Hb i j Hi Hj Hne. cbn in *. unfold mmul.
  apply csum_zero. intros x Hx.
  destruct (Z.eq_dec (Z.of_nat x - Z.of_nat i) k) as [E|E].
  - rewrite (Hb x j) by (try lia; congruence). ring.
  - rewrite (Ha i x) by assumption. ring.
Qed.

Lemma diagonal_qeq (a b : Qobj) : qeq a b -> diagonal a -> diagonal b.
Proof.
  intros (_ & Es & Em) Ha i j Hi Hj Hne. rewrite <- Es in Hi, Hj.
  rewrite <- Em by assumption. now apply Ha.
Qed.

Lemma diagonal_qadd (a b : Qobj) :
  shape a = shape b -> diagonal a -> diagonal b -> diagonal (qadd a b).
Proof.
  intros Hs Ha Hb i j Hi Hj Hne. cbn in *. unfold madd.
  rewrite Ha, Hb by (assumption || congruence). ring.
Qed.

Lemma diagonal_qscale (c : C) (a : Qobj) : diagonal a -> diagonal (qscale c a).
Proof.
  intros Ha i j Hi Hj Hne. cbn in *. unfold mscale.
  rewrite Ha by assumption. ring.
Qed.

(** A zero coefficient removes the term. *)
Lemma diagonal_qscale_zero (a : Qobj) : diagonal (qscale (- c0) a).
Proof. intros i j _ _ _. cbn. unfold mscale. ring. Qed.

Lemma diagonal_eye (n : nat) : diagonal (eye n).
Proof. intros i j _ _ Hne. cbn. now apply meye_off. Qed.

Lemma diagonal_kron (a b : Qobj) :
  diagonal a -> diagonal b -> diagonal (kron a b).
Proof.
  intros Ha Hb i j Hi Hj Hne. cbn in *. unfold mkron.
  destruct (index_split _ _ _ Hi) as [Hi1 Hi2].
  destruct (index_split _ _ _ Hj) as [Hj1 Hj2].
  destruct (Nat.eq_dec (i / shape b) (j / shape b)) as [Ed|Nd].
  - rewrite (Hb (i mod shape b)%nat (j mod shape b)%nat); try assumption; [ring|].
    intros Em. apply Hne.
    rewrite (Nat.div_mod_eq i (shape b)), (Nat.div_mod_eq j (shape b)).
    congruence.
  - rewrite (Ha _ _ Hi1 Hj1 Nd). ring.
Qed.

Lemma diagonal_fold_kron (l : list Qobj) (q : Qobj) :
  diagonal q -> Forall diagonal l -> diagonal (fold_left kron l q).
Proof.
  intros Hq HF. revert q Hq.
  induction HF as [|a l Ha HF IH]; intros q Hq; cbn; [assumption|].
  apply IH. now apply diagonal_kron.
Qed.

Lemma diagonal_tensor_op (l : list Qobj) :
  Forall diagonal l -> diagonal (tensor_op l).
Proof.
  intros HF. destruct HF as [|a l Ha HF].
  - intros i j Hi Hj Hne. cbn in *. lia.
  - now apply diagonal_fold_kron.
Qed.

Lemma Forall_upd {X : Type} (P : X -> Prop) (l : list X) (n : nat) (x : X) :
  Forall P l -> P x -> Forall P (upd l n x).
Proof.
  intros HF Hx. revert n. induction HF; intros [|n]; cbn; constructor; auto.
Qed.

Lemma diagonal_embed_op (ds : list nat) (i : nat) (A : Qobj) :
  diagonal A -> diagonal (embed_op ds i A).
Proof.
  intros HA. apply diagonal_tensor_op. apply Forall_upd; [|assumption].
  apply Forall_forall. intros q Hq. apply in_map_iff in Hq.
  destruct Hq as (d & <- & _). apply diagonal_eye.
Qed.

(** Diagonal operators commute. *)
Lemma commute_diagonal (a b : Qobj) :
  dims a = dims b -> shape a = shape b -> diagonal a -> diagonal b ->
  commute a b.
Proof.
  intros Hd Hs Ha Hb. repeat split; cbn; try assumption.
  rewrite <- Hs. intros i j Hi Hj. unfold mmul.
  rewrite (csum_single (shape a) i) by
    (try assumption; intros k Hk Hne; rewrite Ha by lia; ring).
  rewrite (csum_single (shape a) i) by
    (try assumption; intros k Hk Hne; rewrite Hb by lia; ring).
  destruct (Nat.eq_dec i j) as [->|Hne]; [ring|].
  rewrite (Ha i j), (Hb i j) by lia. ring.
Qed.

(** The local operators of the lattice and their site embeddings. *)
Lemma site_op_dag (d m i : nat) (A : Qobj) :
  qeq (qdag (site_op d m i A)) (site_op d m i (qdag A)).
Proof. apply embed_op_dag. Qed.

Lemma site_op_mul (d m i : nat) (A B : Qobj) :
  (i < m)%nat -> local d A -> local d B ->
  qeq (qmul (site_op d m i A) (site_op d m i B)) (site_op d m i (qmul A B)).
Proof.
  intros Hi HA HB. apply embed_op_mul_same; now apply local_at_site.
Qed.

Lemma site_number_local (d m i : nat) :
  (i < m)%nat ->
  qeq (site_number d m i)
      (site_op d m i (qmul (qdag (destroy_op d)) (destroy_op d))).
Proof.
  intros Hi. unfold site_number.
  rewrite <- site_op_mul by (try assumption; split; reflexivity).
  apply qeq_qmul; [reflexivity| |reflexivity]. apply site_op_dag.
Qed.

Lemma diagonal_site_number (d m i : nat) :
  (i < m)%nat -> diagonal (site_number d m i).
Proof.
  intros Hi.
  apply (diagonal_qeq (site_op d m i (qmul (qdag (destroy_op d)) (destroy_op d)))).
  - symmetry. now apply site_number_local.
  - apply diagonal_embed_op. apply band_diagonal.
    change 0%Z with (- (1) + 1)%Z.
    apply band_qmul; [reflexivity| |apply band_destroy_op].
    apply band_qdag, band_destroy_op.
Qed.

Lemma site_op_mul_qeq (d m i : nat) (x y A B : Qobj) :
  (i < m)%nat -> local d A -> local d B ->
  qeq x (site_op d m i A) -> qeq y (site_op d m i B) ->
  qeq (qmul x y) (site_op d m i (qmul A B)).
Proof.
  intros Hi HA HB Ex Ey.
  rewrite <- site_op_mul by assumption.
  apply qeq_qmul; try assumption.
  destruct Ex as (_ & -> & _). destruct Ey as (_ & -> & _).
  now rewrite !site_op_shape.
Qed.

Lemma mmul_ext_l (n : nat) (A A' B : Matrix) :
  (forall i j, A i j = A' i j) ->
  forall i j, mmul n A B i j = mmul n A' B i j.
Proof.
  intros E i j. unfold mmul. apply csum_ext. intros k _. now rewrite E.
Qed.

Lemma mmul_mscale_l (n : nat) (c : C) (A B : Matrix) (i j : nat) :
  mmul n (mscale c A) B i j = mscale c (mmul n A B) i j.
Proof.
  unfold mmul, mscale. rewrite <- csum_mul_l.
  apply csum_ext. intros k _. ring.
Qed.

(** The coefficient of a product of four operators comes out in front. *)
Lemma quartic_scalar (c : C) (x y z w : Qobj) :
  qeq (qmul (qmul (qmul (qscale c x) y) z) w)
      (qscale c (qmul (qmul (qmul x y) z) w)).
Proof.
  repeat split. cbn. intros i j _ _.
  rewrite (mmul_ext_l _ _ (mscale c (mmul (shape x) (mmul (shape x) (data x) (data y)) (data z)))).
  - apply mmul_mscale_l.
  - intros i' j'.
    rewrite (mmul_ext_l _ _ (mscale c (mmul (shape x) (data x) (data y)))).
    + apply mmul_mscale_l.
    + intros i'' j''. apply mmul_mscale_l.
Qed.

Lemma BoseHubbard_int_local (d m : nat) (U : C) (i : nat) :
  (i < m)%nat ->
  let b := destroy_op d in
  qeq (BoseHubbard_int_op d m U i)
      (qscale (chalf * U)
              (site_op d m i (qmul (qmul (qmul (qdag b) (qdag b)) b) b))).
Proof.
  intros Hi b. unfold BoseHubbard_int_op.
  assert (Hl : local d b) by (split; reflexivity).
  rewrite quartic_scalar. apply qeq_qscale.
  repeat (apply site_op_mul_qeq; try assumption;
          try (repeat apply local_qmul; now apply local_qdag)).
  - apply site_op_dag.
  - apply site_op_dag.
  - reflexivity.
  - reflexivity.
Qed.

Lemma diagonal_BoseHubbard_int_op (d m : nat) (U : C) (i : nat) :
  (i < m)%nat -> diagonal (BoseHubbard_int_op d m U i).
Proof.
  intros Hi.
  apply (diagonal_qeq _ _ (symmetry (BoseHubbard_int_local d m U i Hi))).
  apply diagonal_qscale, diagonal_embed_op, band_diagonal.
  change 0%Z with (- (1) + - (1) + 1 + 1)%Z.
  repeat (apply band_qmul; [reflexivity| |]);
    try apply band_qdag; apply band_destroy_op.
Qed.

(** Without hopping the Hamiltonian is diagonal in the occupation basis. *)
Lemma BoseHubbard_op_diag (d m : nat) (U : C) :
  (1 <= m)%nat ->
  exists h, BoseHubbard_op d m c0 U = PObj h /\ diag_over (repeat d m) h.
Proof.
  intros Hm. apply BoseHubbard_op_inv; try assumption.
  - intros a b (Hd & Hs & Hh) (Hd' & Hs' & Hh'). repeat split; try assumption.
    apply diagonal_qadd; [congruence|assumption|assumption].
  - intros i Hi. split; [now apply BoseHubbard_hop_op_dims|]. split.
    + cbn. apply site_op_shape; [lia|split; reflexivity].
    + apply diagonal_qscale_zero.
  - intros i Hi. split; [now apply BoseHubbard_int_op_dims|]. split.
    + cbn. apply site_op_shape; [lia|split; reflexivity].
    + now apply diagonal_BoseHubbard_int_op.
Qed.
End DiagonalTheory.

(** ** Refinement of the chain coupling, shapes, embeddings, serialization *)

Section FurtherTheory.

Context {Sc : Scalar}.
Local Open Scope C_scope.
Local Open Scope string_scope.

Add Ring C_ring_fin : C_ring.

Lemma site_coupling_joint (m n : nat) (J : C) (A : Qobj) :
  (n + 1 < m)%nat -> local 2 A ->
  qeq (qmul (qscale J (site_op 2 m n A)) (site_op 2 m (n + 1) A))
      (qscale J (embed2_op (repeat 2%nat m) n A (n + 1) A)).
Proof.
  intros Hn HA. rewrite qmul_qscale_l. apply qeq_qscale.
  apply embed_op_mul; [lia| |]; apply local_at_site; (lia || assumption).
Qed.

Lemma Heisenberg_term_refines (m : nat) (Jx Jy Jz : C) (n : nat) :
  (n + 1 < m)%nat ->
  qeq (Heisenberg_term_op m Jx Jy Jz n) (Heisenberg_coupling_spec m Jx Jy Jz n).
Proof.
  intros Hn. unfold Heisenberg_term_op, Heisenberg_coupling_spec.
  assert (Hs : forall k A, (k < m)%nat -> local 2 A ->
               shape (site_op 2 m k A) = total_dimension (repeat 2%nat m))
    by (intros; now apply site_op_shape).
  apply qeq_qadd; [| apply qeq_qadd |].
  - cbn [shape qadd qmul qscale].
    rewrite !Hs by (lia || split; reflexivity). reflexivity.
  - cbn [shape qadd qmul qscale].
    rewrite !Hs by (lia || split; reflexivity). reflexivity.
  - apply site_coupling_joint; [assumption|split; reflexivity].
  - apply site_coupling_joint; [assumption|split; reflexivity].
  - apply site_coupling_joint; [assumption|split; reflexivity].
Qed.

Lemma total_dimension_app (l1 l2 : list nat) :
  total_dimension (l1 ++ l2) = (total_dimension l1 * total_dimension l2)%nat.
Proof.
  unfold total_dimension.
  induction l1 as [|d l1 IH]; cbn [app fold_right].
  - symmetry. apply Nat.mul_1_l.
  - rewrite IH. apply Nat.mul_assoc.
Qed.

Lemma well_shaped_kron (a b : Qobj) :
  well_shaped a -> well_shaped b -> well_shaped (kron a b).
Proof.
  unfold well_shaped. intros Ha Hb. cbn.
  now rewrite total_dimension_app, Ha, Hb.
Qed.

Lemma well_shaped_fold_kron (l : list Qobj) (q : Qobj) :
  well_shaped q -> Forall well_shaped l -> well_shaped (fold_left kron l q).
Proof.
  intros Hq HF. revert q Hq.
  induction HF as [|a l Ha HF IH]; intros q Hq; cbn; [assumption|].
  apply IH. now apply well_shaped_kron.
Qed.

Lemma well_shaped_tensor (qs : list Qobj) (q : Qobj) :
  tensor qs = Ok q -> Forall well_shaped qs -> well_shaped q.
Proof.
  intros E HF. destruct HF as [|a l Ha HF]; [discriminate|].
  cbn in E. injection E as <-. now apply well_shaped_fold_kron.
Qed.

Lemma embed_single_ok (ds : list nat) (i : nat) (A : Qobj) :
  (i < List.length ds)%nat -> embed_single ds i A = Ok (embed_op ds i A).
Proof.
  intros Hi. unfold embed_single.
  rewrite list_set_ok by now rewrite length_map. cbn [bind].
  apply tensor_ok. intros E. apply upd_nil_iff in E.
  destruct ds; [cbn in Hi; lia|discriminate].
Qed.

Lemma embed_joint_ok (ds : list nat) (i j : nat) (A B : Qobj) :
  (i < List.length ds)%nat -> (j < List.length ds)%nat ->
  embed_joint ds i A j B = Ok (embed2_op ds i A j B).
Proof.
  intros Hi Hj. unfold embed_joint.
  rewrite list_set_ok by now rewrite length_map. cbn [bind].
  rewrite list_set_ok by now rewrite upd_length, length_map. cbn [bind].
  apply tensor_ok. intros E. apply upd_nil_iff in E. apply upd_nil_iff in E.
  destruct ds; [cbn in Hi; lia|discriminate].
Qed.

Lemma py_mul_embed (ds : list nat) (i j : nat) (A B : Qobj) :
  local (nth i ds 0%nat) A -> local (nth j ds 0%nat) B ->
  py_mul (PObj (embed_op ds i A)) (PObj (embed_op ds j B)) =
  Ok (PObj (qmul (embed_op ds i A) (embed_op ds j B))).
Proof.
  intros HA HB. cbn. now rewrite !embed_op_dims, dims_eqb_refl.
Qed.

Lemma range_nonpos (N : Z) : (N <= 0)%Z -> range N = [].
Proof. intros HN. unfold range. now replace (Z.to_nat N) with 0%nat by lia. Qed.

Lemma BoseHubbard_build_empty (N_sites N_levels : Z) (t U : number)
      (self : HamiltonianBase) :
  (N_sites <= 0)%Z ->
  fst (BoseHubbard_build N_sites N_levels t U self) = Ok (PInt 0).
Proof.
  intros HN. unfold BoseHubbard_build.
  rewrite !range_nonpos by lia. reflexivity.
Qed.

Lemma BoseHubbard_op_single (d : nat) (t U : C) :
  BoseHubbard_op d 1 t U = PObj (BoseHubbard_int_op d 1 U 0).
Proof. reflexivity. Qed.

Lemma Heisenberg_op_short (m : nat) (Jx Jy Jz : C) :
  (m <= 1)%nat -> Heisenberg_op m Jx Jy Jz = PInt 0.
Proof. intros Hm. destruct m as [|[|m]]; try lia; reflexivity. Qed.

Lemma json_params_ok (ps : list (string * pyval)) :
  Forall (fun kv => serializable (snd kv)) ps ->
  exists js, mapM (fun kv => j <- json_of_pyval (snd kv) ;; Ok (fst kv, j)) ps = Ok js
             /\ json_image ps js.
Proof.
  induction 1 as [|kv ps [j Hj] HF (js & IH & Hk)]; cbn.
  - exists []. split; [reflexivity|constructor].
  - rewrite Hj. cbn. rewrite IH. cbn. eexists. split; [reflexivity|].
    constructor; [split; [reflexivity|exact Hj]|exact Hk].
Qed.

Lemma to_json_before_build (self : HamiltonianBase) :
  H self = PNone ->
  Forall (fun kv => serializable (snd kv)) (params self) ->
  exists js,
    to_json self = Ok (JObj [("model_name", JStr (name self));
                             ("parameters", JObj js);
                             ("matrix_shape", JNull);
                             ("is_hermitian", JNull)])
    /\ json_image (params self) js.
Proof.
  intros HH HF. destruct (json_params_ok _ HF) as (js & E & Hk).
  exists js. split; [|assumption].
  unfold to_json. rewrite HH. cbn [truthy bind]. now rewrite E.
Qed.
End FurtherTheory.

(** ** The result of a builder does not depend on the state of the object *)

Ltac split_results :=
  repeat match goal with
         | |- context [match ?x with Ok _ => _ | Raise _ => _ end] => destruct x
         | |- context [let '(_, _) := ?x in _] => destruct x
         end.

Section StateTheory.

Context {Sc : Scalar}.
Local Open Scope C_scope.
Local Open Scope string_scope.

Lemma JaynesCummings_build_indep (N : Z) (wc wa g : number) (s1 s2 : HamiltonianBase) :
  fst (JaynesCummings_build N wc wa g s1) = fst (JaynesCummings_build N wc wa g s2).
Proof.
  unfold JaynesCummings_build, mbind, set_params, lift, set_H, mret.
  split_results; reflexivity.
Qed.

Lemma RabiModel_build_indep (N : Z) (wc wa g : number) (s1 s2 : HamiltonianBase) :
  fst (RabiModel_build N wc wa g s1) = fst (RabiModel_build N wc wa g s2).
Proof.
  unfold RabiModel_build, mbind, set_params, lift, set_H, mret.
  split_results; reflexivity.
Qed.

Lemma TavisCummings_build_indep (Na Nc : Z) (wc wa g : number) (s1 s2 : HamiltonianBase) :
  fst (TavisCummings_build Na Nc wc wa g s1) = fst (TavisCummings_build Na Nc wc wa g s2).
Proof.
  unfold TavisCummings_build, mbind, set_params, lift, set_H, mret.
  split_results; reflexivity.
Qed.

Lemma DickeModel_build_indep (Na Nc : Z) (wc wa g : number) (s1 s2 : HamiltonianBase) :
  fst (DickeModel_build Na Nc wc wa g s1) = fst (DickeModel_build Na Nc wc wa g s2).
Proof.
  unfold DickeModel_build, mbind, set_params, lift, set_H, mret.
  split_results; reflexivity.
Qed.

Lemma BoseHubbard_build_indep (Ns Nl : Z) (t U : number) (s1 s2 : HamiltonianBase) :
  fst (BoseHubbard_build Ns Nl t U s1) = fst (BoseHubbard_build Ns Nl t U s2).
Proof.
  unfold BoseHubbard_build, mbind, set_params, lift, set_H, mret.
  split_results; reflexivity.
Qed.

Lemma forM__cons {X : Type} (x : X) (l : list X) (body : X -> M unit)
      (s : HamiltonianBase) :
  forM_ (x :: l) body s =
  match body x s with
  | (Ok _, s') => forM_ l body s'
  | (Raise e, s') => (Raise e, s')
  end.
Proof. reflexivity. Qed.

(** One turn of the loop [self.H += term]. *)
Lemma accumulate_step (term : res pyval) (s : HamiltonianBase) :
  (h <<- get_H ;; t <<- lift term ;; h' <<- lift (py_add h t) ;; set_H h') s =
  match term with
  | Raise e => (Raise e, s)
  | Ok t => match py_add (H s) t with
            | Raise e => (Raise e, s)
            | Ok h' => (Ok tt, mkBase (name s) (params s) h')
            end
  end.
Proof.
  unfold mbind, get_H, lift, set_H.
  destruct term as [t|e]; [|reflexivity].
  destruct (py_add (H s) t); reflexivity.
Qed.

(** The loop over [self.H] reads nothing of [self] but [self.H]. *)
Lemma accumulate_indep (term : nat -> res pyval) (l : list nat)
      (s1 s2 : HamiltonianBase) :
  H s1 = H s2 ->
  let loop := forM_ l (fun n =>
                h <<- get_H ;; t <<- lift (term n) ;;
                h' <<- lift (py_add h t) ;; set_H h') in
  fst (loop s1) = fst (loop s2) /\ H (snd (loop s1)) = H (snd (loop s2)).
Proof.
  intros HH loop. subst loop. revert s1 s2 HH.
  induction l as [|n l IH]; intros s1 s2 HH.
  - split; [reflexivity|exact HH].
  - rewrite !forM__cons, !accumulate_step, HH.
    destruct (term n) as [t|e]; [|split; [reflexivity|exact HH]].
    destruct (py_add (H s2) t) as [h'|e]; [|split; [reflexivity|exact HH]].
    apply IH. reflexivity.
Qed.

Lemma HeisenbergSpinChain_build_indep (N : Z) (Jx Jy Jz : number)
      (s1 s2 : HamiltonianBase) :
  fst (HeisenbergSpinChain_build N Jx Jy Jz s1) =
  fst (HeisenbergSpinChain_build N Jx Jy Jz s2).
Proof.
  unfold HeisenbergSpinChain_build.
  set (ps := [("N_spins", PInt N); ("Jx", PNum Jx); ("Jy", PNum Jy); ("Jz", PNum Jz)]).
  set (lists := si <- qeye 2;; foldM (Heisenberg_step N si) (range N) ([], [], [])).
  assert (E : forall s,
    (set_params ps ;;;
     ' (sx_list, sy_list, sz_list) <<- lift lists ;;
     set_H (PInt 0) ;;;
     forM_ (range (N - 1)) (fun n =>
       h <<- get_H ;;
       t <<- lift (Heisenberg_term Jx Jy Jz sx_list sy_list sz_list n) ;;
       h' <<- lift (py_add h t) ;;
       set_H h') ;;;
     get_H) s =
    match lists with
    | Raise e => (Raise e, mkBase (name s) ps (H s))
    | Ok (lx, ly, lz) =>
        let r := forM_ (range (N - 1)) (fun n =>
                   h <<- get_H ;;
                   t <<- lift (Heisenberg_term Jx Jy Jz lx ly lz n) ;;
                   h' <<- lift (py_add h t) ;;
                   set_H h') (mkBase (name s) ps (PInt 0)) in
        match fst r with
        | Ok _ => (Ok (H (snd r)), snd r)
        | Raise e => (Raise e, snd r)
        end
    end).
  { intros s. unfold mbind at 1. unfold set_params at 1.
    unfold mbind at 1. unfold lift at 1.
    destruct lists as [[[lx ly] lz]|e]; [|reflexivity].
    unfold mbind at 1. unfold set_H at 1. cbn [name params H].
    unfold mbind at 1. cbv zeta.
    destruct (forM_ _ _ _) as [[u|e] s']; reflexivity. }
  rewrite !E. destruct lists as [[[lx ly] lz]|e]; [|reflexivity].
  cbv zeta.
  destruct (accumulate_indep (Heisenberg_term Jx Jy Jz lx ly lz) (range (N - 1))
              (mkBase (name s1) ps (PInt 0)) (mkBase (name s2) ps (PInt 0)) eq_refl)
    as [E1 E2].
  cbv zeta in E1, E2.
  set (r1 := forM_ _ _ (mkBase (name s1) ps (PInt 0))) in *.
  set (r2 := forM_ _ _ (mkBase (name s2) ps (PInt 0))) in *.
  rewrite E1. destruct (fst r2); cbn [fst]; [now rewrite E2|reflexivity].
Qed.
End StateTheory.

(** ** What each builder returns *)

Section ReturnTheory.

Context {Sc : Scalar}.
Local Open Scope C_scope.
Local Open Scope string_scope.

Add Ring C_ring_ret : C_ring.

Lemma plain_over_qadd (ds : list nat) (a b : Qobj) :
  plain_over ds a -> plain_over ds b -> plain_over ds (qadd a b).
Proof. intros Ha _. exact Ha. Qed.

Lemma fst_eq {X Y : Type} (p : X * Y) (x : X) (y : Y) : p = (x, y) -> fst p = x.
Proof. now intros ->. Qed.

Lemma JaynesCummings_returns (N : Z) (wc wa g : number) (self : HamiltonianBase) :
  (2 <= N)%Z ->
  exists h, fst (JaynesCummings_build N wc wa g self) = Ok (PObj h) /\
            plain_over [Z.to_nat N; 2%nat] h /\
            (is_real wc -> is_real wa -> is_real g -> hermitian h).
Proof.
  intros HN. eexists. split; [|split].
  - eapply fst_eq. now apply JaynesCummings_build_ok.
  - split; cbn; [reflexivity|lia].
  - apply hermitian_JaynesCummings_op.
Qed.

Lemma RabiModel_returns (N : Z) (wc wa g : number) (self : HamiltonianBase) :
  (2 <= N)%Z ->
  exists h, fst (RabiModel_build N wc wa g self) = Ok (PObj h) /\
            plain_over [Z.to_nat N; 2%nat] h /\
            (is_real wc -> is_real wa -> is_real g -> hermitian h).
Proof.
  intros HN. eexists. split; [|split].
  - eapply fst_eq. now apply RabiModel_build_ok.
  - split; cbn; [reflexivity|lia].
  - apply hermitian_RabiModel_op.
Qed.

Lemma DickeModel_returns (N_atoms N_cavity : Z) (wc wa g : number)
      (self : HamiltonianBase) :
  (1 <= N_atoms)%Z -> (2 <= N_cavity)%Z ->
  exists h, fst (DickeModel_build N_atoms N_cavity wc wa g self) = Ok (PObj h) /\
            plain_over [Z.to_nat N_cavity; (Z.to_nat N_atoms + 1)%nat] h /\
            (is_real wc -> is_real wa -> is_real g -> hermitian h).
Proof.
  intros Ha Hc. eexists. split; [|split].
  - eapply fst_eq. now apply DickeModel_build_ok.
  - split; cbn; [reflexivity|lia].
  - apply hermitian_DickeModel_op.
Qed.

Lemma TavisCummings_returns (N_atoms N_cavity : Z) (wc wa g : number)
      (self : HamiltonianBase) :
  (1 <= N_atoms)%Z -> (2 <= N_cavity)%Z ->
  exists h, fst (TavisCummings_build N_atoms N_cavity wc wa g self) = Ok (PObj h) /\
            plain_over (TavisCummings_space (Z.to_nat N_atoms) (Z.to_nat N_cavity)) h /\
            (is_real wc -> is_real wa -> is_real g -> hermitian h).
Proof.
  intros Ha Hc.
  rewrite (fst_eq _ _ _ (TavisCummings_build_ok N_atoms N_cavity wc wa g self Ha Hc)).
  set (na := Z.to_nat N_atoms). set (nc := Z.to_nat N_cavity).
  assert (Hna : (1 <= na)%nat) by lia.
  destruct (acc_sum_dims (TavisCummings_space na nc)
              (map (fun i => atom_op na nc i sigmaz) (seq 0 na)))
    as (sz & Esz & Hsz).
  { apply Forall_map_seq. intros i Hi. apply atom_op_dims; [lia|split; reflexivity]. }
  { destruct na; [lia|discriminate]. }
  destruct (acc_sum_dims (TavisCummings_space na nc)
              (map (fun i => atom_op na nc i (destroy_op 2)) (seq 0 na)))
    as (sm & Esm & Hsm).
  { apply Forall_map_seq. intros i Hi. apply atom_op_dims; [lia|split; reflexivity]. }
  { destruct na; [lia|discriminate]. }
  pose proof (TavisCummings_op_herm na nc wc wa g Hna) as Hh.
  unfold TavisCummings_op in *. rewrite Esz, Esm in *.
  eexists. split; [reflexivity|]. split.
  - split; cbn [dims shape qadd qmul qscale qdag].
    + apply field_op_dims.
    + apply embed_op_shape. split; reflexivity.
  - intros Hwc Hwa Hg. destruct (Hh Hwc Hwa Hg) as (h & Eh & Hherm).
    injection Eh as <-. exact Hherm.
Qed.

Lemma Heisenberg_returns (N : Z) (Jx Jy Jz : number) (self : HamiltonianBase) :
  (2 <= N)%Z ->
  exists h, fst (HeisenbergSpinChain_build N Jx Jy Jz self) = Ok (PObj h) /\
            plain_over (repeat 2%nat (Z.to_nat N)) h /\
            (is_real Jx -> is_real Jy -> is_real Jz -> hermitian h).
Proof.
  intros HN.
  rewrite (fst_eq _ _ _ (HeisenbergSpinChain_build_ok N Jx Jy Jz self)).
  set (m := Z.to_nat N). assert (Hm : (2 <= m)%nat) by lia.
  destruct (acc_sum_inv (plain_over (repeat 2%nat m))
              (map (Heisenberg_term_op m Jx Jy Jz) (seq 0 (m - 1))))
    as (h & Eh & Hp).
  { apply plain_over_qadd. }
  { apply Forall_map_seq. intros i Hi. split.
    - apply Heisenberg_term_op_dims. lia.
    - cbn. apply site_op_shape; [lia|split; reflexivity]. }
  { destruct m as [|[|m]]; try lia. discriminate. }
  exists h. unfold Heisenberg_op. split; [now rewrite Eh|]. split; [exact Hp|].
  intros Hx Hy Hz.
  destruct (Heisenberg_op_herm m Jx Jy Jz Hm Hx Hy Hz) as (h' & Eh' & _ & _ & Hh).
  unfold Heisenberg_op in Eh'. rewrite Eh in Eh'. injection Eh' as <-. exact Hh.
Qed.

Lemma BoseHubbard_returns (N_sites N_levels : Z) (t U : number)
      (self : HamiltonianBase) :
  (1 <= N_sites)%Z -> (2 <= N_levels)%Z ->
  exists h, fst (BoseHubbard_build N_sites N_levels t U self) = Ok (PObj h) /\
            plain_over (repeat (Z.to_nat N_levels) (Z.to_nat N_sites)) h /\
            (is_real t -> is_real U -> hermitian h).
Proof.
  intros Hs Hl.
  rewrite (fst_eq _ _ _ (BoseHubbard_build_ok N_sites N_levels t U self Hl)).
  set (m := Z.to_nat N_sites). set (d := Z.to_nat N_levels).
  assert (Hm : (1 <= m)%nat) by lia.
  destruct (BoseHubbard_op_inv (plain_over (repeat d m)) d m t U Hm)
    as (h & Eh & Hp).
  { apply plain_over_qadd. }
  { intros i Hi. split; [now apply BoseHubbard_hop_op_dims|].
    cbn. apply site_op_shape; [lia|split; reflexivity]. }
  { intros i Hi. split; [now apply BoseHubbard_int_op_dims|].
    cbn. apply site_op_shape; [lia|split; reflexivity]. }
  exists h. split; [now rewrite Eh|]. split; [exact Hp|].
  intros Ht HU.
  destruct (BoseHubbard_op_herm d m t U Hm Ht HU) as (h' & Eh' & _ & _ & Hh).
  rewrite Eh in Eh'. injection Eh' as <-. exact Hh.
Qed.

(** With one atom the Tavis-Cummings operators are those of the
    Jaynes-Cummings builder. *)
Lemma TavisCummings_op_single (n : nat) (wc wa g : C) :
  let a := kron (destroy_op n) (eye 2) in
  let sm := kron (eye n) (destroy_op 2) in
  TavisCummings_op 1 n wc wa g =
  PObj (qadd (qadd (qmul (qscale wc (qdag a)) a)
                   (qscale (chalf * wa) (kron (eye n) sigmaz)))
             (qscale g (qadd (qmul (qdag a) sm) (qmul a (qdag sm))))).
Proof. reflexivity. Qed.

End ReturnTheory.

(** ** The coupling entries of the Jaynes-Cummings operator *)

Section CouplingTheory.

Context {Sc : Scalar}.
Local Open Scope C_scope.

Add Ring C_ring_jc : C_ring.

Lemma band_qscale (k : Z) (c : C) (a : Qobj) : band k a -> band k (qscale c a).
Proof.
  intros Ha i j Hi Hj Hne. cbn in *. unfold mscale.
  rewrite Ha by assumption. ring.
Qed.

Lemma split_index (i : nat) :
  i = (2 * (i / 2) + i mod 2)%nat /\ (i mod 2 < 2)%nat.
Proof.
  split; [apply Nat.div_mod_eq|apply Nat.mod_upper_bound; lia].
Qed.

(** The field operator moves two columns to the right of the diagonal,
    the atomic lowering operator one. *)
Lemma band_field (n : nat) : band 2 (kron (destroy_op n) (eye 2)).
Proof.
  intros i j _ _ Hne. cbn. unfold mkron, lowering, meye.
  destruct (split_index i) as [Ei Bi]. destruct (split_index j) as [Ej Bj].
  destruct (Nat.eqb_spec (j / 2) (i / 2 + 1)) as [E1|N1]; cbn [andb]; [|ring].
  destruct (Nat.eqb_spec (i mod 2) (j mod 2)) as [E2|N2]; cbn [andb]; [|ring].
  exfalso. lia.
Qed.

Lemma band_atom (n : nat) : band 1 (kron (eye n) (destroy_op 2)).
Proof.
  intros i j _ _ Hne. cbn. unfold mkron, lowering, meye.
  destruct (split_index i) as [Ei Bi]. destruct (split_index j) as [Ej Bj].
  destruct (Nat.eqb_spec (i / 2) (j / 2)) as [E1|N1]; cbn [andb]; [|ring].
  destruct (Nat.eqb_spec (j mod 2) (i mod 2 + 1)) as [E2|N2]; cbn [andb];
    [|destruct (_ <? _)%nat; ring].
  exfalso. lia.
Qed.

(** The two entries of the Jaynes-Cummings operator that couple the
    states (no photon, atom in state 1) and (one photon, atom in state
    0): both are the coupling [g]. *)
Lemma JaynesCummings_op_coupling (n : nat) (wc wa g : C) :
  (2 <= n)%nat ->
  data (JaynesCummings_op n wc wa g) 1 2 = g /\
  data (JaynesCummings_op n wc wa g) 2 1 = g.
Proof.
  intros Hn. unfold JaynesCummings_op.
  set (a := kron (destroy_op n) (eye 2)).
  set (sm := kron (eye n) (destroy_op 2)).
  assert (Hsa : shape a = (n * 2)%nat) by reflexivity.
  assert (Hss : shape sm = (n * 2)%nat) by reflexivity.
  assert (Ba : band 2 a) by apply band_field.
  assert (Bs : band 1 sm) by apply band_atom.
  assert (B1 : band 0 (qmul (qscale wc (qdag a)) a)).
  { change 0%Z with (- (2) + 2)%Z. apply band_qmul; [reflexivity| |exact Ba].
    apply band_qscale, band_qdag, Ba. }
  assert (B2 : band 0 (qmul (qscale wa (qdag sm)) sm)).
  { change 0%Z with (- (1) + 1)%Z. apply band_qmul; [reflexivity| |exact Bs].
    apply band_qscale, band_qdag, Bs. }
  assert (BX : band (-1) (qmul (qdag a) sm)).
  { change (-1)%Z with (- (2) + 1)%Z. apply band_qmul; [reflexivity| |exact Bs].
    apply band_qdag, Ba. }
  assert (BY : band 1 (qmul a (qdag sm))).
  { change 1%Z with (2 + - (1))%Z. apply band_qmul; [reflexivity|exact Ba|].
    apply band_qdag, Bs. }
  assert (EY : data (qmul a (qdag sm)) 1 2 = c1).
  { cbn [data qmul qdag]. unfold mmul. rewrite Hsa.
    rewrite (csum_single (n * 2) 3) by
      (try lia; intros k Hk Hne; rewrite (Ba 1%nat k) by (rewrite ?Hsa; lia); ring).
    unfold a, sm, mdag. cbn. unfold mkron, lowering, meye. cbn.
    destruct n as [|[|n']]; [lia|lia|].
    rewrite sqrtn_1, conj_mul, !conj_1. ring. }
  assert (EX : data (qmul (qdag a) sm) 2 1 = c1).
  { cbn [data qmul qdag shape]. unfold mmul. rewrite Hsa.
    rewrite (csum_single (n * 2) 0) by
      (try lia; intros k Hk Hne; unfold mdag;
       rewrite (Ba k 2%nat) by (rewrite ?Hsa; lia); rewrite conj_0; ring).
    unfold a, sm, mdag. cbn. unfold mkron, lowering, meye. cbn.
    destruct n as [|[|n']]; [lia|lia|].
    rewrite sqrtn_1, conj_mul, !conj_1. ring. }
  split.
  - cbn [data qadd qscale]. unfold madd, mscale.
    rewrite (B1 1%nat 2%nat), (B2 1%nat 2%nat), (BX 1%nat 2%nat), EY
      by (cbn [shape qmul qscale qdag]; rewrite ?Hsa, ?Hss; lia).
    ring.
  - cbn [data qadd qscale]. unfold madd, mscale.
    rewrite (B1 2%nat 1%nat), (B2 2%nat 1%nat), (BY 2%nat 1%nat), EX
      by (cbn [shape qmul qscale qdag]; rewrite ?Hsa, ?Hss; lia).
    ring.
Qed.

(** [isherm] compares these two entries: it is false when [g] and its
    conjugate are further apart than the tolerance. *)
Lemma JaynesCummings_op_isherm_false (n : nat) (wc wa g : C) :
  (2 <= n)%nat -> within_atol g (conj g) = false ->
  isherm (JaynesCummings_op n wc wa g) = false.
Proof.
  intros Hn Hg. destruct (JaynesCummings_op_coupling n wc wa g Hn) as [E12 E21].
  apply (isherm_false_at _ 1 2).
  - change (shape (JaynesCummings_op n wc wa g)) with (n * 2)%nat. lia.
  - change (shape (JaynesCummings_op n wc wa g)) with (n * 2)%nat. lia.
  - now rewrite E12, E21.
Qed.

End CouplingTheory.

(** ** The state of the object, errors and serialization *)

Section ObjectTheory.

Context {Sc : Scalar}.
Local Open Scope C_scope.
Local Open Scope string_scope.

Add Ring C_ring_more : C_ring.

Lemma total_dimension_repeat (d m : nat) :
  total_dimension (repeat d m) = (d ^ m)%nat.
Proof.
  induction m as [|m IH]; cbn; [reflexivity|].
  unfold total_dimension in IH. now rewrite IH.
Qed.

Lemma total_dimension_pair (a b : nat) : total_dimension [a; b] = (a * b)%nat.
Proof. cbn. lia. Qed.

Lemma total_dimension_TavisCummings_space (na nc : nat) :
  total_dimension (TavisCummings_space na nc) = (nc * 2 ^ na)%nat.
Proof.
  unfold TavisCummings_space.
  change (total_dimension (nc :: repeat 2%nat na))
    with (nc * total_dimension (repeat 2%nat na))%nat.
  now rewrite total_dimension_repeat.
Qed.

(** *** The state a builder leaves behind *)

Lemma JaynesCummings_build_state (N : Z) (wc wa g : number) (self : HamiltonianBase) :
  let r := JaynesCummings_build N wc wa g self in
  name (snd r) = name self /\
  params (snd r) = [("N", PInt N); ("wc", PNum wc); ("wa", PNum wa); ("g", PNum g)] /\
  H (snd r) = H_after (fst r) self.
Proof.
  unfold JaynesCummings_build, mbind, set_params, lift, set_H, mret.
  split_results; cbn; auto.
Qed.

Lemma RabiModel_build_state (N : Z) (wc wa g : number) (self : HamiltonianBase) :
  let r := RabiModel_build N wc wa g self in
  name (snd r) = name self /\
  params (snd r) = [("N", PInt N); ("wc", PNum wc); ("wa", PNum wa); ("g", PNum g)] /\
  H (snd r) = H_after (fst r) self.
Proof.
  unfold RabiModel_build, mbind, set_params, lift, set_H, mret.
  split_results; cbn; auto.
Qed.

Lemma TavisCummings_build_state (N_atoms N_cavity : Z) (wc wa g : number)
      (self : HamiltonianBase) :
  let r := TavisCummings_build N_atoms N_cavity wc wa g self in
  name (snd r) = name self /\
  params (snd r) = [("N_atoms", PInt N_atoms); ("N_cavity", PInt N_cavity);
                    ("wc", PNum wc); ("wa", PNum wa); ("g", PNum g)] /\
  H (snd r) = H_after (fst r) self.
Proof.
  unfold TavisCummings_build, mbind, set_params, lift, set_H, mret.
  split_results; cbn; auto.
Qed.

Lemma DickeModel_build_state (N_atoms N_cavity : Z) (wc wa g : number)
      (self : HamiltonianBase) :
  let r := DickeModel_build N_atoms N_cavity wc wa g self in
  name (snd r) = name self /\
  params (snd r) = [("N_atoms", PInt N_atoms); ("N_cavity", PInt N_cavity);
                    ("wc", PNum wc); ("wa", PNum wa); ("g", PNum g)] /\
  H (snd r) = H_after (fst r) self.
Proof.
  unfold DickeModel_build, mbind, set_params, lift, set_H, mret.
  split_results; cbn; auto.
Qed.

Lemma HeisenbergSpinChain_build_state (N_spins : Z) (Jx Jy Jz : number)
      (self : HamiltonianBase) :
  let r := HeisenbergSpinChain_build N_spins Jx Jy Jz self in
  name (snd r) = name self /\
  params (snd r) = [("N_spins", PInt N_spins); ("Jx", PNum Jx); ("Jy", PNum Jy);
                    ("Jz", PNum Jz)] /\
  H (snd r) = H_after (fst r) self.
Proof. rewrite HeisenbergSpinChain_build_ok. cbn. auto. Qed.

Lemma BoseHubbard_build_state (N_sites N_levels : Z) (t U : number)
      (self : HamiltonianBase) :
  let r := BoseHubbard_build N_sites N_levels t U self in
  name (snd r) = name self /\
  params (snd r) = [("N_sites", PInt N_sites); ("N_levels", PInt N_levels);
                    ("t", PNum t); ("U", PNum U)] /\
  H (snd r) = H_after (fst r) self.
Proof.
  unfold BoseHubbard_build, mbind, set_params, lift, set_H, mret.
  split_results; cbn; auto.
Qed.

(** *** Builders on degenerate arguments *)

Lemma TavisCummings_build_no_atoms (N_cavity : Z) (wc wa g : number)
      (self : HamiltonianBase) :
  (2 <= N_cavity)%Z ->
  TavisCummings_build 0 N_cavity wc wa g self =
  (Raise AttributeError,
   mkBase (name self)
          [("N_atoms", PInt 0); ("N_cavity", PInt N_cavity);
           ("wc", PNum wc); ("wa", PNum wa); ("g", PNum g)]
          (H self)).
Proof.
  intros Hc.
  unfold TavisCummings_build, mbind, set_params, lift, set_H, mret.
  rewrite (destroy_ok N_cavity) by assumption.
  change (qeye 2) with (Ok (eye 2)).
  change (qeye (2 ^ 0)) with (Ok (eye 1)).
  change (range 0) with (@nil nat). change (list_repeat (eye 2) 0) with (@nil Qobj).
  change (0 <? 0)%Z with false.
  py_eval. reflexivity.
Qed.

Lemma DickeModel_build_no_atoms (N_cavity : Z) (wc wa g : number)
      (self : HamiltonianBase) :
  (2 <= N_cavity)%Z ->
  DickeModel_build 0 N_cavity wc wa g self =
  (Raise ValueError,
   mkBase (name self)
          [("N_atoms", PInt 0); ("N_cavity", PInt N_cavity);
           ("wc", PNum wc); ("wa", PNum wa); ("g", PNum g)]
          (H self)).
Proof.
  intros Hc.
  unfold DickeModel_build, mbind, set_params, lift, set_H, mret.
  rewrite (destroy_ok N_cavity), (qeye_ok N_cavity) by lia.
  change (qeye (0 + 1)) with (Ok (eye 1)).
  change (jmat 0 AxisZ) with (Ok (jz 0)).
  change (jmat 0 AxisX) with (@Raise Qobj ValueError).
  py_eval. reflexivity.
Qed.

Lemma BoseHubbard_build_no_sites (N_sites N_levels : Z) (t U : number)
      (self : HamiltonianBase) :
  (N_sites <= 0)%Z ->
  BoseHubbard_build N_sites N_levels t U self =
  (Ok (PInt 0),
   mkBase (name self)
          [("N_sites", PInt N_sites); ("N_levels", PInt N_levels);
           ("t", PNum t); ("U", PNum U)]
          (PInt 0)).
Proof.
  intros HN. unfold BoseHubbard_build.
  rewrite !range_nonpos by lia. reflexivity.
Qed.

(** *** The values a builder returns *)

Lemma acc_sum_stored (qs : list Qobj) : stored_hamiltonian (acc_sum qs).
Proof.
  destruct (fold_acc_add_inv (fun _ => True) qs (PInt 0)) as [[_ E]|(h & E & _)].
  - auto.
  - apply Forall_forall. auto.
  - now left.
  - unfold acc_sum. rewrite E. right. now left.
  - unfold acc_sum. rewrite E. right. right. eauto.
Qed.

Lemma JaynesCummings_build_value (N : Z) (wc wa g : number) (self : HamiltonianBase)
      (v : pyval) :
  fst (JaynesCummings_build N wc wa g self) = Ok v -> exists q, v = PObj q.
Proof.
  destruct (Z.ltb_spec N 2) as [HN|HN].
  - unfold JaynesCummings_build, mbind, set_params, lift, set_H, mret, destroy.
    rewrite (proj2 (Z.ltb_lt N 2)) by assumption. cbn. discriminate.
  - rewrite JaynesCummings_build_ok by assumption. cbn.
    intros E. injection E as <-. eauto.
Qed.

Lemma RabiModel_build_value (N : Z) (wc wa g : number) (self : HamiltonianBase)
      (v : pyval) :
  fst (RabiModel_build N wc wa g self) = Ok v -> exists q, v = PObj q.
Proof.
  destruct (Z.ltb_spec N 2) as [HN|HN].
  - unfold RabiModel_build, mbind, set_params, lift, set_H, mret, destroy.
    rewrite (proj2 (Z.ltb_lt N 2)) by assumption. cbn. discriminate.
  - rewrite RabiModel_build_ok by assumption. cbn.
    intros E. injection E as <-. eauto.
Qed.

Lemma TavisCummings_build_value (N_atoms N_cavity : Z) (wc wa g : number)
      (self : HamiltonianBase) (v : pyval) :
  fst (TavisCummings_build N_atoms N_cavity wc wa g self) = Ok v ->
  exists q, v = PObj q.
Proof.
  destruct (Z.ltb_spec N_cavity 2) as [Hc|Hc].
  { unfold TavisCummings_build, mbind, set_params, lift, set_H, mret, destroy.
    rewrite (proj2 (Z.ltb_lt N_cavity 2)) by assumption. cbn. discriminate. }
  destruct (Z.ltb_spec N_atoms 0) as [Ha|Ha].
  { unfold TavisCummings_build, mbind, set_params, lift, set_H, mret.
    rewrite (destroy_ok N_cavity) by assumption.
    rewrite (proj2 (Z.ltb_lt N_atoms 0)) by assumption. cbn. discriminate. }
  destruct (Z.eq_dec N_atoms 0) as [->|Hne].
  { rewrite TavisCummings_build_no_atoms by assumption. cbn. discriminate. }
  destruct (TavisCummings_returns N_atoms N_cavity wc wa g self) as (h & E & _);
    try lia.
  rewrite E. intros E'. injection E' as <-. eauto.
Qed.

Lemma DickeModel_build_value (N_atoms N_cavity : Z) (wc wa g : number)
      (self : HamiltonianBase) (v : pyval) :
  fst (DickeModel_build N_atoms N_cavity wc wa g self) = Ok v ->
  exists q, v = PObj q.
Proof.
  destruct (Z.ltb_spec N_cavity 2) as [Hc|Hc].
  { unfold DickeModel_build, mbind, set_params, lift, set_H, mret, destroy.
    rewrite (proj2 (Z.ltb_lt N_cavity 2)) by assumption. cbn. discriminate. }
  destruct (Z.ltb_spec N_atoms 0) as [Ha|Ha].
  { unfold DickeModel_build, mbind, set_params, lift, set_H, mret.
    rewrite (destroy_ok N_cavity) by assumption. unfold qeye at 1.
    rewrite (proj2 (Z.ltb_lt (N_atoms + 1) 1)) by lia. cbn. discriminate. }
  destruct (Z.eq_dec N_atoms 0) as [->|Hne].
  { rewrite DickeModel_build_no_atoms by assumption. cbn. discriminate. }
  rewrite DickeModel_build_ok by lia. cbn.
  intros E. injection E as <-. eauto.
Qed.

Lemma HeisenbergSpinChain_build_value (N_spins : Z) (Jx Jy Jz : number)
      (self : HamiltonianBase) (v : pyval) :
  fst (HeisenbergSpinChain_build N_spins Jx Jy Jz self) = Ok v ->
  stored_hamiltonian v.
Proof.
  rewrite HeisenbergSpinChain_build_ok. cbn. intros E. injection E as <-.
  apply acc_sum_stored.
Qed.

Lemma BoseHubbard_build_value (N_sites N_levels : Z) (t U : number)
      (self : HamiltonianBase) (v : pyval) :
  fst (BoseHubbard_build N_sites N_levels t U self) = Ok v ->
  stored_hamiltonian v.
Proof.
  destruct (Z.leb_spec N_sites 0) as [Hs|Hs].
  { rewrite BoseHubbard_build_no_sites by assumption. cbn.
    intros E. injection E as <-. right. now left. }
  destruct (Z.ltb_spec N_levels 2) as [Hl|Hl].
  - unfold BoseHubbard_build, mbind, set_params, lift, set_H, mret, range.
    destruct (Z.to_nat N_sites) as [|k] eqn:Ek; [lia|].
    cbn [seq mapM]. unfold destroy at 1.
    rewrite (proj2 (Z.ltb_lt N_levels 2)) by assumption. cbn. discriminate.
  - rewrite BoseHubbard_build_ok by assumption. cbn. intros E. injection E as <-.
    destruct (BoseHubbard_op_inv (fun _ => True) (Z.to_nat N_levels)
                (Z.to_nat N_sites) t U) as (h & -> & _); auto; try lia.
    right. right. eauto.
Qed.

(** *** Serialization of the state *)

Lemma serializable_iff (v : pyval) : serializable v <-> ~ rejected v.
Proof.
  unfold serializable. destruct v as [|z|x|q]; cbn [json_of_pyval rejected].
  - split; [auto|eauto].
  - split; [auto|eauto].
  - destruct (is_complex x); split.
    + intros [j E]. discriminate E.
    + intros Hn. now contradiction Hn.
    + intros _. discriminate.
    + eauto.
  - split; [intros [j E]; discriminate E|intros Hn; now contradiction Hn].
Qed.

(** [json.dumps] of the parameters either returns or raises [TypeError]. *)
Lemma json_params_cases (ps : list (string * pyval)) :
  (exists js, mapM (fun kv => j <- json_of_pyval (snd kv) ;; Ok (fst kv, j)) ps = Ok js) \/
  mapM (fun kv => j <- json_of_pyval (snd kv) ;; Ok (fst kv, j)) ps = Raise TypeError.
Proof.
  induction ps as [|[k v] ps IH]; cbn [mapM fst snd]; [left; eauto|].
  destruct v as [|z|c|q]; cbn [json_of_pyval bind]; try (now right).
  - destruct IH as [[js ->]| ->]; cbn [bind]; [left; eauto|now right].
  - destruct IH as [[js ->]| ->]; cbn [bind]; [left; eauto|now right].
  - destruct (is_complex c); cbn [bind]; [now right|].
    destruct IH as [[js ->]| ->]; cbn [bind]; [left; eauto|now right].
Qed.

(** When it returns, the result holds the image of every value under its
    key, in the same order. *)
Lemma json_params_image (ps : list (string * pyval)) (js : list (string * json)) :
  mapM (fun kv => j <- json_of_pyval (snd kv) ;; Ok (fst kv, j)) ps = Ok js ->
  json_image ps js.
Proof.
  revert js. induction ps as [|[k v] ps IH]; intros js E; cbn [mapM fst snd] in E.
  - injection E as <-. constructor.
  - destruct (json_of_pyval v) as [j|e] eqn:Ev; [|discriminate]. cbn [bind] in E.
    destruct (mapM _ ps) as [js'|e]; [|discriminate]. cbn [bind] in E.
    injection E as <-. constructor; [split; [reflexivity|exact Ev]|now apply IH].
Qed.

Lemma json_image_serializable (ps : list (string * pyval)) (js : list (string * json)) :
  json_image ps js -> Forall (fun kv => serializable (snd kv)) ps.
Proof.
  induction 1 as [|kv kj ps js [_ E] _ IH]; constructor; [|exact IH].
  unfold serializable. eauto.
Qed.

Lemma json_params_serializable (ps : list (string * pyval)) (js : list (string * json)) :
  mapM (fun kv => j <- json_of_pyval (snd kv) ;; Ok (fst kv, j)) ps = Ok js ->
  Forall (fun kv => serializable (snd kv)) ps.
Proof. intros E. now apply (json_image_serializable ps js), json_params_image. Qed.

Lemma json_params_not_serializable (ps : list (string * pyval)) :
  ~ Forall (fun kv => serializable (snd kv)) ps ->
  mapM (fun kv => j <- json_of_pyval (snd kv) ;; Ok (fst kv, j)) ps = Raise TypeError.
Proof.
  intros Hn. destruct (json_params_cases ps) as [[js E]|E]; [|exact E].
  exfalso. apply Hn. now apply (json_params_serializable ps js).
Qed.

(** One rejected value is enough for [json.dumps] to raise. *)
Lemma json_params_rejected (ps : list (string * pyval)) :
  Exists (fun kv => rejected (snd kv)) ps <->
  mapM (fun kv => j <- json_of_pyval (snd kv) ;; Ok (fst kv, j)) ps = Raise TypeError.
Proof.
  split.
  - intros HE. apply json_params_not_serializable. intros HF.
    apply Exists_exists in HE. destruct HE as (kv & Hin & Hr).
    rewrite Forall_forall in HF. now apply (serializable_iff (snd kv)) in Hr; [|auto].
  - induction ps as [|[k v] ps IH]; cbn [mapM fst snd]; [discriminate|].
    destruct (json_of_pyval v) as [j|e] eqn:Ev; cbn [bind].
    + destruct (mapM _ ps) as [js|e]; cbn [bind]; [discriminate|].
      intros E. injection E as ->. right. now apply IH.
    + intros _. left. cbn [snd]. destruct v as [|z|x|q]; cbn in Ev |- *;
        try discriminate; [|exact I].
      now destruct (is_complex x).
Qed.

(** [to_json] on an object that holds an operator. *)
Lemma to_json_built (self : HamiltonianBase) (h : Qobj) (js : list (string * json)) :
  H self = PObj h ->
  mapM (fun kv => j <- json_of_pyval (snd kv) ;; Ok (fst kv, j)) (params self) = Ok js ->
  to_json self =
  Ok (json_record (name self) js
        (JStr (str_shape (shape h, shape h))) (JBool (isherm h))).
Proof.
  intros HH E. unfold to_json. rewrite HH, E. reflexivity.
Qed.

(** [to_json] on an object whose [self.H] is false in a condition. *)
Lemma to_json_unbuilt (self : HamiltonianBase) (js : list (string * json)) :
  H self = PNone \/ H self = PInt 0 ->
  mapM (fun kv => j <- json_of_pyval (snd kv) ;; Ok (fst kv, j)) (params self) = Ok js ->
  to_json self = Ok (json_record (name self) js JNull JNull).
Proof.
  intros [HH|HH] E; unfold to_json; rewrite HH, E; reflexivity.
Qed.

Lemma to_json_params_raise (self : HamiltonianBase) (e : error) :
  stored_hamiltonian (H self) ->
  mapM (fun kv => j <- json_of_pyval (snd kv) ;; Ok (fst kv, j)) (params self) = Raise e ->
  to_json self = Raise e.
Proof.
  intros [HH|[HH|(q & HH)]] E; unfold to_json; rewrite HH, E; reflexivity.
Qed.

(** [to_json] on an object that holds an operator: [is_hermitian] is what
    [isherm] answers. *)
Lemma to_json_after_build (self : HamiltonianBase) (nm : string)
      (ps : list (string * pyval)) (js : list (string * json)) (h : Qobj) (n : nat) :
  name self = nm -> params self = ps -> H self = PObj h ->
  shape h = n ->
  mapM (fun kv => j <- json_of_pyval (snd kv) ;; Ok (fst kv, j)) ps = Ok js ->
  to_json self = Ok (json_record nm js (JStr (str_shape (n, n))) (JBool (isherm h))).
Proof.
  intros <- <- HH <- E. now rewrite (to_json_built self h js HH E).
Qed.

(** [to_json] after a build one of whose arguments is a [complex]. *)
Lemma to_json_after_complex (self : HamiltonianBase) (ps : list (string * pyval)) :
  params self = ps -> stored_hamiltonian (H self) ->
  Exists (fun kv => rejected (snd kv)) ps ->
  to_json self = Raise TypeError.
Proof.
  intros <- HH Hn. apply to_json_params_raise; [exact HH|].
  now apply json_params_rejected.
Qed.

(** One [complex] among the three couplings that end a parameter
    dictionary is a rejected value. *)
Lemma couplings_rejected (front : list (string * pyval)) (x y w : number)
      (k1 k2 k3 : string) :
  is_complex x = true \/ is_complex y = true \/ is_complex w = true ->
  Exists (fun kv : string * pyval => rejected (snd kv))
         (front ++ [(k1, PNum x); (k2, PNum y); (k3, PNum w)])%list.
Proof.
  intros Hc. apply Exists_app. right.
  destruct Hc as [Hc|[Hc|Hc]].
  - left. exact Hc.
  - right. left. exact Hc.
  - right. right. left. exact Hc.
Qed.

End ObjectTheory.

(** ** Sums of operators, entry by entry *)

Section SumEntries.

Context {Sc : Scalar}.
Local Open Scope C_scope.

Add Ring C_ring_entries : C_ring.

Lemma csum_shift (k : nat) (g : nat -> C) :
  csum (S k) g = g 0%nat + csum k (fun x => g (S x)).
Proof.
  induction k as [|k IH].
  - cbn. ring.
  - change (csum (S (S k)) g) with (csum (S k) g + g (S k)).
    rewrite IH. cbn [csum]. ring.
Qed.

Lemma fold_acc_add_data (f : nat -> Qobj) (k a : nat) (acc : Qobj) :
  exists h, fold_left acc_add (map f (seq a k)) (PObj acc) = PObj h /\
            dims h = dims acc /\ shape h = shape acc /\
            forall i j, data h i j =
                        data acc i j + csum k (fun x => data (f (a + x)%nat) i j).
Proof.
  revert a acc. induction k as [|k IH]; intros a acc.
  - exists acc. split; [reflexivity|]. split; [reflexivity|].
    split; [reflexivity|]. intros i j. cbn. ring.
  - cbn [seq map fold_left acc_add].
    destruct (IH (S a) (qadd acc (f a))) as (h & E & Hd & Hs & Hdat).
    exists h. split; [exact E|]. split; [exact Hd|]. split; [exact Hs|].
    intros i j. rewrite Hdat, csum_shift. cbn [data qadd]. unfold madd.
    rewrite Nat.add_0_r.
    rewrite (csum_ext k (fun x => data (f (S a + x)%nat) i j)
                        (fun x => data (f (a + S x)%nat) i j))
      by (intros x _; now rewrite Nat.add_succ_r).
    ring.
Qed.

(** The entries of a sum of operators are the sums of their entries. *)
Lemma acc_sum_data (f : nat -> Qobj) (k : nat) :
  exists h, acc_sum (map f (seq 0 (S k))) = PObj h /\
            dims h = dims (f 0%nat) /\ shape h = shape (f 0%nat) /\
            forall i j, data h i j = csum (S k) (fun n => data (f n) i j).
Proof.
  unfold acc_sum. cbn [seq map fold_left acc_add].
  destruct (fold_acc_add_data f k 1 (f 0%nat)) as (h & E & Hd & Hs & Hdat).
  exists h. split; [exact E|]. split; [exact Hd|]. split; [exact Hs|].
  intros i j. rewrite Hdat, csum_shift. reflexivity.
Qed.

Lemma Heisenberg_op_entries (m : nat) (Jx Jy Jz : C) :
  (2 <= m)%nat ->
  exists h, Heisenberg_op m Jx Jy Jz = PObj h /\
            dims h = repeat 2%nat m /\ shape h = (2 ^ m)%nat /\
            forall i j, (i < 2 ^ m)%nat -> (j < 2 ^ m)%nat ->
              data h i j =
              csum (m - 1)
                   (fun n => data (Heisenberg_coupling_spec m Jx Jy Jz n) i j).
Proof.
  intros Hm. unfold Heisenberg_op.
  destruct m as [|[|k]]; try lia.
  replace (S (S k) - 1)%nat with (S k) by lia.
  destruct (acc_sum_data (Heisenberg_term_op (S (S k)) Jx Jy Jz) k)
    as (h & E & Hd & Hs & Hdat).
  assert (Hsh : forall n, (n + 1 < S (S k))%nat ->
            shape (Heisenberg_term_op (S (S k)) Jx Jy Jz n) = (2 ^ S (S k))%nat).
  { intros n Hn. rewrite <- total_dimension_repeat.
    cbn [shape Heisenberg_term_op qadd qmul qscale].
    apply site_op_shape; [lia|split; reflexivity]. }
  exists h. split; [exact E|]. split.
  { rewrite Hd. apply Heisenberg_term_op_dims. lia. }
  split.
  { rewrite Hs. apply Hsh. lia. }
  intros i j Hi Hj. rewrite Hdat. apply csum_ext. intros n Hn.
  destruct (Heisenberg_term_refines (S (S k)) Jx Jy Jz n) as (_ & _ & Hdat');
    [lia|].
  apply Hdat'; rewrite Hsh by lia; assumption.
Qed.

(** *** Operators without entries *)

Lemma null_qeq (a b : Qobj) : qeq a b -> null a -> null b.
Proof.
  intros (_ & Es & Em) Ha i j Hi Hj. rewrite <- Es in Hi, Hj.
  rewrite <- Em by assumption. now apply Ha.
Qed.

Lemma null_qscale (c : C) (a : Qobj) : null a -> null (qscale c a).
Proof.
  intros Ha i j Hi Hj. cbn in *. unfold mscale. rewrite Ha by assumption. ring.
Qed.

Lemma null_qadd (a b : Qobj) :
  shape a = shape b -> null a -> null b -> null (qadd a b).
Proof.
  intros Hs Ha Hb i j Hi Hj. cbn in *. unfold madd.
  rewrite Ha, Hb by (assumption || congruence). ring.
Qed.

Lemma null_kron_l (a b : Qobj) : null a -> null (kron a b).
Proof.
  intros Ha i j Hi Hj. cbn in *. unfold mkron.
  apply index_split in Hi, Hj. rewrite Ha by tauto. ring.
Qed.

Lemma null_kron_r (a b : Qobj) : null b -> null (kron a b).
Proof.
  intros Hb i j Hi Hj. cbn in *. unfold mkron.
  apply index_split in Hi, Hj. rewrite Hb by tauto. ring.
Qed.

Lemma null_fold_kron (l : list Qobj) (q : Qobj) :
  null q -> null (fold_left kron l q).
Proof.
  revert q. induction l as [|a l IH]; intros q Hq; cbn; [assumption|].
  apply IH. now apply null_kron_l.
Qed.

Lemma null_fold_kron_upd (l : list Qobj) (i : nat) (q A : Qobj) :
  (i < List.length l)%nat -> null A -> null (fold_left kron (upd l i A) q).
Proof.
  revert i q. induction l as [|a l IH]; intros [|i] q Hi HA; cbn in *; try lia.
  - apply null_fold_kron. now apply null_kron_r.
  - apply IH; [lia|assumption].
Qed.

(** A local operator without entries has an embedding without entries. *)
Lemma null_embed_op (ds : list nat) (i : nat) (A : Qobj) :
  (i < List.length ds)%nat -> null A -> null (embed_op ds i A).
Proof.
  intros Hi HA. unfold embed_op, tensor_op.
  destruct ds as [|d ds]; cbn in Hi; [lia|].
  destruct i as [|i]; cbn [map upd].
  - now apply null_fold_kron.
  - apply null_fold_kron_upd; [rewrite length_map; lia|assumption].
Qed.

(** With two levels per site, two bosons never sit on one site. *)
Lemma null_two_level_pair :
  null (qmul (qmul (qmul (qdag (destroy_op 2)) (qdag (destroy_op 2)))
                   (destroy_op 2)) (destroy_op 2)).
Proof.
  intros i j Hi Hj. cbn in Hi, Hj.
  destruct i as [|[|i]]; [| |lia]; destruct j as [|[|j]]; try lia;
    cbn; unfold mmul, mdag, lowering; cbn; rewrite ?conj_0; ring.
Qed.

Lemma null_BoseHubbard_int_op (m : nat) (U : C) (i : nat) :
  (i < m)%nat -> null (BoseHubbard_int_op 2 m U i).
Proof.
  intros Hi.
  apply (null_qeq _ _ (symmetry (BoseHubbard_int_local 2 m U i Hi))).
  apply null_qscale. apply null_embed_op.
  - now rewrite repeat_length.
  - apply null_two_level_pair.
Qed.

Lemma BoseHubbard_op_two_levels (m : nat) (t U U' : C) :
  (1 <= m)%nat ->
  exists h h', BoseHubbard_op 2 m t U = PObj h /\
               BoseHubbard_op 2 m t U' = PObj h' /\ qeq h h'.
Proof.
  intros Hm. unfold BoseHubbard_op.
  set (ds := repeat 2%nat m).
  set (P := fun q : Qobj => plain_over ds q /\ null q).
  assert (Hadd : forall a b, P a -> P b -> P (qadd a b)).
  { intros a b [[Hd Hs] Ha] [[Hd' Hs'] Hb]. split; [now split|].
    apply null_qadd; [congruence|assumption|assumption]. }
  assert (Hint : forall V, exists k,
            acc_sum (map (BoseHubbard_int_op 2 m V) (seq 0 m)) = PObj k /\ P k).
  { intros V. apply acc_sum_inv; [exact Hadd| |].
    - apply Forall_map_seq. intros i Hi. split; [split|].
      + apply BoseHubbard_int_op_dims. lia.
      + cbn. apply site_op_shape; [lia|split; reflexivity].
      + apply null_BoseHubbard_int_op. lia.
    - destruct m; [lia|discriminate]. }
  destruct (Hint U) as (k & -> & [[Hdk Hsk] Hnk]).
  destruct (Hint U') as (k' & -> & [[Hdk' Hsk'] Hnk']).
  destruct (fold_acc_add_inv (plain_over ds)
              (map (BoseHubbard_hop_op 2 m t) (seq 0 (m - 1))) (PInt 0))
    as [[_ E]|(h & E & [Hdh Hsh])].
  { intros a b Ha _. exact Ha. }
  { apply Forall_map_seq. intros i Hi. split.
    - apply BoseHubbard_hop_op_dims. lia.
    - cbn. apply site_op_shape; [lia|split; reflexivity]. }
  { now left. }
  - unfold acc_sum. rewrite E. exists k, k'.
    split; [reflexivity|]. split; [reflexivity|].
    split; [congruence|]. split; [congruence|].
    intros i j Hi Hj. rewrite Hnk by assumption.
    rewrite Hnk' by congruence. reflexivity.
  - unfold acc_sum. rewrite E. exists (qadd h k), (qadd h k').
    split; [reflexivity|]. split; [reflexivity|].
    split; [reflexivity|]. split; [reflexivity|].
    intros i j Hi Hj. cbn in *. unfold madd.
    rewrite Hnk, Hnk' by congruence. reflexivity.
Qed.

End SumEntries.

(** ** Relations between the models *)

Section ModelRelations.

Context {Sc : Scalar}.
Local Open Scope C_scope.

Add Ring C_ring_rel : C_ring.

Lemma kron_qadd_r (a x y : Qobj) :
  shape x = shape y -> qeq (kron a (qadd x y)) (qadd (kron a x) (kron a y)).
Proof.
  intros Hs. split; [reflexivity|]. split; [reflexivity|].
  intros i j _ _. cbn. unfold mkron, madd. rewrite Hs. ring.
Qed.

Lemma kron_qscale_r (c : C) (a x : Qobj) :
  qeq (kron a (qscale c x)) (qscale c (kron a x)).
Proof.
  split; [reflexivity|]. split; [reflexivity|].
  intros i j _ _. cbn. unfold mkron, mscale. ring.
Qed.

Lemma qmul_qscale_r (c : C) (a b : Qobj) :
  qeq (qmul a (qscale c b)) (qscale c (qmul a b)).
Proof.
  split; [reflexivity|]. split; [reflexivity|].
  intros i j _ _. cbn. unfold mmul, mscale.
  rewrite <- csum_mul_l. apply csum_ext. intros k _. ring.
Qed.

Lemma half_sub (x : C) : chalf * x - x = - (chalf * x).
Proof.
  transitivity (chalf * x - (chalf + chalf) * x); [|ring].
  f_equal. rewrite half_double. ring.
Qed.

(** The atomic number operator of [destroy(2)]: state 1 holds the
    quantum. *)
Lemma atom_number_entries (r s : nat) :
  (r < 2)%nat -> (s < 2)%nat ->
  data (qmul (qdag (destroy_op 2)) (destroy_op 2)) r s =
  match r, s with
  | 1%nat, 1%nat => c1
  | _, _ => c0
  end.
Proof.
  intros Hr Hs.
  destruct r as [|[|r]]; [| |lia]; destruct s as [|[|s]]; try lia;
    cbn; unfold mmul, mdag, lowering; cbn;
    rewrite ?sqrtn_1, ?conj_0, ?conj_1; ring.
Qed.

(** [0.5 * wa * sigmaz] is [- wa * sm.dag() * sm] shifted by [0.5 * wa]. *)
Lemma atom_energy_local (wa : C) :
  qeq (qscale (chalf * wa) sigmaz)
      (qadd (qscale (- wa) (qmul (qdag (destroy_op 2)) (destroy_op 2)))
            (qscale (chalf * wa) (eye 2))).
Proof.
  split; [reflexivity|]. split; [reflexivity|].
  intros r s Hr Hs. cbn [shape qscale sigmaz] in Hr, Hs.
  cbn [data qadd qscale]. unfold madd, mscale.
  rewrite atom_number_entries by assumption.
  destruct r as [|[|r]]; [| |lia]; destruct s as [|[|s]]; try lia;
    cbn; try ring.
  symmetry. transitivity (chalf * wa - wa); [ring|rewrite half_sub; ring].
Qed.

Lemma atom_number_kron (n : nat) :
  let sm := kron (eye n) (destroy_op 2) in
  qeq (qmul (qdag sm) sm)
      (kron (eye n) (qmul (qdag (destroy_op 2)) (destroy_op 2))).
Proof.
  intros sm. unfold sm.
  transitivity (qmul (kron (qdag (eye n)) (qdag (destroy_op 2)))
                     (kron (eye n) (destroy_op 2))).
  { apply qeq_qmul; [reflexivity|apply qdag_kron|reflexivity]. }
  rewrite kron_mixed by reflexivity.
  apply qeq_kron; [|reflexivity].
  transitivity (qdag (eye n)); [now apply qmul_eye_r|apply qdag_eye].
Qed.

Lemma atom_energy_shift (n : nat) (wa : C) :
  let sm := kron (eye n) (destroy_op 2) in
  qeq (qscale (chalf * wa) (kron (eye n) sigmaz))
      (qadd (qmul (qscale (- wa) (qdag sm)) sm)
            (qscale (chalf * wa) (kron (eye n) (eye 2)))).
Proof.
  intros sm.
  transitivity (kron (eye n) (qscale (chalf * wa) sigmaz)).
  { symmetry. apply kron_qscale_r. }
  transitivity (kron (eye n)
                  (qadd (qscale (- wa) (qmul (qdag (destroy_op 2)) (destroy_op 2)))
                        (qscale (chalf * wa) (eye 2)))).
  { apply qeq_kron; [reflexivity|apply atom_energy_local]. }
  rewrite kron_qadd_r by reflexivity.
  apply qeq_qadd; [reflexivity| |apply kron_qscale_r].
  rewrite kron_qscale_r, qmul_qscale_l.
  apply qeq_qscale. symmetry. apply atom_number_kron.
Qed.

(** With one atom the Tavis-Cummings operator is the Jaynes-Cummings
    operator for the opposite atomic frequency, shifted by [0.5 * wa]. *)
Lemma TavisCummings_single_shift (n : nat) (wc wa g : C) :
  match TavisCummings_op 1 n wc wa g with
  | PObj h => qeq h (qadd (JaynesCummings_op n wc (- wa) g)
                          (qscale (chalf * wa) (kron (eye n) (eye 2))))
  | _ => False
  end.
Proof.
  rewrite TavisCummings_op_single. cbv zeta. unfold JaynesCummings_op.
  destruct (atom_energy_shift n wa) as (_ & _ & Em). cbv zeta in Em.
  split; [reflexivity|]. split; [reflexivity|].
  intros i j Hi Hj. cbn [shape qadd qmul qscale qdag kron] in Hi, Hj.
  cbn [shape qscale kron eye sigmaz] in Em.
  cbn [data qadd]. unfold madd.
  rewrite (Em i j) by assumption.
  cbn [data qadd]. unfold madd.
  ring.
Qed.

(** With one atom and the same atomic frequency, the Tavis-Cummings
    operator is the Jaynes-Cummings operator plus [wa] times the offset
    of the atomic terms. *)
Lemma TavisCummings_single_offset (n : nat) (wc wa g : C) :
  match TavisCummings_op 1 n wc wa g with
  | PObj h => qeq h (qadd (JaynesCummings_op n wc wa g)
                          (qscale wa (kron (eye n) atomic_offset)))
  | _ => False
  end.
Proof.
  rewrite TavisCummings_op_single. cbv zeta. unfold JaynesCummings_op.
  set (a := kron (destroy_op n) (eye 2)). set (sm := kron (eye n) (destroy_op 2)).
  destruct (atom_number_kron n) as (_ & _ & En). cbv zeta in En. fold sm in En.
  destruct (qmul_qscale_l wa (qdag sm) sm) as (_ & _ & Es).
  split; [reflexivity|]. split; [reflexivity|].
  intros i j Hi Hj.
  change (shape _) with (n * 2)%nat in Hi, Hj.
  change (shape (qmul (qscale wa (qdag sm)) sm)) with (n * 2)%nat in Es.
  change (shape (qmul (qdag sm) sm)) with (n * 2)%nat in En.
  cbn [data qadd qscale]. unfold madd, mscale.
  rewrite (Es i j) by assumption. cbn [data qscale]. unfold mscale.
  rewrite (En i j) by assumption.
  unfold atomic_offset. cbn [data kron qadd qscale shape]. unfold mkron, madd, mscale.
  change (shape sigmaz) with 2%nat.
  change (shape (qmul (qdag (destroy_op 2)) (destroy_op 2))) with 2%nat.
  ring.
Qed.

Lemma atomic_offset_entry : data atomic_offset 0 0 = chalf.
Proof.
  unfold atomic_offset. cbn. unfold madd, mscale, mmul, mdag, lowering. cbn.
  rewrite ?conj_0. ring.
Qed.

(** Adding [wa] times the offset changes an operator unless [wa] is 0. *)
Lemma offset_vanishes (n : nat) (h : Qobj) (wa : C) :
  (1 <= n)%nat -> shape h = (n * 2)%nat ->
  (qeq (qadd h (qscale wa (kron (eye n) atomic_offset))) h <-> wa = c0).
Proof.
  intros Hn Hs. split.
  - intros (_ & _ & Em). cbn [shape qadd] in Em. rewrite Hs in Em.
    specialize (Em 0%nat 0%nat ltac:(lia) ltac:(lia)).
    cbn [data qadd qscale kron shape] in Em. unfold madd, mscale, mkron in Em.
    change (shape atomic_offset) with 2%nat in Em.
    change (0 / 2)%nat with 0%nat in Em. change (0 mod 2)%nat with 0%nat in Em.
    rewrite atomic_offset_entry in Em. cbn [data eye] in Em. unfold meye in Em.
    rewrite (proj2 (Nat.ltb_lt 0 n)) in Em by lia. cbn [Nat.eqb andb] in Em.
    assert (E0 : wa * chalf = c0).
    { transitivity ((data h 0%nat 0%nat + wa * (c1 * chalf)) - data h 0%nat 0%nat);
        [ring|rewrite Em; ring]. }
    transitivity (wa * (chalf + chalf)); [rewrite half_double; ring|].
    transitivity (wa * chalf + wa * chalf); [ring|rewrite E0; ring].
  - intros ->. split; [reflexivity|]. split; [reflexivity|].
    intros i j _ _. cbn [data qadd qscale]. unfold madd, mscale. ring.
Qed.

(** The spin-1/2 matrices of [jmat] are halves of the Pauli matrices,
    where [1 / 2] is [0.5]. *)
Lemma jz_half_entries (r s : nat) :
  cdiv (cofZ 1) (c1 + c1) = chalf ->
  (r < 2)%nat -> (s < 2)%nat ->
  data (jz 1) r s = chalf * data sigmaz r s.
Proof.
  intros Hh Hr Hs. unfold jz. cbn [data]. rewrite Hh.
  change (Z.to_nat 1) with 1%nat.
  destruct r as [|[|r]]; [| |lia]; destruct s as [|[|s]]; try lia;
    cbn; try ring.
  transitivity (chalf * c1 - c1); [ring|rewrite half_sub; ring].
Qed.

Lemma jx_half_entries (r s : nat) :
  (r < 2)%nat -> (s < 2)%nat ->
  data (qscale chalf (qadd (jplus 1) (qdag (jplus 1)))) r s =
  chalf * data sigmax r s.
Proof.
  intros Hr Hs.
  destruct r as [|[|r]]; [| |lia]; destruct s as [|[|s]]; try lia;
    cbn; unfold mscale, madd, mdag; cbn;
    rewrite ?sqrtn_1, ?conj_0, ?conj_1; ring.
Qed.

Lemma qscale_kron_half (c : C) (n : nat) (x y : Qobj) :
  shape x = 2%nat -> shape y = 2%nat ->
  (forall r s, (r < 2)%nat -> (s < 2)%nat -> data x r s = chalf * data y r s) ->
  forall i j, data (qscale c (kron (eye n) x)) i j =
              data (qscale (chalf * c) (kron (eye n) y)) i j.
Proof.
  intros Hx Hy E i j. cbn [data qscale kron shape eye].
  unfold mscale, mkron. rewrite Hx, Hy.
  rewrite E by (apply Nat.mod_upper_bound; lia). ring.
Qed.

Lemma qmul_kron_half (c : C) (q : Qobj) (n : nat) (x y : Qobj) :
  shape x = 2%nat -> shape y = 2%nat ->
  (forall r s, (r < 2)%nat -> (s < 2)%nat -> data x r s = chalf * data y r s) ->
  forall i j, data (qmul (qscale c q) (kron (eye n) x)) i j =
              data (qmul (qscale (chalf * c) q) (kron (eye n) y)) i j.
Proof.
  intros Hx Hy E i j. cbn [data qmul qscale kron shape eye].
  unfold mmul, mscale, mkron. rewrite Hx, Hy.
  apply csum_ext. intros k _.
  rewrite E by (apply Nat.mod_upper_bound; lia). ring.
Qed.

(** With one atom the Dicke operator is the Rabi operator for half the
    coupling, where [1 / 2] is [0.5] and [g / 1] is [g]. *)
Lemma DickeModel_single (n : nat) (wc wa g : C) :
  cdiv (cofZ 1) (c1 + c1) = chalf -> cdiv g c1 = g ->
  qeq (DickeModel_op 1 n wc wa g) (RabiModel_op n wc wa (chalf * g)).
Proof.
  intros Hh Hg. unfold DickeModel_op, RabiModel_op, pow_half.
  change (Z.to_nat 1) with 1%nat. cbv zeta. rewrite sqrtn_1, Hg.
  change (1 + 1)%nat with 2%nat.
  split; [reflexivity|]. split; [reflexivity|].
  intros i j _ _. cbn [data qadd]. unfold madd. f_equal; [f_equal|].
  - apply qscale_kron_half; try reflexivity.
    intros r s. now apply jz_half_entries.
  - apply qmul_kron_half; try reflexivity. apply jx_half_entries.
Qed.

End ModelRelations.

(** ** The quanta of the Jaynes-Cummings operator *)

Section Quanta.

Context {Sc : Scalar}.
Local Open Scope C_scope.

Add Ring C_ring_quanta : C_ring.

Lemma cofnat_add (a b : nat) : cofnat (a + b) = cofnat a + cofnat b.
Proof.
  induction b as [|b IH].
  - rewrite Nat.add_0_r. cbn. ring.
  - rewrite Nat.add_succ_r.
    change (cofnat (S (a + b))) with (cofnat (a + b) + c1).
    change (cofnat (S b)) with (cofnat b + c1). rewrite IH. ring.
Qed.

(** An operator commutes with a diagonal one when each of its entries
    joins two states of the same diagonal value. *)
Lemma commute_with_diagonal (h d : Qobj) :
  dims h = dims d -> shape h = shape d -> diagonal d ->
  (forall i j, (i < shape h)%nat -> (j < shape h)%nat ->
               data h i j * data d j j = data d i i * data h i j) ->
  commute h d.
Proof.
  intros Hd Hs Hdiag Hent. split; [exact Hd|]. split; [exact Hs|].
  intros i j Hi Hj. cbn [shape qmul] in Hi, Hj. cbn [data qmul]. unfold mmul.
  rewrite <- Hs.
  rewrite (csum_single (shape h) j) by
    (try assumption; intros k Hk Hne; rewrite (Hdiag k j) by lia; ring).
  rewrite (csum_single (shape h) i) by
    (try assumption; intros k Hk Hne; rewrite (Hdiag i k) by lia; ring).
  now apply Hent.
Qed.

Lemma diagonal_number_op (n : nat) : diagonal (number_op n).
Proof.
  intros i j _ _ Hne. cbn.
  now rewrite (proj2 (Nat.eqb_neq i j)) by assumption.
Qed.

Lemma diagonal_excitation_number (n : nat) : diagonal (excitation_number n).
Proof.
  apply diagonal_qadd; [reflexivity| |].
  - apply diagonal_kron; [apply diagonal_number_op|apply diagonal_eye].
  - apply diagonal_kron; [apply diagonal_eye|apply diagonal_number_op].
Qed.

Lemma excitation_number_entry (n k : nat) :
  (k < n * 2)%nat ->
  data (excitation_number n) k k = cofnat (k / 2 + k mod 2).
Proof.
  intros Hk. apply index_split in Hk. destruct Hk as [Hq Hr].
  unfold excitation_number, number_op, eye. cbn [data qadd kron shape].
  unfold madd, mkron, meye. rewrite !Nat.eqb_refl.
  rewrite (proj2 (Nat.ltb_lt (k / 2) n)), (proj2 (Nat.ltb_lt (k mod 2) 2))
    by assumption.
  cbn [andb]. rewrite cofnat_add. ring.
Qed.

(** Where the field operator and the atomic lowering operator have no
    entry. *)
Lemma field_entry_zero (n k i : nat) :
  ~ (i / 2 = k / 2 + 1 /\ k mod 2 = i mod 2)%nat ->
  data (kron (destroy_op n) (eye 2)) k i = c0.
Proof.
  intros Hn. cbn. unfold mkron, lowering, meye.
  destruct (Nat.eqb_spec (i / 2) (k / 2 + 1)) as [E1|N1]; cbn [andb]; [|ring].
  destruct (Nat.eqb_spec (k mod 2) (i mod 2)) as [E2|N2]; cbn [andb]; [|ring].
  exfalso. auto.
Qed.

Lemma atom_entry_zero (n k j : nat) :
  ~ (k / 2 = j / 2 /\ j mod 2 = k mod 2 + 1)%nat ->
  data (kron (eye n) (destroy_op 2)) k j = c0.
Proof.
  intros Hn. cbn. unfold mkron, lowering, meye.
  destruct (Nat.eqb_spec (k / 2) (j / 2)) as [E1|N1]; cbn [andb]; [|ring].
  destruct (Nat.eqb_spec (j mod 2) (k mod 2 + 1)) as [E2|N2]; cbn [andb];
    [|destruct (_ <? _)%nat; ring].
  exfalso. auto.
Qed.

(** The two coupling terms join states of equal number of quanta only. *)
Lemma emission_entry_zero (n i j : nat) :
  (i / 2 + i mod 2 <> j / 2 + j mod 2)%nat ->
  data (qmul (qdag (kron (destroy_op n) (eye 2)))
             (kron (eye n) (destroy_op 2))) i j = c0.
Proof.
  intros Hne. cbn [data qmul qdag]. unfold mmul, mdag.
  apply csum_zero. intros k _.
  destruct (Nat.eq_dec (i / 2) (k / 2 + 1)) as [E1|N1];
    [destruct (Nat.eq_dec (k mod 2) (i mod 2)) as [E2|N2]|].
  - rewrite (atom_entry_zero n k j) by lia. ring.
  - rewrite (field_entry_zero n k i) by tauto. rewrite conj_0. ring.
  - rewrite (field_entry_zero n k i) by tauto. rewrite conj_0. ring.
Qed.

Lemma absorption_entry_zero (n i j : nat) :
  (i / 2 + i mod 2 <> j / 2 + j mod 2)%nat ->
  data (qmul (kron (destroy_op n) (eye 2))
             (qdag (kron (eye n) (destroy_op 2)))) i j = c0.
Proof.
  intros Hne. cbn [data qmul qdag]. unfold mmul, mdag.
  apply csum_zero. intros k _.
  destruct (Nat.eq_dec (k / 2) (i / 2 + 1)) as [E1|N1];
    [destruct (Nat.eq_dec (i mod 2) (k mod 2)) as [E2|N2]|].
  - rewrite (atom_entry_zero n j k) by lia. rewrite conj_0. ring.
  - rewrite (field_entry_zero n i k) by tauto. ring.
  - rewrite (field_entry_zero n i k) by tauto. ring.
Qed.

Lemma JaynesCummings_op_quanta (n : nat) (wc wa g : C) (i j : nat) :
  (i < n * 2)%nat -> (j < n * 2)%nat -> i <> j ->
  (i / 2 + i mod 2 <> j / 2 + j mod 2)%nat ->
  data (JaynesCummings_op n wc wa g) i j = c0.
Proof.
  intros Hi Hj Hij Hne. unfold JaynesCummings_op.
  set (a := kron (destroy_op n) (eye 2)).
  set (sm := kron (eye n) (destroy_op 2)).
  assert (B1 : band 0 (qmul (qscale wc (qdag a)) a)).
  { change 0%Z with (- (2) + 2)%Z. apply band_qmul; [reflexivity| |apply band_field].
    apply band_qscale, band_qdag, band_field. }
  assert (B2 : band 0 (qmul (qscale wa (qdag sm)) sm)).
  { change 0%Z with (- (1) + 1)%Z. apply band_qmul; [reflexivity| |apply band_atom].
    apply band_qscale, band_qdag, band_atom. }
  cbn [data qadd qscale]. unfold madd, mscale.
  rewrite (B1 i j), (B2 i j) by (try (cbn; lia); lia).
  unfold a, sm.
  rewrite emission_entry_zero, absorption_entry_zero by assumption.
  ring.
Qed.

(** The Jaynes-Cummings operator keeps the number of quanta. *)
Lemma JaynesCummings_op_conserves (n : nat) (wc wa g : C) :
  commute (JaynesCummings_op n wc wa g) (excitation_number n).
Proof.
  apply commute_with_diagonal.
  - reflexivity.
  - reflexivity.
  - apply diagonal_excitation_number.
  - intros i j Hi Hj. change (shape (JaynesCummings_op n wc wa g)) with (n * 2)%nat in Hi, Hj.
    rewrite !excitation_number_entry by assumption.
    destruct (Nat.eq_dec i j) as [->|Hij]; [ring|].
    destruct (Nat.eq_dec (i / 2 + i mod 2) (j / 2 + j mod 2)) as [E|Hne].
    + rewrite E. ring.
    + rewrite JaynesCummings_op_quanta by assumption. ring.
Qed.

Lemma hermitian_dag_mul (a : Qobj) : hermitian (qmul (qdag a) a).
Proof.
  intros i j Hi Hj. cbn. unfold mmul, mdag.
  rewrite conj_csum. apply csum_ext. intros k _.
  rewrite conj_mul, conj_invol. ring.
Qed.

(** The Jaynes-Cummings operator minus its adjoint is the operator of the
    couplings minus their conjugates. *)
Lemma JaynesCummings_op_minus_adjoint (n : nat) (wc wa g : C) :
  qeq (qadd (JaynesCummings_op n wc wa g)
            (qscale (- c1) (qdag (JaynesCummings_op n wc wa g))))
      (JaynesCummings_op n (wc - conj wc) (wa - conj wa) (g - conj g)).
Proof.
  unfold JaynesCummings_op.
  set (a := kron (destroy_op n) (eye 2)). set (sm := kron (eye n) (destroy_op 2)).
  set (X := qadd (qmul (qdag a) sm) (qmul a (qdag sm))).
  assert (HA : hermitian (qmul (qdag a) a)) by apply hermitian_dag_mul.
  assert (HB : hermitian (qmul (qdag sm) sm)) by apply hermitian_dag_mul.
  assert (HX : hermitian X).
  { unfold X, a, sm. apply hermitian_rwa.
    apply (commute_qeq (kron (destroy_op n) (eye 2))
                       (kron (destroy_op n) (eye 2))
                       (kron (eye n) (qdag (destroy_op 2)))).
    - reflexivity.
    - rewrite qdag_kron. apply qeq_kron; [|reflexivity].
      symmetry. apply qdag_eye.
    - now apply commute_kron. }
  assert (Ea : forall c i j, (i < n * 2)%nat -> (j < n * 2)%nat ->
               data (qmul (qscale c (qdag a)) a) i j = c * data (qmul (qdag a) a) i j).
  { intros c i j Hi Hj. destruct (qmul_qscale_l c (qdag a) a) as (_ & _ & E).
    now apply E. }
  assert (Em : forall c i j, (i < n * 2)%nat -> (j < n * 2)%nat ->
               data (qmul (qscale c (qdag sm)) sm) i j = c * data (qmul (qdag sm) sm) i j).
  { intros c i j Hi Hj. destruct (qmul_qscale_l c (qdag sm) sm) as (_ & _ & E).
    now apply E. }
  split; [reflexivity|]. split; [reflexivity|].
  intros i j Hi Hj. change (shape _) with (n * 2)%nat in Hi, Hj.
  cbn [data qadd qscale qdag]. unfold madd, mscale, mdag.
  rewrite !Ea, !Em by assumption.
  rewrite !conj_add, !conj_mul.
  rewrite <- (HA i j), <- (HB i j), <- (HX i j) by assumption.
  ring.
Qed.

(** The counter-rotating term of the Rabi operator joins the states
    (no photon, atom in state 0) and (one photon, atom in state 1), which
    differ by two quanta. *)
Lemma RabiModel_op_counter_rotating (n : nat) (wc wa g : C) :
  (2 <= n)%nat -> data (RabiModel_op n wc wa g) 3 0 = g.
Proof.
  intros Hn. unfold RabiModel_op.
  set (a := kron (destroy_op n) (eye 2)).
  assert (Hsa : shape a = (n * 2)%nat) by reflexivity.
  assert (B1 : band 0 (qmul (qscale wc (qdag a)) a)).
  { change 0%Z with (- (2) + 2)%Z. apply band_qmul; [reflexivity| |apply band_field].
    apply band_qscale, band_qdag, band_field. }
  assert (E3 : data (qmul (qscale g (qadd (qdag a) a)) (kron (eye n) sigmax)) 3 0 = g).
  { cbn [data qmul qscale qadd qdag shape]. unfold mmul. rewrite Hsa.
    rewrite (csum_single (n * 2) 1); [|lia|].
    - unfold a, mscale, madd, mdag. cbn. unfold mkron, lowering, meye. cbn.
      destruct n as [|[|n']]; [lia|lia|].
      rewrite sqrtn_1, conj_mul, !conj_1. ring.
    - intros k Hk Hne. cbn [data kron shape eye sigmax]. unfold mkron, meye.
      destruct (split_index k) as [Ek Bk].
      destruct (Nat.eqb_spec (k / 2) (0 / 2)) as [E1|N1]; cbn [andb]; [|ring].
      change (0 / 2)%nat with 0%nat in E1. change (0 mod 2)%nat with 0%nat.
      assert (E0 : (k mod 2 = 0)%nat) by lia. rewrite E0.
      destruct (_ <? _)%nat; cbn; ring. }
  cbn [data qadd qscale]. unfold madd, mscale.
  rewrite (B1 3%nat 0%nat) by (cbn [shape qmul qscale qdag]; rewrite ?Hsa; lia).
  rewrite E3. cbn. unfold mkron, meye. cbn. ring.
Qed.

Lemma two_nonzero (x : C) : (c1 + c1) * x = c0 -> x = c0.
Proof.
  intros E0.
  transitivity ((chalf + chalf) * x); [rewrite half_double; ring|].
  transitivity (chalf * ((c1 + c1) * x)); [ring|].
  rewrite E0. ring.
Qed.

(** The Rabi operator does not keep the number of quanta. *)
Lemma RabiModel_op_not_conserved (n : nat) (wc wa g : C) :
  (2 <= n)%nat -> g <> c0 ->
  ~ commute (RabiModel_op n wc wa g) (excitation_number n).
Proof.
  intros Hn Hg (_ & _ & Hc).
  change (shape (qmul (RabiModel_op n wc wa g) (excitation_number n)))
    with (n * 2)%nat in Hc.
  specialize (Hc 3%nat 0%nat ltac:(lia) ltac:(lia)).
  cbn [data qmul] in Hc. unfold mmul in Hc.
  change (shape (RabiModel_op n wc wa g)) with (n * 2)%nat in Hc.
  change (shape (excitation_number n)) with (n * 2)%nat in Hc.
  rewrite (csum_single (n * 2) 0) in Hc by
    (try lia; intros k Hk Hne;
     rewrite (diagonal_excitation_number n k 0%nat) by (cbn; lia); ring).
  rewrite (csum_single (n * 2) 3) in Hc by
    (try lia; intros k Hk Hne;
     rewrite (diagonal_excitation_number n 3%nat k) by (cbn; lia); ring).
  rewrite !excitation_number_entry, RabiModel_op_counter_rotating in Hc by lia.
  apply Hg. apply two_nonzero.
  change (0 / 2 + 0 mod 2)%nat with 0%nat in Hc.
  change (3 / 2 + 3 mod 2)%nat with 2%nat in Hc.
  replace ((c1 + c1) * g) with (cofnat 2 * g) by (cbn; ring).
  rewrite <- Hc. cbn. ring.
Qed.

End Quanta.

Ltac json_params :=
  repeat (cbn [mapM json_of_pyval bind fst snd params];
          repeat match goal with
                 | E : is_complex ?x = false |- context [is_complex ?x] => rewrite E
                 end);
  reflexivity.

(** ** Conserved numbers *)

Section Grading.

Context {Sc : Scalar}.
Local Open Scope C_scope.

Add Ring C_ring_grading : C_ring.

Lemma graded_ext (f g : nat -> nat) (s : Z) (a : Qobj) :
  (forall i, (i < shape a)%nat -> f i = g i) -> graded f s a -> graded g s a.
Proof.
  intros E Ha i j Hi Hj Hne. apply Ha; try assumption.
  now rewrite (E i), (E j) by assumption.
Qed.

Lemma graded_shift (f : nat -> nat) (s s' : Z) (a : Qobj) :
  s = s' -> graded f s a -> graded f s' a.
Proof. now intros ->. Qed.

Lemma graded_qeq (f : nat -> nat) (s : Z) (a b : Qobj) :
  qeq a b -> graded f s a -> graded f s b.
Proof.
  intros (_ & Es & Em) Ha i j Hi Hj Hne. rewrite <- Es in Hi, Hj.
  rewrite <- Em by assumption. now apply Ha.
Qed.

Lemma graded_qadd (f : nat -> nat) (s : Z) (a b : Qobj) :
  shape a = shape b -> graded f s a -> graded f s b -> graded f s (qadd a b).
Proof.
  intros Hs Ha Hb i j Hi Hj Hne. cbn in *. unfold madd.
  rewrite Ha, Hb by (assumption || congruence). ring.
Qed.

Lemma graded_qscale (f : nat -> nat) (s : Z) (c : C) (a : Qobj) :
  graded f s a -> graded f s (qscale c a).
Proof.
  intros Ha i j Hi Hj Hne. cbn in *. unfold mscale.
  rewrite Ha by assumption. ring.
Qed.

Lemma graded_qdag (f : nat -> nat) (s : Z) (a : Qobj) :
  graded f s a -> graded f (- s) (qdag a).
Proof.
  intros Ha i j Hi Hj Hne. cbn in *. unfold mdag.
  rewrite Ha by (try assumption; lia). apply conj_0.
Qed.

Lemma graded_qmul (f : nat -> nat) (k l : Z) (a b : Qobj) :
  shape a = shape b -> graded f k a -> graded f l b ->
  graded f (k + l) (qmul a b).
Proof.
  intros Hs Ha Hb i j Hi Hj Hne. cbn in *. unfold mmul.
  apply csum_zero. intros x Hx.
  destruct (Z.eq_dec (Z.of_nat (f x) - Z.of_nat (f i)) k) as [E|E].
  - rewrite (Hb x j) by (try lia; congruence). ring.
  - rewrite (Ha i x) by assumption. ring.
Qed.

Lemma graded_kron (f g : nat -> nat) (k l : Z) (a b : Qobj) :
  graded f k a -> graded g l b ->
  graded (fun i => f (i / shape b) + g (i mod shape b))%nat (k + l) (kron a b).
Proof.
  intros Ha Hb i j Hi Hj Hne. cbn in *. unfold mkron.
  destruct (index_split _ _ _ Hi) as [Hi1 Hi2].
  destruct (index_split _ _ _ Hj) as [Hj1 Hj2].
  destruct (Z.eq_dec (Z.of_nat (f (j / shape b)) - Z.of_nat (f (i / shape b))) k)
    as [E|E].
  - rewrite (Hb (i mod shape b)%nat (j mod shape b)%nat) by (try assumption; lia).
    ring.
  - rewrite (Ha _ _ Hi1 Hj1 E). ring.
Qed.

Lemma graded_diagonal (f : nat -> nat) (a : Qobj) : diagonal a -> graded f 0 a.
Proof.
  intros Ha i j Hi Hj Hne. apply Ha; try assumption.
  intros ->. lia.
Qed.

Lemma graded_band (k : Z) (a : Qobj) : band k a -> graded (fun i => i) k a.
Proof. intros Ha i j Hi Hj Hne. now apply Ha. Qed.

Lemma diagonal_diag_of (ds : list nat) (n : nat) (f : nat -> nat) :
  diagonal (diag_of ds n f).
Proof.
  intros i j _ _ Hne. cbn.
  now rewrite (proj2 (Nat.eqb_neq i j)) by assumption.
Qed.

(** An operator that keeps the number commutes with it. *)
Lemma graded_commute (ds : list nat) (n : nat) (f : nat -> nat) (h : Qobj) :
  dims h = ds -> shape h = n -> graded f 0 h -> commute h (diag_of ds n f).
Proof.
  intros Hd Hs Hg. apply commute_with_diagonal.
  - exact Hd.
  - exact Hs.
  - apply diagonal_diag_of.
  - intros i j Hi Hj. cbn [data diag_of]. rewrite !Nat.eqb_refl.
    rewrite Hs in Hi, Hj.
    rewrite (proj2 (Nat.ltb_lt i n)), (proj2 (Nat.ltb_lt j n)) by assumption.
    cbn [andb].
    destruct (Nat.eq_dec (f i) (f j)) as [E|E].
    + rewrite E. ring.
    + rewrite (Hg i j) by (rewrite ?Hs; try assumption; lia). ring.
Qed.

(** More factors to the right add their digits to the number. *)
Lemma grade_after_succ (d k : nat) (g : nat -> nat) (i : nat) :
  grade_after d k (fun x => g (x / d) + x mod d)%nat i = grade_after d (S k) g i.
Proof.
  unfold grade_after. cbn [digits_sum].
  rewrite Nat.Div0.div_div, Nat.pow_succ_r', (Nat.mul_comm d). lia.
Qed.

Lemma graded_fold_eyes (d k : nat) (g : nat -> nat) (s : Z) (q : Qobj) :
  graded g s q ->
  graded (grade_after d k g) s (fold_left kron (repeat (eye d) k) q).
Proof.
  revert g q. induction k as [|k IH]; intros g q Hq; cbn [repeat fold_left].
  - apply (graded_ext g); [|assumption].
    intros i _. unfold grade_after. cbn [digits_sum].
    change (d ^ 0)%nat with 1%nat. rewrite Nat.div_1_r. lia.
  - apply (graded_ext (grade_after d k (fun x => g (x / d) + x mod d)%nat)).
    { intros i _. apply grade_after_succ. }
    apply IH. apply (graded_shift _ (s + 0)); [lia|].
    apply (graded_kron g (fun x => x) s 0 q (eye d)); [assumption|].
    apply graded_diagonal, diagonal_eye.
Qed.

Lemma graded_fold_upd (d k i : nat) (g : nat -> nat) (s sA : Z) (q A : Qobj) :
  (i < k)%nat -> shape A = d -> graded (fun x => x) sA A -> graded g s q ->
  graded (grade_after d k g) (s + sA)
         (fold_left kron (upd (repeat (eye d) k) i A) q).
Proof.
  revert i g s q. induction k as [|k IH]; intros i g s q Hi HsA HA Hq; [lia|].
  apply (graded_ext (grade_after d k (fun x => g (x / d) + x mod d)%nat));
    [intros x _; apply grade_after_succ|].
  destruct i as [|i]; cbn [repeat upd fold_left].
  - apply graded_fold_eyes. rewrite <- HsA.
    now apply (graded_kron g (fun x => x) s sA q A).
  - apply IH; try assumption; [lia|].
    apply (graded_shift _ (s + 0)); [lia|].
    apply (graded_kron g (fun x => x) s 0 q (eye d)); [assumption|].
    apply graded_diagonal, diagonal_eye.
Qed.

Lemma digits_sum_top (d m i : nat) :
  (i < d ^ S m)%nat -> grade_after d m (fun x => x) i = digits_sum d (S m) i.
Proof.
  intros Hi. unfold grade_after. cbn [digits_sum].
  rewrite (Nat.mod_small (i / d ^ m) d); [lia|].
  apply Nat.Div0.div_lt_upper_bound. rewrite Nat.pow_succ_r' in Hi. lia.
Qed.

(** A local operator that changes the local number by [s] changes the
    total number by [s], at whatever site it acts. *)
Lemma graded_site_op (d m i : nat) (s : Z) (A : Qobj) :
  (i < m)%nat -> local d A -> graded (fun x => x) s A ->
  graded (digits_sum d m) s (site_op d m i A).
Proof.
  intros Hi [HdA HsA] HA.
  destruct m as [|k]; [lia|].
  apply (graded_ext (grade_after d k (fun x => x))).
  { intros x Hx. apply digits_sum_top.
    rewrite site_op_shape, total_dimension_repeat in Hx by (try assumption; now split).
    exact Hx. }
  unfold site_op, embed_op, tensor_op. rewrite map_repeat.
  destruct i as [|i]; cbn [repeat upd].
  - now apply graded_fold_eyes.
  - apply (graded_shift _ (0 + s)); [lia|].
    apply graded_fold_upd; try assumption; [lia|].
    apply graded_diagonal, diagonal_eye.
Qed.

(** The same in the space of the Tavis-Cummings model. *)
Lemma graded_field_op (na nc : nat) (s : Z) (A : Qobj) :
  graded (fun x => x) s A ->
  graded (grade_after 2 na (fun x => x)) s
         (embed_op (TavisCummings_space na nc) 0 A).
Proof.
  intros HA. unfold embed_op, tensor_op, TavisCummings_space.
  cbn [map upd]. rewrite map_repeat. now apply graded_fold_eyes.
Qed.

Lemma graded_atom_op (na nc i : nat) (s : Z) (A : Qobj) :
  (i < na)%nat -> shape A = 2%nat -> graded (fun x => x) s A ->
  graded (grade_after 2 na (fun x => x)) s (atom_op na nc i A).
Proof.
  intros Hi HsA HA. unfold atom_op, embed_op, tensor_op, TavisCummings_space.
  cbn [map upd]. rewrite map_repeat.
  apply (graded_shift _ (0 + s)); [lia|].
  apply graded_fold_upd; try assumption.
  apply graded_diagonal, diagonal_eye.
Qed.

Lemma graded_destroy_op (d : nat) : graded (fun x => x) 1 (destroy_op d).
Proof. apply graded_band, band_destroy_op. Qed.

(** The Bose-Hubbard operator keeps the number of bosons. *)
Lemma BoseHubbard_op_graded (d m : nat) (t U : C) :
  (1 <= m)%nat ->
  exists h, BoseHubbard_op d m t U = PObj h /\
            plain_over (repeat d m) h /\ graded (digits_sum d m) 0 h.
Proof.
  intros Hm.
  assert (Ha : forall i, (i < m)%nat ->
            graded (digits_sum d m) 1 (site_op d m i (destroy_op d)) /\
            shape (site_op d m i (destroy_op d)) = total_dimension (repeat d m)).
  { intros i Hi. split.
    - apply graded_site_op; [assumption|split; reflexivity|apply graded_destroy_op].
    - apply site_op_shape; [assumption|split; reflexivity]. }
  destruct (BoseHubbard_op_inv
              (fun q => plain_over (repeat d m) q /\ graded (digits_sum d m) 0 q)
              d m t U Hm) as (h & E & Hp & Hg).
  - intros a b [[Hda Hsa] Hga] [[Hdb Hsb] Hgb]. split; [now split|].
    apply graded_qadd; [congruence|assumption|assumption].
  - intros i Hi.
    destruct (Ha i ltac:(lia)) as [G0 S0]. destruct (Ha (i + 1)%nat ltac:(lia)) as [G1 S1].
    split.
    + split; [now apply BoseHubbard_hop_op_dims|]. cbn. exact S0.
    + unfold BoseHubbard_hop_op. apply graded_qscale.
      apply graded_qadd; [cbn [shape qmul qscale qdag qadd]; congruence| |].
      * apply (graded_shift _ (- (1) + 1)); [lia|].
        apply graded_qmul; [cbn [shape qmul qscale qdag qadd]; congruence|now apply graded_qdag|assumption].
      * apply (graded_shift _ (- (1) + 1)); [lia|].
        apply graded_qmul; [cbn [shape qmul qscale qdag qadd]; congruence|now apply graded_qdag|assumption].
  - intros i Hi. destruct (Ha i Hi) as [G0 S0].
    split.
    + split; [now apply BoseHubbard_int_op_dims|]. cbn. exact S0.
    + unfold BoseHubbard_int_op.
      apply (graded_shift _ (- (1) + - (1) + 1 + 1)); [lia|].
      repeat (apply graded_qmul; [reflexivity| |]);
        try apply graded_qscale; try apply graded_qdag; assumption.
  - exists h. auto.
Qed.

(** The Tavis-Cummings operator keeps the number of quanta. *)
Lemma TavisCummings_op_graded (na nc : nat) (wc wa g : C) :
  (1 <= na)%nat ->
  exists h, TavisCummings_op na nc wc wa g = PObj h /\
            plain_over (TavisCummings_space na nc) h /\
            graded (grade_after 2 na (fun x => x)) 0 h.
Proof.
  intros Hna. unfold TavisCummings_op.
  set (ds := TavisCummings_space na nc).
  set (f := grade_after 2 na (fun x => x)).
  set (a := embed_op ds 0 (destroy_op nc)).
  assert (Hda : dims a = ds) by (apply embed_op_dims; split; reflexivity).
  assert (Hsa : shape a = total_dimension ds)
    by (apply embed_op_shape; split; reflexivity).
  assert (Hga : graded f 1 a) by (apply graded_field_op, graded_destroy_op).
  destruct (acc_sum_inv (fun q => plain_over ds q /\ graded f 0 q)
              (map (fun i => atom_op na nc i sigmaz) (seq 0 na)))
    as (sz & -> & [Hdz Hsz] & Hgz).
  { intros x y [[Hdx Hsx] Hgx] [[Hdy Hsy] Hgy]. split; [now split|].
    apply graded_qadd; [congruence|assumption|assumption]. }
  { apply Forall_map_seq. intros i Hi. split; [split|].
    - apply atom_op_dims; [lia|split; reflexivity].
    - apply atom_op_shape; [lia|split; reflexivity].
    - apply graded_atom_op; [lia|reflexivity|].
      apply graded_diagonal. intros [|[|x]] [|[|y]] Hx Hy Hne; cbn in *;
        try reflexivity; lia. }
  { destruct na; [lia|discriminate]. }
  destruct (acc_sum_inv (fun q => plain_over ds q /\ graded f 1 q)
              (map (fun i => atom_op na nc i (destroy_op 2)) (seq 0 na)))
    as (sm & -> & [Hdm Hsm] & Hgm).
  { intros x y [[Hdx Hsx] Hgx] [[Hdy Hsy] Hgy]. split; [now split|].
    apply graded_qadd; [congruence|assumption|assumption]. }
  { apply Forall_map_seq. intros i Hi. split; [split|].
    - apply atom_op_dims; [lia|split; reflexivity].
    - apply atom_op_shape; [lia|split; reflexivity].
    - apply graded_atom_op; [lia|reflexivity|apply graded_destroy_op]. }
  { destruct na; [lia|discriminate]. }
  eexists. split; [reflexivity|]. split.
  - split; cbn [dims shape qadd qmul qscale qdag]; assumption.
  - apply graded_qadd; [reflexivity| |].
    + apply graded_qadd; [cbn [shape qmul qscale qdag qadd]; congruence| |].
      * apply (graded_shift _ (- (1) + 1)); [lia|].
        apply graded_qmul; [reflexivity| |assumption].
        apply graded_qscale. now apply graded_qdag.
      * now apply graded_qscale.
    + apply graded_qscale. apply graded_qadd; [reflexivity| |].
      * apply (graded_shift _ (- (1) + 1)); [lia|].
        apply graded_qmul; [cbn [shape qmul qscale qdag qadd]; congruence|now apply graded_qdag|assumption].
      * apply (graded_shift _ (1 + - (1))); [lia|].
        apply graded_qmul; [cbn [shape qmul qscale qdag qadd]; congruence|assumption|now apply graded_qdag].
Qed.

(** *** The exchange form of the chain coupling *)

Lemma kron_qadd_l (a b x : Qobj) :
  qeq (kron (qadd a b) x) (qadd (kron a x) (kron b x)).
Proof.
  split; [reflexivity|]. split; [reflexivity|].
  intros i j _ _. cbn. unfold mkron, madd. ring.
Qed.

Lemma kron_qscale_l (c : C) (a x : Qobj) :
  qeq (kron (qscale c a) x) (qscale c (kron a x)).
Proof.
  split; [reflexivity|]. split; [reflexivity|].
  intros i j _ _. cbn. unfold mkron, mscale. ring.
Qed.

Lemma fold_kron_qadd (l : list Qobj) (a b : Qobj) :
  shape a = shape b ->
  qeq (fold_left kron l (qadd a b))
      (qadd (fold_left kron l a) (fold_left kron l b)).
Proof.
  revert a b. induction l as [|x l IH]; intros a b Hs; cbn [fold_left].
  - reflexivity.
  - transitivity (fold_left kron l (qadd (kron a x) (kron b x))).
    + apply fold_kron_qeq; [apply kron_qadd_l|].
      apply Forall2_refl. reflexivity.
    + apply IH. cbn. now rewrite Hs.
Qed.

Lemma fold_kron_qscale (l : list Qobj) (c : C) (a : Qobj) :
  qeq (fold_left kron l (qscale c a)) (qscale c (fold_left kron l a)).
Proof.
  revert a. induction l as [|x l IH]; intros a; cbn [fold_left].
  - reflexivity.
  - transitivity (fold_left kron l (qscale c (kron a x))).
    + apply fold_kron_qeq; [apply kron_qscale_l|].
      apply Forall2_refl. reflexivity.
    + apply IH.
Qed.

Lemma fold_kron_upd_qadd (l : list Qobj) (i : nat) (q A B : Qobj) :
  (i < List.length l)%nat -> shape A = shape B ->
  qeq (fold_left kron (upd l i (qadd A B)) q)
      (qadd (fold_left kron (upd l i A) q) (fold_left kron (upd l i B) q)).
Proof.
  revert i q. induction l as [|x l IH]; intros [|i] q Hi Hs; cbn in Hi; try lia;
    cbn [upd fold_left].
  - transitivity (fold_left kron l (qadd (kron q A) (kron q B))).
    + apply fold_kron_qeq; [now apply kron_qadd_r|].
      apply Forall2_refl. reflexivity.
    + apply fold_kron_qadd. cbn. now rewrite Hs.
  - apply IH; [lia|assumption].
Qed.

Lemma fold_kron_upd_qscale (l : list Qobj) (i : nat) (c : C) (q A : Qobj) :
  (i < List.length l)%nat ->
  qeq (fold_left kron (upd l i (qscale c A)) q)
      (qscale c (fold_left kron (upd l i A) q)).
Proof.
  revert i q. induction l as [|x l IH]; intros [|i] q Hi; cbn in Hi; try lia;
    cbn [upd fold_left].
  - transitivity (fold_left kron l (qscale c (kron q A))).
    + apply fold_kron_qeq; [apply kron_qscale_r|].
      apply Forall2_refl. reflexivity.
    + apply fold_kron_qscale.
  - apply IH. lia.
Qed.

(** An embedding is linear in the operator it places. *)
Lemma embed_op_qadd (ds : list nat) (i : nat) (A B : Qobj) :
  (i < List.length ds)%nat -> shape A = shape B ->
  qeq (embed_op ds i (qadd A B)) (qadd (embed_op ds i A) (embed_op ds i B)).
Proof.
  intros Hi Hs. unfold embed_op, tensor_op.
  destruct ds as [|d ds]; cbn in Hi; [lia|].
  destruct i as [|i]; cbn [map upd].
  - now apply fold_kron_qadd.
  - apply fold_kron_upd_qadd; [rewrite length_map; lia|assumption].
Qed.

Lemma embed_op_qscale (ds : list nat) (i : nat) (c : C) (A : Qobj) :
  (i < List.length ds)%nat ->
  qeq (embed_op ds i (qscale c A)) (qscale c (embed_op ds i A)).
Proof.
  intros Hi. unfold embed_op, tensor_op.
  destruct ds as [|d ds]; cbn in Hi; [lia|].
  destruct i as [|i]; cbn [map upd].
  - apply fold_kron_qscale.
  - apply fold_kron_upd_qscale. rewrite length_map. lia.
Qed.

Lemma embed_op_qeq (ds : list nat) (i : nat) (A B : Qobj) :
  qeq A B -> qeq (embed_op ds i A) (embed_op ds i B).
Proof.
  intros E. unfold embed_op. apply tensor_op_qeq.
  apply Forall2_upd; [apply Forall2_refl; reflexivity|assumption].
Qed.

(** The Pauli matrices in the lowering operator [destroy(2)] and its
    adjoint. *)
Lemma sigmax_ladder :
  qeq sigmax (qadd (destroy_op 2) (qdag (destroy_op 2))).
Proof.
  split; [reflexivity|]. split; [reflexivity|].
  intros i j Hi Hj. cbn in Hi, Hj.
  destruct i as [|[|i]]; [| |lia]; destruct j as [|[|j]]; try lia;
    cbn; unfold madd, mdag, lowering; cbn;
    rewrite ?sqrtn_1, ?conj_0, ?conj_1; ring.
Qed.

Lemma sigmay_ladder :
  qeq sigmay (qadd (qscale (- ci) (destroy_op 2))
                   (qscale ci (qdag (destroy_op 2)))).
Proof.
  split; [reflexivity|]. split; [reflexivity|].
  intros i j Hi Hj. cbn in Hi, Hj.
  destruct i as [|[|i]]; [| |lia]; destruct j as [|[|j]]; try lia;
    cbn; unfold madd, mscale, mdag, lowering; cbn;
    rewrite ?sqrtn_1, ?conj_0, ?conj_1; ring.
Qed.

Lemma site_sigmax_ladder (m k : nat) :
  (k < m)%nat ->
  qeq (site_op 2 m k sigmax)
      (qadd (site_op 2 m k (destroy_op 2)) (site_op 2 m k (qdag (destroy_op 2)))).
Proof.
  intros Hk. unfold site_op.
  rewrite <- embed_op_qadd by (rewrite ?repeat_length; reflexivity || lia).
  apply embed_op_qeq, sigmax_ladder.
Qed.

Lemma site_sigmay_ladder (m k : nat) :
  (k < m)%nat ->
  qeq (site_op 2 m k sigmay)
      (qadd (qscale (- ci) (site_op 2 m k (destroy_op 2)))
            (qscale ci (site_op 2 m k (qdag (destroy_op 2))))).
Proof.
  intros Hk. unfold site_op.
  transitivity (embed_op (repeat 2%nat m) k
                  (qadd (qscale (- ci) (destroy_op 2))
                        (qscale ci (qdag (destroy_op 2))))).
  { apply embed_op_qeq, sigmay_ladder. }
  rewrite embed_op_qadd by (rewrite ?repeat_length; reflexivity || lia).
  assert (Hs : forall A, local 2 A ->
            shape (embed_op (repeat 2%nat m) k A) = total_dimension (repeat 2%nat m)).
  { intros A HA. now apply (site_op_shape 2 m k A). }
  apply qeq_qadd.
  - cbn [shape qscale].
    rewrite !embed_op_shape by (rewrite nth_repeat_lt by assumption; split; reflexivity).
    reflexivity.
  - apply embed_op_qscale. now rewrite repeat_length.
  - apply embed_op_qscale. now rewrite repeat_length.
Qed.

(** With equal couplings the [x] and [y] terms add up to an exchange of
    the states of two spins. *)
Lemma xy_exchange (J : C) (X X1 Y Y1 B B' D D' : Qobj) :
  shape B' = shape B -> shape D = shape B -> shape D' = shape B ->
  qeq X (qadd B B') -> qeq Y (qadd (qscale (- ci) B) (qscale ci B')) ->
  qeq X1 (qadd D D') -> qeq Y1 (qadd (qscale (- ci) D) (qscale ci D')) ->
  qeq (qadd (qmul (qscale J X) X1) (qmul (qscale J Y) Y1))
      (qscale (J + J) (qadd (qmul B D') (qmul B' D))).
Proof.
  intros HsB' HsD HsD' (EdX & EsX & EX) (EdY & EsY & EY)
         (EdX1 & EsX1 & EX1) (EdY1 & EsY1 & EY1).
  cbn [dims shape qadd qscale] in *.
  split; [exact EdX|]. split; [exact EsX|].
  intros i j Hi Hj. cbn [shape qadd qmul qscale] in Hi, Hj.
  cbn [data qadd qmul qscale shape]. unfold madd, mscale, mmul.
  rewrite EsY, HsB', <- EsX.
  rewrite <- !csum_add, <- csum_mul_l.
  apply csum_ext. intros k Hk.
  rewrite (EX i k), (EY i k), (EX1 k j), (EY1 k j) by congruence.
  cbn [data qadd qscale]. unfold madd, mscale.
  set (b := data B i k). set (b' := data B' i k).
  set (d := data D k j). set (d' := data D' k j).
  transitivity (J * (b + b') * (d + d') +
                J * ((ci * ci) * (b * d) - (ci * ci) * (b * d')
                     - (ci * ci) * (b' * d) + (ci * ci) * (b' * d')));
    [ring|rewrite i_square; ring].
Qed.

Lemma graded_sigmaz : graded (fun x => x) 0 sigmaz.
Proof.
  apply graded_diagonal.
  intros [|[|x]] [|[|y]] Hx Hy Hne; cbn in *; try reflexivity; lia.
Qed.

Lemma Heisenberg_term_op_graded (m : nat) (J Jz : C) (n : nat) :
  (n + 1 < m)%nat ->
  graded (digits_sum 2 m) 0 (Heisenberg_term_op m J J Jz n).
Proof.
  intros Hn. unfold Heisenberg_term_op.
  set (b := destroy_op 2).
  assert (Hs : forall k A, (k < m)%nat -> local 2 A ->
               shape (site_op 2 m k A) = total_dimension (repeat 2%nat m))
    by (intros; now apply site_op_shape).
  assert (Hb : forall k, (k < m)%nat -> graded (digits_sum 2 m) 1 (site_op 2 m k b)).
  { intros k Hk. apply graded_site_op; [assumption|split; reflexivity|].
    apply graded_destroy_op. }
  assert (Hb' : forall k, (k < m)%nat ->
                graded (digits_sum 2 m) (- (1)) (site_op 2 m k (qdag b))).
  { intros k Hk. apply graded_site_op; [assumption|split; reflexivity|].
    apply graded_qdag, graded_destroy_op. }
  apply graded_qadd.
  - cbn [shape qadd qmul qscale].
    rewrite !Hs by (lia || split; reflexivity). reflexivity.
  - apply (graded_qeq _ _
             (qscale (J + J)
                (qadd (qmul (site_op 2 m n b) (site_op 2 m (n + 1) (qdag b)))
                      (qmul (site_op 2 m n (qdag b)) (site_op 2 m (n + 1) b))))).
    + symmetry. apply xy_exchange;
        try (rewrite !Hs by (lia || split; reflexivity); reflexivity).
      * apply site_sigmax_ladder. lia.
      * apply site_sigmay_ladder. lia.
      * apply site_sigmax_ladder. lia.
      * apply site_sigmay_ladder. lia.
    + apply graded_qscale. apply graded_qadd.
      * cbn [shape qmul]. rewrite !Hs by (lia || split; reflexivity). reflexivity.
      * apply (graded_shift _ (1 + - (1))); [lia|].
        apply graded_qmul; [|apply Hb; lia|apply Hb'; lia].
        rewrite !Hs by (lia || split; reflexivity). reflexivity.
      * apply (graded_shift _ (- (1) + 1)); [lia|].
        apply graded_qmul; [|apply Hb'; lia|apply Hb; lia].
        rewrite !Hs by (lia || split; reflexivity). reflexivity.
  - apply (graded_shift _ (0 + 0)); [lia|].
    apply graded_qmul.
    + cbn [shape qscale]. rewrite !Hs by (lia || split; reflexivity). reflexivity.
    + apply graded_qscale.
      apply graded_site_op; [lia|split; reflexivity|apply graded_sigmaz].
    + apply graded_site_op; [lia|split; reflexivity|apply graded_sigmaz].
Qed.

(** With [Jx = Jy] the chain keeps the number of spins in state 1. *)
Lemma Heisenberg_op_graded (m : nat) (J Jz : C) :
  (2 <= m)%nat ->
  exists h, Heisenberg_op m J J Jz = PObj h /\
            plain_over (repeat 2%nat m) h /\ graded (digits_sum 2 m) 0 h.
Proof.
  intros Hm. unfold Heisenberg_op.
  destruct (acc_sum_inv
              (fun q => plain_over (repeat 2%nat m) q /\ graded (digits_sum 2 m) 0 q)
              (map (Heisenberg_term_op m J J Jz) (seq 0 (m - 1))))
    as (h & E & Hp & Hg).
  - intros a b [[Hda Hsa] Hga] [[Hdb Hsb] Hgb]. split; [now split|].
    apply graded_qadd; [congruence|assumption|assumption].
  - apply Forall_map_seq. intros i Hi. split; [split|].
    + apply Heisenberg_term_op_dims. lia.
    + cbn. apply site_op_shape; [lia|split; reflexivity].
    + apply Heisenberg_term_op_graded. lia.
  - destruct m as [|[|m]]; try lia. discriminate.
  - exists h. auto.
Qed.

End Grading.

(** * The properties of the specification *)

Section Claims.

Context {Sc : Scalar}.
Local Open Scope C_scope.
Local Open Scope string_scope.

Add Ring C_ring_claims : C_ring.

(** C1.  For real couplings and valid dimensions, each of the six
    builders returns an operator that equals its own adjoint, so that
    [isherm] is true of it whatever the tolerance. *)
Theorem builders_hermitian (self : HamiltonianBase) :
  (forall N (wc wa g : number),
     (2 <= N)%Z -> is_real wc -> is_real wa -> is_real g ->
     exists h, fst (JaynesCummings_build N wc wa g self) = Ok (PObj h) /\
               hermitian h /\ isherm h = true) /\
  (forall N (wc wa g : number),
     (2 <= N)%Z -> is_real wc -> is_real wa -> is_real g ->
     exists h, fst (RabiModel_build N wc wa g self) = Ok (PObj h) /\
               hermitian h /\ isherm h = true) /\
  (forall N_atoms N_cavity (wc wa g : number),
     (1 <= N_atoms)%Z -> (2 <= N_cavity)%Z ->
     is_real wc -> is_real wa -> is_real g ->
     exists h, fst (TavisCummings_build N_atoms N_cavity wc wa g self) = Ok (PObj h) /\
               hermitian h /\ isherm h = true) /\
  (forall N_atoms N_cavity (wc wa g : number),
     (1 <= N_atoms)%Z -> (2 <= N_cavity)%Z ->
     is_real wc -> is_real wa -> is_real g ->
     exists h, fst (DickeModel_build N_atoms N_cavity wc wa g self) = Ok (PObj h) /\
               hermitian h /\ isherm h = true) /\
  (forall N_spins (Jx Jy Jz : number), (2 <= N_spins)%Z ->
     is_real Jx -> is_real Jy -> is_real Jz ->
     exists h, fst (HeisenbergSpinChain_build N_spins Jx Jy Jz self) = Ok (PObj h) /\
               hermitian h /\ isherm h = true) /\
  (forall N_sites N_levels (t U : number), (1 <= N_sites)%Z -> (2 <= N_levels)%Z ->
     is_real t -> is_real U ->
     exists h, fst (BoseHubbard_build N_sites N_levels t U self) = Ok (PObj h) /\
               hermitian h /\ isherm h = true).
Proof.
  split; [|split; [|split; [|split; [|split]]]].
  - intros N wc wa g HN Hwc Hwa Hg.
    destruct (JaynesCummings_returns N wc wa g self HN) as (h & E & _ & Hh).
    exists h. split; [exact E|]. split; [|apply hermitian_isherm]; auto.
  - intros N wc wa g HN Hwc Hwa Hg.
    destruct (RabiModel_returns N wc wa g self HN) as (h & E & _ & Hh).
    exists h. split; [exact E|]. split; [|apply hermitian_isherm]; auto.
  - intros Na Nc wc wa g Ha Hc Hwc Hwa Hg.
    destruct (TavisCummings_returns Na Nc wc wa g self Ha Hc) as (h & E & _ & Hh).
    exists h. split; [exact E|]. split; [|apply hermitian_isherm]; auto.
  - intros Na Nc wc wa g Ha Hc Hwc Hwa Hg.
    destruct (DickeModel_returns Na Nc wc wa g self Ha Hc) as (h & E & _ & Hh).
    exists h. split; [exact E|]. split; [|apply hermitian_isherm]; auto.
  - intros N Jx Jy Jz HN Hx Hy Hz.
    destruct (Heisenberg_returns N Jx Jy Jz self HN) as (h & E & _ & Hh).
    exists h. split; [exact E|]. split; [|apply hermitian_isherm]; auto.
  - intros Ns Nl t U Hs Hl Ht HU.
    destruct (BoseHubbard_returns Ns Nl t U self Hs Hl) as (h & E & _ & Hh).
    exists h. split; [exact E|]. split; [|apply hermitian_isherm]; auto.
Qed.

(** C2, as amended.  With fewer than two sites nothing is raised for the
    lack of sites: the Heisenberg builder returns the integer 0, and the
    Bose-Hubbard builder returns the on-site interaction of its single
    site (for two levels or more, which [destroy] asks for), or the
    integer 0 when there is no site. *)
Theorem short_chain_returns (self : HamiltonianBase) :
  (forall N_spins Jx Jy Jz, (N_spins <= 1)%Z ->
     fst (HeisenbergSpinChain_build N_spins Jx Jy Jz self) = Ok (PInt 0)) /\
  (forall N_levels t U, (2 <= N_levels)%Z ->
     fst (BoseHubbard_build 1 N_levels t U self) =
     Ok (PObj (BoseHubbard_int_op (Z.to_nat N_levels) 1 U 0))) /\
  (forall N_sites N_levels t U, (N_sites <= 0)%Z ->
     fst (BoseHubbard_build N_sites N_levels t U self) = Ok (PInt 0)).
Proof.
  repeat split.
  - intros N Jx Jy Jz HN.
    rewrite (fst_eq _ _ _ (HeisenbergSpinChain_build_ok N Jx Jy Jz self)).
    now rewrite Heisenberg_op_short by lia.
  - intros Nl t U Hl.
    now rewrite (fst_eq _ _ _ (BoseHubbard_build_ok 1 Nl t U self Hl)).
  - intros Ns Nl t U Hs. now apply BoseHubbard_build_empty.
Qed.

(** C3, as amended.  No builder validates its result: for valid
    dimensions and any couplings, real or complex, the assembled operator
    is returned and nothing is raised; it equals its adjoint when the
    couplings are real, and the Jaynes-Cummings builder with a coupling
    [g] that differs from its conjugate by more than the tolerance
    returns an operator of which [isherm] is false. *)
Theorem builders_return_unvalidated (self : HamiltonianBase) :
  (forall N (wc wa g : number), (2 <= N)%Z ->
     exists h, fst (JaynesCummings_build N wc wa g self) = Ok (PObj h) /\
               (is_real wc -> is_real wa -> is_real g -> hermitian h)) /\
  (forall N (wc wa g : number), (2 <= N)%Z ->
     exists h, fst (RabiModel_build N wc wa g self) = Ok (PObj h) /\
               (is_real wc -> is_real wa -> is_real g -> hermitian h)) /\
  (forall N_atoms N_cavity (wc wa g : number), (1 <= N_atoms)%Z -> (2 <= N_cavity)%Z ->
     exists h, fst (TavisCummings_build N_atoms N_cavity wc wa g self) = Ok (PObj h) /\
               (is_real wc -> is_real wa -> is_real g -> hermitian h)) /\
  (forall N_atoms N_cavity (wc wa g : number), (1 <= N_atoms)%Z -> (2 <= N_cavity)%Z ->
     exists h, fst (DickeModel_build N_atoms N_cavity wc wa g self) = Ok (PObj h) /\
               (is_real wc -> is_real wa -> is_real g -> hermitian h)) /\
  (forall N_spins (Jx Jy Jz : number), (2 <= N_spins)%Z ->
     exists h, fst (HeisenbergSpinChain_build N_spins Jx Jy Jz self) = Ok (PObj h) /\
               (is_real Jx -> is_real Jy -> is_real Jz -> hermitian h)) /\
  (forall N_sites N_levels (t U : number), (1 <= N_sites)%Z -> (2 <= N_levels)%Z ->
     exists h, fst (BoseHubbard_build N_sites N_levels t U self) = Ok (PObj h) /\
               (is_real t -> is_real U -> hermitian h)) /\
  (forall N (wc wa g : number), (2 <= N)%Z -> within_atol g (conj g) = false ->
     exists h, fst (JaynesCummings_build N wc wa g self) = Ok (PObj h) /\
               isherm h = false).
Proof.
  split; [|split; [|split; [|split; [|split; [|split]]]]].
  - intros N wc wa g HN.
    destruct (JaynesCummings_returns N wc wa g self HN) as (h & E & _ & Hh). eauto.
  - intros N wc wa g HN.
    destruct (RabiModel_returns N wc wa g self HN) as (h & E & _ & Hh). eauto.
  - intros Na Nc wc wa g Ha Hc.
    destruct (TavisCummings_returns Na Nc wc wa g self Ha Hc) as (h & E & _ & Hh). eauto.
  - intros Na Nc wc wa g Ha Hc.
    destruct (DickeModel_returns Na Nc wc wa g self Ha Hc) as (h & E & _ & Hh). eauto.
  - intros N Jx Jy Jz HN.
    destruct (Heisenberg_returns N Jx Jy Jz self HN) as (h & E & _ & Hh). eauto.
  - intros Ns Nl t U Hs Hl.
    destruct (BoseHubbard_returns Ns Nl t U self Hs Hl) as (h & E & _ & Hh). eauto.
  - intros N wc wa g HN Hg.
    rewrite (fst_eq _ _ _ (JaynesCummings_build_ok N wc wa g self HN)).
    eexists. split; [reflexivity|].
    apply JaynesCummings_op_isherm_false; [lia|exact Hg].
Qed.

(** C4, as amended.  With one atom and the same [N], [wc], [wa], [g], the
    Tavis-Cummings and the Jaynes-Cummings builders return operators over
    the same subsystems; the first is the second plus [wa] times the
    offset of the atomic terms on the atom, [diag(1/2, -3/2)], so the two
    are equal exactly when [wa] is zero. *)
Theorem tavis_single_atom (self : HamiltonianBase) (N : Z) (wc wa g : number) :
  (2 <= N)%Z ->
  exists hT hJ,
    fst (TavisCummings_build 1 N wc wa g self) = Ok (PObj hT) /\
    fst (JaynesCummings_build N wc wa g self) = Ok (PObj hJ) /\
    dims hT = dims hJ /\ shape hT = shape hJ /\
    qeq hT (qadd hJ (qscale wa (kron (eye (Z.to_nat N)) atomic_offset))) /\
    (qeq hT hJ <-> value wa = c0).
Proof.
  intros HN.
  rewrite (fst_eq _ _ _ (TavisCummings_build_ok 1 N wc wa g self ltac:(lia) HN)).
  rewrite (fst_eq _ _ _ (JaynesCummings_build_ok N wc wa g self HN)).
  change (Z.to_nat 1) with 1%nat.
  pose proof (TavisCummings_single_offset (Z.to_nat N) wc wa g) as E.
  rewrite TavisCummings_op_single in *. cbv zeta in *.
  eexists. eexists. split; [reflexivity|]. split; [reflexivity|].
  split; [reflexivity|]. split; [reflexivity|]. split; [exact E|].
  rewrite <- (offset_vanishes (Z.to_nat N) (JaynesCummings_op (Z.to_nat N) wc wa g))
    by (try reflexivity; lia).
  split; intros E'.
  - now rewrite <- E.
  - now rewrite E.
Qed.

(** C5.  The Heisenberg builder with 3 spins and unit couplings raises
    nothing and returns an 8 by 8 Hermitian operator, the sum of the two
    nearest-neighbour couplings written as joint embeddings. *)
Theorem heisenberg_three_spins (self : HamiltonianBase) :
  exists h,
    fst (HeisenbergSpinChain_build 3 (float c1) (float c1) (float c1) self) =
    Ok (PObj h) /\
    dims h = [2; 2; 2]%nat /\
    get_shape (PObj h) = Ok (8, 8)%nat /\
    hermitian h /\
    qeq h (qadd (Heisenberg_coupling_spec 3 c1 c1 c1 0)
                (Heisenberg_coupling_spec 3 c1 c1 c1 1)).
Proof.
  rewrite (fst_eq _ _ _ (HeisenbergSpinChain_build_ok 3 (float c1) (float c1)
                           (float c1) self)).
  change (Z.to_nat 3) with 3%nat. cbn [value float].
  exists (qadd (Heisenberg_term_op 3 c1 c1 c1 0) (Heisenberg_term_op 3 c1 c1 c1 1)).
  split; [reflexivity|].
  assert (Hp : forall n, (n + 1 < 3)%nat ->
               herm_over (repeat 2%nat 3) (Heisenberg_term_op 3 c1 c1 c1 n)).
  { intros n Hn. apply Heisenberg_term_op_herm; try assumption; apply conj_1. }
  destruct (Hp 0%nat ltac:(lia)) as (Hd0 & Hs0 & Hh0).
  destruct (Hp 1%nat ltac:(lia)) as (Hd1 & Hs1 & Hh1).
  split; [exact Hd0|]. split.
  - cbn [get_shape shape qadd]. now rewrite Hs0.
  - split.
    + apply hermitian_qadd; [congruence|assumption|assumption].
    + apply qeq_qadd; [congruence| |]; apply Heisenberg_term_refines; lia.
Qed.

(** C6.  The Bose-Hubbard builder with 3 sites and 2 levels returns an 8
    by 8 operator; with [t = 0] the returned operator is diagonal in the
    occupation basis and commutes with the number operator of every
    site. *)
Theorem bose_hubbard_no_hopping (self : HamiltonianBase) :
  (exists h, fst (BoseHubbard_build 3 2 (float c1) (float (c1 + c1)) self) =
             Ok (PObj h) /\
             dims h = [2; 2; 2]%nat /\
             get_shape (PObj h) = Ok (8, 8)%nat) /\
  (forall N_sites N_levels (t U : number) i,
     (1 <= N_sites)%Z -> (2 <= N_levels)%Z -> (i < Z.to_nat N_sites)%nat ->
     value t = c0 ->
     exists h, fst (BoseHubbard_build N_sites N_levels t U self) = Ok (PObj h) /\
               diagonal h /\
               commute h (site_number (Z.to_nat N_levels) (Z.to_nat N_sites) i)).
Proof.
  split.
  - destruct (BoseHubbard_returns 3 2 (float c1) (float (c1 + c1)) self
                ltac:(lia) ltac:(lia))
      as (h & E & (Hd & Hs) & _).
    exists h. split; [exact E|]. split; [exact Hd|].
    cbn [get_shape]. now rewrite Hs.
  - intros Ns Nl t U i Hs Hl Hi Ht.
    rewrite (fst_eq _ _ _ (BoseHubbard_build_ok Ns Nl t U self Hl)). rewrite Ht.
    destruct (BoseHubbard_op_diag (Z.to_nat Nl) (Z.to_nat Ns) U ltac:(lia))
      as (h & -> & Hd & Hsh & Hdiag).
    exists h. split; [reflexivity|]. split; [exact Hdiag|].
    apply commute_diagonal.
    + rewrite Hd. cbn. symmetry. apply site_op_dims; [lia|split; reflexivity].
    + rewrite Hsh. cbn. symmetry. apply site_op_shape; [lia|split; reflexivity].
    + exact Hdiag.
    + now apply diagonal_site_number.
Qed.

(** C7.  The shape of a tensor product is the product of the dimensions
    of its subsystems; the Jaynes-Cummings and Rabi builders with
    [N = 5] return operators of shape 10 by 10. *)
Theorem total_dimension_is_product (self : HamiltonianBase) :
  (forall qs q, tensor qs = Ok q -> Forall well_shaped qs ->
     dims q = List.concat (map dims qs) /\
     shape q = total_dimension (dims q)) /\
  (forall wc wa g,
     exists h, fst (JaynesCummings_build 5 wc wa g self) = Ok (PObj h) /\
               dims h = [5; 2]%nat /\ get_shape (PObj h) = Ok (10, 10)%nat) /\
  (forall wc wa g,
     exists h, fst (RabiModel_build 5 wc wa g self) = Ok (PObj h) /\
               dims h = [5; 2]%nat /\ get_shape (PObj h) = Ok (10, 10)%nat).
Proof.
  split; [|split].
  - intros qs q E HF. split.
    + destruct qs as [|a l]; [discriminate|].
      cbn in E. injection E as <-. apply (tensor_op_dims (a :: l)).
    + now apply (well_shaped_tensor qs).
  - intros wc wa g.
    rewrite (fst_eq _ _ _ (JaynesCummings_build_ok 5 wc wa g self ltac:(lia))).
    eexists. split; [reflexivity|]. split; reflexivity.
  - intros wc wa g.
    rewrite (fst_eq _ _ _ (RabiModel_build_ok 5 wc wa g self ltac:(lia))).
    eexists. split; [reflexivity|]. split; reflexivity.
Qed.

Lemma heisenberg_product_joint (m n : nat) (l : list Qobj) (A : Qobj) :
  l = map (fun k => site_op 2 m k A) (seq 0 m) ->
  (n + 1 < m)%nat -> local 2 A ->
  exists p, (item l n .* item l (n + 1))%py = Ok (PObj p) /\
            qeq p (embed2_op (repeat 2%nat m) n A (n + 1) A).
Proof.
  intros -> Hn HA. rewrite !item_map_seq by lia.
  cbn [lift2 bind py_mul].
  rewrite !site_op_dims by (assumption || lia). rewrite dims_eqb_refl.
  eexists. split; [reflexivity|].
  apply embed_op_mul; [lia| |]; apply local_at_site; (lia || assumption).
Qed.

(** C8.  Embedding [A] at index [i] and multiplying by the embedding of
    [B] at another index [j] gives the joint embedding of [A] at [i] and
    [B] at [j]; the products [sx_list[n] * sx_list[n+1]] (and those for
    [sy], [sz]) of the Heisenberg builder are such joint embeddings. *)
Theorem embed_single_compose_joint :
  (forall ds i j A B,
     i <> j -> (i < List.length ds)%nat -> (j < List.length ds)%nat ->
     local (nth i ds 0%nat) A -> local (nth j ds 0%nat) B ->
     exists ea eb ej p,
       embed_single ds i A = Ok ea /\
       embed_single ds j B = Ok eb /\
       embed_joint ds i A j B = Ok ej /\
       py_mul (PObj ea) (PObj eb) = Ok (PObj p) /\
       qeq p ej) /\
  (forall N n sx_list sy_list sz_list,
     (si <- qeye 2 ;;
      foldM (Heisenberg_step N si) (range N) ([], [], [])) =
     Ok (sx_list, sy_list, sz_list) ->
     (n + 1 < Z.to_nat N)%nat ->
     let ds := repeat 2%nat (Z.to_nat N) in
     (exists p, (item sx_list n .* item sx_list (n + 1))%py = Ok (PObj p) /\
                qeq p (embed2_op ds n sigmax (n + 1) sigmax)) /\
     (exists p, (item sy_list n .* item sy_list (n + 1))%py = Ok (PObj p) /\
                qeq p (embed2_op ds n sigmay (n + 1) sigmay)) /\
     (exists p, (item sz_list n .* item sz_list (n + 1))%py = Ok (PObj p) /\
                qeq p (embed2_op ds n sigmaz (n + 1) sigmaz))).
Proof.
  split.
  - intros ds i j A B Hne Hi Hj HA HB.
    exists (embed_op ds i A), (embed_op ds j B), (embed2_op ds i A j B),
           (qmul (embed_op ds i A) (embed_op ds j B)).
    split; [now apply embed_single_ok|].
    split; [now apply embed_single_ok|].
    split; [now apply embed_joint_ok|].
    split; [now apply py_mul_embed|].
    now apply embed_op_mul.
  - intros N n lx ly lz E Hn ds.
    change (qeye 2) with (Ok (eye 2)) in E. cbn [bind] in E. unfold range in E.
    rewrite (Heisenberg_lists_ok N (Z.to_nat N) 0) in E by lia.
    cbn [app] in E. injection E as <- <- <-.
    repeat split; apply heisenberg_product_joint;
      try reflexivity; try assumption; split; reflexivity.
Qed.

(** C9, as amended.  A builder is deterministic but not pure.  What it
    returns is determined by its arguments: it does not depend on the
    state of the object it is called on, so two calls with the same
    arguments return the same Hamiltonian, also when the second call is
    made on the object the first one left behind.  But every call writes
    to the object: [self.params] becomes the dictionary of the arguments,
    and [self.H] the value returned (it is left as it was when the call
    raises). *)
Theorem builders_deterministic (s1 s2 : HamiltonianBase) :
  (forall N wc wa g,
     let r := JaynesCummings_build N wc wa g s1 in
     fst r = fst (JaynesCummings_build N wc wa g s2) /\
     fst (JaynesCummings_build N wc wa g (snd r)) = fst r /\
     params (snd r) = [("N", PInt N); ("wc", PNum wc); ("wa", PNum wa); ("g", PNum g)] /\
     H (snd r) = H_after (fst r) s1) /\
  (forall N wc wa g,
     let r := RabiModel_build N wc wa g s1 in
     fst r = fst (RabiModel_build N wc wa g s2) /\
     fst (RabiModel_build N wc wa g (snd r)) = fst r /\
     params (snd r) = [("N", PInt N); ("wc", PNum wc); ("wa", PNum wa); ("g", PNum g)] /\
     H (snd r) = H_after (fst r) s1) /\
  (forall N_atoms N_cavity wc wa g,
     let r := TavisCummings_build N_atoms N_cavity wc wa g s1 in
     fst r = fst (TavisCummings_build N_atoms N_cavity wc wa g s2) /\
     fst (TavisCummings_build N_atoms N_cavity wc wa g (snd r)) = fst r /\
     params (snd r) = [("N_atoms", PInt N_atoms); ("N_cavity", PInt N_cavity);
                       ("wc", PNum wc); ("wa", PNum wa); ("g", PNum g)] /\
     H (snd r) = H_after (fst r) s1) /\
  (forall N_atoms N_cavity wc wa g,
     let r := DickeModel_build N_atoms N_cavity wc wa g s1 in
     fst r = fst (DickeModel_build N_atoms N_cavity wc wa g s2) /\
     fst (DickeModel_build N_atoms N_cavity wc wa g (snd r)) = fst r /\
     params (snd r) = [("N_atoms", PInt N_atoms); ("N_cavity", PInt N_cavity);
                       ("wc", PNum wc); ("wa", PNum wa); ("g", PNum g)] /\
     H (snd r) = H_after (fst r) s1) /\
  (forall N_spins Jx Jy Jz,
     let r := HeisenbergSpinChain_build N_spins Jx Jy Jz s1 in
     fst r = fst (HeisenbergSpinChain_build N_spins Jx Jy Jz s2) /\
     fst (HeisenbergSpinChain_build N_spins Jx Jy Jz (snd r)) = fst r /\
     params (snd r) = [("N_spins", PInt N_spins); ("Jx", PNum Jx); ("Jy", PNum Jy);
                       ("Jz", PNum Jz)] /\
     H (snd r) = H_after (fst r) s1) /\
  (forall N_sites N_levels t U,
     let r := BoseHubbard_build N_sites N_levels t U s1 in
     fst r = fst (BoseHubbard_build N_sites N_levels t U s2) /\
     fst (BoseHubbard_build N_sites N_levels t U (snd r)) = fst r /\
     params (snd r) = [("N_sites", PInt N_sites); ("N_levels", PInt N_levels);
                       ("t", PNum t); ("U", PNum U)] /\
     H (snd r) = H_after (fst r) s1).
Proof.
  split; [|split; [|split; [|split; [|split]]]].
  - intros N wc wa g r. subst r.
    destruct (JaynesCummings_build_state N wc wa g s1) as (_ & Ep & EH).
    repeat split; [apply JaynesCummings_build_indep..|exact Ep|exact EH].
  - intros N wc wa g r. subst r.
    destruct (RabiModel_build_state N wc wa g s1) as (_ & Ep & EH).
    repeat split; [apply RabiModel_build_indep..|exact Ep|exact EH].
  - intros Na Nc wc wa g r. subst r.
    destruct (TavisCummings_build_state Na Nc wc wa g s1) as (_ & Ep & EH).
    repeat split; [apply TavisCummings_build_indep..|exact Ep|exact EH].
  - intros Na Nc wc wa g r. subst r.
    destruct (DickeModel_build_state Na Nc wc wa g s1) as (_ & Ep & EH).
    repeat split; [apply DickeModel_build_indep..|exact Ep|exact EH].
  - intros N Jx Jy Jz r. subst r.
    destruct (HeisenbergSpinChain_build_state N Jx Jy Jz s1) as (_ & Ep & EH).
    repeat split; [apply HeisenbergSpinChain_build_indep..|exact Ep|exact EH].
  - intros Ns Nl t U r. subst r.
    destruct (BoseHubbard_build_state Ns Nl t U s1) as (_ & Ep & EH).
    repeat split; [apply BoseHubbard_build_indep..|exact Ep|exact EH].
Qed.

(** C10, as amended.  Before [build] has run ([self.H] is [None]),
    [to_json] returns the record with the name, the encodings of the
    stored parameter values under their keys and null for [matrix_shape]
    and [is_hermitian], provided every stored value is one [json.dumps]
    accepts; one value it rejects makes [to_json] raise [TypeError].  The
    rejected values are the [complex] numbers, whatever their imaginary
    part, and the operators.  The object [__init__] makes without
    parameters has none. *)
Theorem to_json_before_build_serializable :
  (forall self, H self = PNone ->
     Forall (fun kv => serializable (snd kv)) (params self) ->
     exists js,
       to_json self = Ok (JObj [("model_name", JStr (name self));
                                ("parameters", JObj js);
                                ("matrix_shape", JNull);
                                ("is_hermitian", JNull)]) /\
       json_image (params self) js) /\
  (forall self, H self = PNone ->
     Exists (fun kv => rejected (snd kv)) (params self) ->
     to_json self = Raise TypeError) /\
  (forall v, serializable v <-> ~ rejected v) /\
  (forall nm,
     to_json (HamiltonianBase_init nm None) =
     Ok (JObj [("model_name", JStr nm); ("parameters", JObj []);
               ("matrix_shape", JNull); ("is_hermitian", JNull)])).
Proof.
  split; [|split; [|split]].
  - intros self HH HF. now apply to_json_before_build.
  - intros self HH HE. apply to_json_params_raise; [now left|].
    now apply json_params_rejected.
  - apply serializable_iff.
  - intros nm. reflexivity.
Qed.
End Claims.

(** * Further properties of the code *)

Section Properties.

Context {Sc : Scalar}.
Local Open Scope C_scope.
Local Open Scope string_scope.

(** X1.  For valid dimensions each builder returns an operator over the
    subsystems of its model, and the matrix has their product as size. *)
Theorem builders_hilbert_space (self : HamiltonianBase) :
  (forall N wc wa g, (2 <= N)%Z ->
     exists h, fst (JaynesCummings_build N wc wa g self) = Ok (PObj h) /\
               dims h = [Z.to_nat N; 2%nat] /\
               shape h = (Z.to_nat N * 2)%nat) /\
  (forall N wc wa g, (2 <= N)%Z ->
     exists h, fst (RabiModel_build N wc wa g self) = Ok (PObj h) /\
               dims h = [Z.to_nat N; 2%nat] /\
               shape h = (Z.to_nat N * 2)%nat) /\
  (forall N_atoms N_cavity wc wa g, (1 <= N_atoms)%Z -> (2 <= N_cavity)%Z ->
     exists h, fst (TavisCummings_build N_atoms N_cavity wc wa g self) = Ok (PObj h) /\
               dims h = Z.to_nat N_cavity :: repeat 2%nat (Z.to_nat N_atoms) /\
               shape h = (Z.to_nat N_cavity * 2 ^ Z.to_nat N_atoms)%nat) /\
  (forall N_atoms N_cavity wc wa g, (1 <= N_atoms)%Z -> (2 <= N_cavity)%Z ->
     exists h, fst (DickeModel_build N_atoms N_cavity wc wa g self) = Ok (PObj h) /\
               dims h = [Z.to_nat N_cavity; (Z.to_nat N_atoms + 1)%nat] /\
               shape h = (Z.to_nat N_cavity * (Z.to_nat N_atoms + 1))%nat) /\
  (forall N_spins Jx Jy Jz, (2 <= N_spins)%Z ->
     exists h, fst (HeisenbergSpinChain_build N_spins Jx Jy Jz self) = Ok (PObj h) /\
               dims h = repeat 2%nat (Z.to_nat N_spins) /\
               shape h = (2 ^ Z.to_nat N_spins)%nat) /\
  (forall N_sites N_levels t U, (1 <= N_sites)%Z -> (2 <= N_levels)%Z ->
     exists h, fst (BoseHubbard_build N_sites N_levels t U self) = Ok (PObj h) /\
               dims h = repeat (Z.to_nat N_levels) (Z.to_nat N_sites) /\
               shape h = (Z.to_nat N_levels ^ Z.to_nat N_sites)%nat).
Proof.
  split; [|split; [|split; [|split; [|split]]]].
  - intros N wc wa g HN.
    destruct (JaynesCummings_returns N wc wa g self HN) as (h & E & (Hd & Hs) & _).
    exists h. rewrite total_dimension_pair in Hs. auto.
  - intros N wc wa g HN.
    destruct (RabiModel_returns N wc wa g self HN) as (h & E & (Hd & Hs) & _).
    exists h. rewrite total_dimension_pair in Hs. auto.
  - intros Na Nc wc wa g Ha Hc.
    destruct (TavisCummings_returns Na Nc wc wa g self Ha Hc) as (h & E & (Hd & Hs) & _).
    exists h. rewrite total_dimension_TavisCummings_space in Hs. auto.
  - intros Na Nc wc wa g Ha Hc.
    destruct (DickeModel_returns Na Nc wc wa g self Ha Hc) as (h & E & (Hd & Hs) & _).
    exists h. rewrite total_dimension_pair in Hs. auto.
  - intros N Jx Jy Jz HN.
    destruct (Heisenberg_returns N Jx Jy Jz self HN) as (h & E & (Hd & Hs) & _).
    exists h. rewrite total_dimension_repeat in Hs. auto.
  - intros Ns Nl t U Hs Hl.
    destruct (BoseHubbard_returns Ns Nl t U self Hs Hl) as (h & E & (Hd & Hsh) & _).
    exists h. rewrite total_dimension_repeat in Hsh. auto.
Qed.

(** X2.  Whatever the arguments, and whether it returns or raises, a
    builder keeps the name, replaces the parameters by its arguments, and
    leaves in [self.H] the value it returned, or the earlier value when it
    raised. *)
Theorem build_updates_state (self : HamiltonianBase) :
  (forall N wc wa g,
     let r := JaynesCummings_build N wc wa g self in
     name (snd r) = name self /\
     params (snd r) = [("N", PInt N); ("wc", PNum wc); ("wa", PNum wa); ("g", PNum g)] /\
     H (snd r) = H_after (fst r) self) /\
  (forall N wc wa g,
     let r := RabiModel_build N wc wa g self in
     name (snd r) = name self /\
     params (snd r) = [("N", PInt N); ("wc", PNum wc); ("wa", PNum wa); ("g", PNum g)] /\
     H (snd r) = H_after (fst r) self) /\
  (forall N_atoms N_cavity wc wa g,
     let r := TavisCummings_build N_atoms N_cavity wc wa g self in
     name (snd r) = name self /\
     params (snd r) = [("N_atoms", PInt N_atoms); ("N_cavity", PInt N_cavity);
                       ("wc", PNum wc); ("wa", PNum wa); ("g", PNum g)] /\
     H (snd r) = H_after (fst r) self) /\
  (forall N_atoms N_cavity wc wa g,
     let r := DickeModel_build N_atoms N_cavity wc wa g self in
     name (snd r) = name self /\
     params (snd r) = [("N_atoms", PInt N_atoms); ("N_cavity", PInt N_cavity);
                       ("wc", PNum wc); ("wa", PNum wa); ("g", PNum g)] /\
     H (snd r) = H_after (fst r) self) /\
  (forall N_spins Jx Jy Jz,
     let r := HeisenbergSpinChain_build N_spins Jx Jy Jz self in
     name (snd r) = name self /\
     params (snd r) = [("N_spins", PInt N_spins); ("Jx", PNum Jx); ("Jy", PNum Jy);
                       ("Jz", PNum Jz)] /\
     H (snd r) = H_after (fst r) self) /\
  (forall N_sites N_levels t U,
     let r := BoseHubbard_build N_sites N_levels t U self in
     name (snd r) = name self /\
     params (snd r) = [("N_sites", PInt N_sites); ("N_levels", PInt N_levels);
                       ("t", PNum t); ("U", PNum U)] /\
     H (snd r) = H_after (fst r) self).
Proof.
  split; [|split; [|split; [|split; [|split]]]]; intros.
  - apply JaynesCummings_build_state.
  - apply RabiModel_build_state.
  - apply TavisCummings_build_state.
  - apply DickeModel_build_state.
  - apply HeisenbergSpinChain_build_state.
  - apply BoseHubbard_build_state.
Qed.

(** X3.  With no atom the collective operators of the Tavis-Cummings
    builder are still the integer 0 when the Hamiltonian is assembled, and
    [sm_tot.dag()] raises [AttributeError].  The parameters are already
    replaced and [self.H] is untouched. *)
Theorem tavis_cummings_no_atoms_raises (self : HamiltonianBase)
        (N_cavity : Z) (wc wa g : number) :
  (2 <= N_cavity)%Z ->
  TavisCummings_build 0 N_cavity wc wa g self =
  (Raise AttributeError,
   mkBase (name self)
          [("N_atoms", PInt 0); ("N_cavity", PInt N_cavity);
           ("wc", PNum wc); ("wa", PNum wa); ("g", PNum g)]
          (H self)).
Proof.
  intros Hc.
  unfold TavisCummings_build, mbind, set_params, lift, set_H, mret.
  rewrite (destroy_ok N_cavity) by assumption.
  change (qeye 2) with (Ok (eye 2)).
  change (qeye (2 ^ 0)) with (Ok (eye 1)).
  change (range 0) with (@nil nat). change (list_repeat (eye 2) 0) with (@nil Qobj).
  change (0 <? 0)%Z with false.
  py_eval. reflexivity.
Qed.

(** X4.  With no atom the Dicke builder asks [jmat] for the spin 0 along
    [x], which QuTiP cannot build: it raises [ValueError] before the
    division by [0 ** 0.5] is reached, after the parameters are replaced
    and without touching [self.H]. *)
Theorem dicke_no_atoms_raises (self : HamiltonianBase)
        (N_cavity : Z) (wc wa g : number) :
  (2 <= N_cavity)%Z ->
  DickeModel_build 0 N_cavity wc wa g self =
  (Raise ValueError,
   mkBase (name self)
          [("N_atoms", PInt 0); ("N_cavity", PInt N_cavity);
           ("wc", PNum wc); ("wa", PNum wa); ("g", PNum g)]
          (H self)).
Proof.
  intros Hc.
  unfold DickeModel_build, mbind, set_params, lift, set_H, mret.
  rewrite (destroy_ok N_cavity), (qeye_ok N_cavity) by lia.
  change (qeye (0 + 1)) with (Ok (eye 1)).
  change (jmat 0 AxisZ) with (Ok (jz 0)).
  change (jmat 0 AxisX) with (@Raise Qobj ValueError).
  py_eval. reflexivity.
Qed.

(** X5.  After a build with valid dimensions and couplings that are
    [int] or [float] numbers, [to_json] returns the record of the name,
    the arguments of the build under their keywords, the shape of the
    matrix as a string and [is_hermitian] true. *)
Theorem to_json_after_real_build (self : HamiltonianBase) :
  (forall N (wc wa g : number), (2 <= N)%Z ->
     is_float wc -> is_float wa -> is_float g ->
     to_json (snd (JaynesCummings_build N wc wa g self)) =
     Ok (json_record (name self)
           [("N", JInt N); ("wc", JNum wc); ("wa", JNum wa); ("g", JNum g)]
           (JStr (str_shape (Z.to_nat N * 2, Z.to_nat N * 2)%nat))
           (JBool true))) /\
  (forall N (wc wa g : number), (2 <= N)%Z ->
     is_float wc -> is_float wa -> is_float g ->
     to_json (snd (RabiModel_build N wc wa g self)) =
     Ok (json_record (name self)
           [("N", JInt N); ("wc", JNum wc); ("wa", JNum wa); ("g", JNum g)]
           (JStr (str_shape (Z.to_nat N * 2, Z.to_nat N * 2)%nat))
           (JBool true))) /\
  (forall N_atoms N_cavity (wc wa g : number), (1 <= N_atoms)%Z -> (2 <= N_cavity)%Z ->
     is_float wc -> is_float wa -> is_float g ->
     to_json (snd (TavisCummings_build N_atoms N_cavity wc wa g self)) =
     Ok (json_record (name self)
           [("N_atoms", JInt N_atoms); ("N_cavity", JInt N_cavity);
            ("wc", JNum wc); ("wa", JNum wa); ("g", JNum g)]
           (JStr (str_shape (Z.to_nat N_cavity * 2 ^ Z.to_nat N_atoms,
                             Z.to_nat N_cavity * 2 ^ Z.to_nat N_atoms)%nat))
           (JBool true))) /\
  (forall N_atoms N_cavity (wc wa g : number), (1 <= N_atoms)%Z -> (2 <= N_cavity)%Z ->
     is_float wc -> is_float wa -> is_float g ->
     to_json (snd (DickeModel_build N_atoms N_cavity wc wa g self)) =
     Ok (json_record (name self)
           [("N_atoms", JInt N_atoms); ("N_cavity", JInt N_cavity);
            ("wc", JNum wc); ("wa", JNum wa); ("g", JNum g)]
           (JStr (str_shape (Z.to_nat N_cavity * (Z.to_nat N_atoms + 1),
                             Z.to_nat N_cavity * (Z.to_nat N_atoms + 1))%nat))
           (JBool true))) /\
  (forall N_spins (Jx Jy Jz : number), (2 <= N_spins)%Z ->
     is_float Jx -> is_float Jy -> is_float Jz ->
     to_json (snd (HeisenbergSpinChain_build N_spins Jx Jy Jz self)) =
     Ok (json_record (name self)
           [("N_spins", JInt N_spins); ("Jx", JNum Jx); ("Jy", JNum Jy);
            ("Jz", JNum Jz)]
           (JStr (str_shape (2 ^ Z.to_nat N_spins, 2 ^ Z.to_nat N_spins)%nat))
           (JBool true))) /\
  (forall N_sites N_levels (t U : number), (1 <= N_sites)%Z -> (2 <= N_levels)%Z ->
     is_float t -> is_float U ->
     to_json (snd (BoseHubbard_build N_sites N_levels t U self)) =
     Ok (json_record (name self)
           [("N_sites", JInt N_sites); ("N_levels", JInt N_levels);
            ("t", JNum t); ("U", JNum U)]
           (JStr (str_shape (Z.to_nat N_levels ^ Z.to_nat N_sites,
                             Z.to_nat N_levels ^ Z.to_nat N_sites)%nat))
           (JBool true))).
Proof.
  split; [|split; [|split; [|split; [|split]]]].
  - intros N wc wa g HN [Ewc Hwc] [Ewa Hwa] [Eg Hg].
    destruct (JaynesCummings_returns N wc wa g self HN) as (h & E & (_ & Hs) & Hh).
    destruct (JaynesCummings_build_state N wc wa g self) as (Hn & Hp & HH).
    cbv zeta in *. rewrite E in HH. cbn [H_after] in HH.
    rewrite total_dimension_pair in Hs.
    erewrite (to_json_after_build _ _ _ _ h _ Hn Hp HH Hs) by json_params.
    now rewrite hermitian_isherm by auto.
  - intros N wc wa g HN [Ewc Hwc] [Ewa Hwa] [Eg Hg].
    destruct (RabiModel_returns N wc wa g self HN) as (h & E & (_ & Hs) & Hh).
    destruct (RabiModel_build_state N wc wa g self) as (Hn & Hp & HH).
    cbv zeta in *. rewrite E in HH. cbn [H_after] in HH.
    rewrite total_dimension_pair in Hs.
    erewrite (to_json_after_build _ _ _ _ h _ Hn Hp HH Hs) by json_params.
    now rewrite hermitian_isherm by auto.
  - intros Na Nc wc wa g Ha Hc [Ewc Hwc] [Ewa Hwa] [Eg Hg].
    destruct (TavisCummings_returns Na Nc wc wa g self Ha Hc)
      as (h & E & (_ & Hs) & Hh).
    destruct (TavisCummings_build_state Na Nc wc wa g self) as (Hn & Hp & HH).
    cbv zeta in *. rewrite E in HH. cbn [H_after] in HH.
    rewrite total_dimension_TavisCummings_space in Hs.
    erewrite (to_json_after_build _ _ _ _ h _ Hn Hp HH Hs) by json_params.
    now rewrite hermitian_isherm by auto.
  - intros Na Nc wc wa g Ha Hc [Ewc Hwc] [Ewa Hwa] [Eg Hg].
    destruct (DickeModel_returns Na Nc wc wa g self Ha Hc)
      as (h & E & (_ & Hs) & Hh).
    destruct (DickeModel_build_state Na Nc wc wa g self) as (Hn & Hp & HH).
    cbv zeta in *. rewrite E in HH. cbn [H_after] in HH.
    rewrite total_dimension_pair in Hs.
    erewrite (to_json_after_build _ _ _ _ h _ Hn Hp HH Hs) by json_params.
    now rewrite hermitian_isherm by auto.
  - intros N Jx Jy Jz HN [Ex Hx] [Ey Hy] [Ez Hz].
    destruct (Heisenberg_returns N Jx Jy Jz self HN) as (h & E & (_ & Hs) & Hh).
    destruct (HeisenbergSpinChain_build_state N Jx Jy Jz self) as (Hn & Hp & HH).
    cbv zeta in *. rewrite E in HH. cbn [H_after] in HH.
    rewrite total_dimension_repeat in Hs.
    erewrite (to_json_after_build _ _ _ _ h _ Hn Hp HH Hs) by json_params.
    now rewrite hermitian_isherm by auto.
  - intros Ns Nl t U Hs Hl [Et Ht] [EU HU].
    destruct (BoseHubbard_returns Ns Nl t U self Hs Hl) as (h & E & (_ & Hsh) & Hh).
    destruct (BoseHubbard_build_state Ns Nl t U self) as (Hn & Hp & HH).
    cbv zeta in *. rewrite E in HH. cbn [H_after] in HH.
    rewrite total_dimension_repeat in Hsh.
    erewrite (to_json_after_build _ _ _ _ h _ Hn Hp HH Hsh) by json_params.
    now rewrite hermitian_isherm by auto.
Qed.

(** X6.  A [complex] coupling does not stop a build with valid
    dimensions, but [to_json] raises [TypeError] afterwards, also when the
    imaginary part is zero: the builder has stored the number among the
    parameters. *)
Theorem to_json_after_complex_build (self : HamiltonianBase) :
  (forall N (wc wa g : number), (2 <= N)%Z ->
     is_complex wc = true \/ is_complex wa = true \/ is_complex g = true ->
     let r := JaynesCummings_build N wc wa g self in
     (exists h, fst r = Ok (PObj h)) /\ to_json (snd r) = Raise TypeError) /\
  (forall N (wc wa g : number), (2 <= N)%Z ->
     is_complex wc = true \/ is_complex wa = true \/ is_complex g = true ->
     let r := RabiModel_build N wc wa g self in
     (exists h, fst r = Ok (PObj h)) /\ to_json (snd r) = Raise TypeError) /\
  (forall N_atoms N_cavity (wc wa g : number), (1 <= N_atoms)%Z -> (2 <= N_cavity)%Z ->
     is_complex wc = true \/ is_complex wa = true \/ is_complex g = true ->
     let r := TavisCummings_build N_atoms N_cavity wc wa g self in
     (exists h, fst r = Ok (PObj h)) /\ to_json (snd r) = Raise TypeError) /\
  (forall N_atoms N_cavity (wc wa g : number), (1 <= N_atoms)%Z -> (2 <= N_cavity)%Z ->
     is_complex wc = true \/ is_complex wa = true \/ is_complex g = true ->
     let r := DickeModel_build N_atoms N_cavity wc wa g self in
     (exists h, fst r = Ok (PObj h)) /\ to_json (snd r) = Raise TypeError) /\
  (forall N_spins (Jx Jy Jz : number), (2 <= N_spins)%Z ->
     is_complex Jx = true \/ is_complex Jy = true \/ is_complex Jz = true ->
     let r := HeisenbergSpinChain_build N_spins Jx Jy Jz self in
     (exists h, fst r = Ok (PObj h)) /\ to_json (snd r) = Raise TypeError) /\
  (forall N_sites N_levels (t U : number), (1 <= N_sites)%Z -> (2 <= N_levels)%Z ->
     is_complex t = true \/ is_complex U = true ->
     let r := BoseHubbard_build N_sites N_levels t U self in
     (exists h, fst r = Ok (PObj h)) /\ to_json (snd r) = Raise TypeError).
Proof.
  split; [|split; [|split; [|split; [|split]]]].
  - intros N wc wa g HN Hc.
    destruct (JaynesCummings_returns N wc wa g self HN) as (h & E & _).
    destruct (JaynesCummings_build_state N wc wa g self) as (_ & Hp & HH).
    cbv zeta in *. rewrite E in HH. cbn [H_after] in HH.
    split; [eauto|].
    apply (to_json_after_complex _ _ Hp); [right; right; eauto|].
    now apply (couplings_rejected [_] wc wa g).
  - intros N wc wa g HN Hc.
    destruct (RabiModel_returns N wc wa g self HN) as (h & E & _).
    destruct (RabiModel_build_state N wc wa g self) as (_ & Hp & HH).
    cbv zeta in *. rewrite E in HH. cbn [H_after] in HH.
    split; [eauto|].
    apply (to_json_after_complex _ _ Hp); [right; right; eauto|].
    now apply (couplings_rejected [_] wc wa g).
  - intros Na Nc wc wa g Ha Hc Hn.
    destruct (TavisCummings_returns Na Nc wc wa g self Ha Hc) as (h & E & _).
    destruct (TavisCummings_build_state Na Nc wc wa g self) as (_ & Hp & HH).
    cbv zeta in *. rewrite E in HH. cbn [H_after] in HH.
    split; [eauto|].
    apply (to_json_after_complex _ _ Hp); [right; right; eauto|].
    now apply (couplings_rejected [_; _] wc wa g).
  - intros Na Nc wc wa g Ha Hc Hn.
    destruct (DickeModel_returns Na Nc wc wa g self Ha Hc) as (h & E & _).
    destruct (DickeModel_build_state Na Nc wc wa g self) as (_ & Hp & HH).
    cbv zeta in *. rewrite E in HH. cbn [H_after] in HH.
    split; [eauto|].
    apply (to_json_after_complex _ _ Hp); [right; right; eauto|].
    now apply (couplings_rejected [_; _] wc wa g).
  - intros N Jx Jy Jz HN Hn.
    destruct (Heisenberg_returns N Jx Jy Jz self HN) as (h & E & _).
    destruct (HeisenbergSpinChain_build_state N Jx Jy Jz self) as (_ & Hp & HH).
    cbv zeta in *. rewrite E in HH. cbn [H_after] in HH.
    split; [eauto|].
    apply (to_json_after_complex _ _ Hp); [right; right; eauto|].
    now apply (couplings_rejected [_] Jx Jy Jz).
  - intros Ns Nl t U Hs Hl Hn.
    destruct (BoseHubbard_returns Ns Nl t U self Hs Hl) as (h & E & _).
    destruct (BoseHubbard_build_state Ns Nl t U self) as (_ & Hp & HH).
    cbv zeta in *. rewrite E in HH. cbn [H_after] in HH.
    split; [eauto|].
    apply (to_json_after_complex _ _ Hp); [right; right; eauto|].
    apply Exists_cons_tl, Exists_cons_tl.
    destruct Hn as [Hn|Hn]; [left|right; left]; exact Hn.
Qed.

(** X7.  A chain of at most one spin, or a lattice without sites, leaves
    the integer 0 in [self.H], which is false in [to_json]'s conditions:
    after such a build with couplings that are not [complex], [to_json]
    reports [matrix_shape] and [is_hermitian] null, as if nothing had
    been built. *)
Theorem to_json_after_empty_sum (self : HamiltonianBase) :
  (forall N_spins (Jx Jy Jz : number), (N_spins <= 1)%Z ->
     is_complex Jx = false -> is_complex Jy = false -> is_complex Jz = false ->
     to_json (snd (HeisenbergSpinChain_build N_spins Jx Jy Jz self)) =
     Ok (json_record (name self)
           [("N_spins", JInt N_spins); ("Jx", JNum Jx); ("Jy", JNum Jy);
            ("Jz", JNum Jz)]
           JNull JNull)) /\
  (forall N_sites N_levels (t U : number), (N_sites <= 0)%Z ->
     is_complex t = false -> is_complex U = false ->
     to_json (snd (BoseHubbard_build N_sites N_levels t U self)) =
     Ok (json_record (name self)
           [("N_sites", JInt N_sites); ("N_levels", JInt N_levels);
            ("t", JNum t); ("U", JNum U)]
           JNull JNull)).
Proof.
  split.
  - intros N Jx Jy Jz HN Hx Hy Hz.
    rewrite HeisenbergSpinChain_build_ok, Heisenberg_op_short by lia.
    cbn [snd]. erewrite to_json_unbuilt; [reflexivity|now right|json_params].
  - intros Ns Nl t U HN Ht HU.
    rewrite BoseHubbard_build_no_sites by assumption.
    cbn [snd]. erewrite to_json_unbuilt; [reflexivity|now right|json_params].
Qed.

(** X8.  [plot_energy_levels] tests [self.H is None]: on an object that
    was never built it prints the error line, plots nothing and raises
    nothing; after a build that left the integer 0 in [self.H] the guard
    passes and [self.H.eigenenergies()] raises [AttributeError]; after a
    Jaynes-Cummings build it plots the eigenvalues of the operator under
    a title that carries the name, and prints nothing. *)
Theorem plot_energy_levels_guard (eigenenergies : Qobj -> res (list C)) :
  (forall nm ps,
     plot_energy_levels eigenenergies (HamiltonianBase_init nm ps) =
     Ok [Stdout "Error: Build the Hamiltonian first."]) /\
  (forall self N_spins Jx Jy Jz, (N_spins <= 1)%Z ->
     plot_energy_levels eigenenergies
       (snd (HeisenbergSpinChain_build N_spins Jx Jy Jz self)) =
     Raise AttributeError) /\
  (forall self N_sites N_levels t U, (N_sites <= 0)%Z ->
     plot_energy_levels eigenenergies
       (snd (BoseHubbard_build N_sites N_levels t U self)) =
     Raise AttributeError) /\
  (forall self N (wc wa g : number) energies, (2 <= N)%Z ->
     eigenenergies (JaynesCummings_op (Z.to_nat N) wc wa g) = Ok energies ->
     plot_energy_levels eigenenergies
       (snd (JaynesCummings_build N wc wa g self)) =
     Ok [PltFigure 7 5; PltPlot energies "ro" 4;
         PltTitle ("Energy Spectrum: " ++ name self);
         PltYlabel "Energy (E)"; PltXlabel "Eigenvalue Index";
         PltGrid true "--" (6 # 10); PltShow]).
Proof.
  split; [|split; [|split]].
  - intros nm ps. reflexivity.
  - intros self N Jx Jy Jz HN.
    rewrite HeisenbergSpinChain_build_ok, Heisenberg_op_short by lia.
    reflexivity.
  - intros self Ns Nl t U HN.
    rewrite BoseHubbard_build_no_sites by assumption. reflexivity.
  - intros self N wc wa g energies HN E.
    rewrite JaynesCummings_build_ok by assumption.
    unfold plot_energy_levels. cbn [snd H name get_eigenenergies].
    rewrite E. reflexivity.
Qed.

(** X9.  [self.H] is [None], the integer 0 or an operator: [__init__]
    makes it so and every builder keeps it so, for all arguments and
    whether the builder returns or raises. *)
Theorem stored_hamiltonian_invariant :
  (forall nm ps, stored_hamiltonian (H (HamiltonianBase_init nm ps))) /\
  (forall self, stored_hamiltonian (H self) ->
     (forall N wc wa g,
        stored_hamiltonian (H (snd (JaynesCummings_build N wc wa g self)))) /\
     (forall N wc wa g,
        stored_hamiltonian (H (snd (RabiModel_build N wc wa g self)))) /\
     (forall N_atoms N_cavity wc wa g,
        stored_hamiltonian
          (H (snd (TavisCummings_build N_atoms N_cavity wc wa g self)))) /\
     (forall N_atoms N_cavity wc wa g,
        stored_hamiltonian
          (H (snd (DickeModel_build N_atoms N_cavity wc wa g self)))) /\
     (forall N_spins Jx Jy Jz,
        stored_hamiltonian
          (H (snd (HeisenbergSpinChain_build N_spins Jx Jy Jz self)))) /\
     (forall N_sites N_levels t U,
        stored_hamiltonian
          (H (snd (BoseHubbard_build N_sites N_levels t U self))))).
Proof.
  split; [intros nm ps; now left|].
  intros self Hself.
  split; [|split; [|split; [|split; [|split]]]].
  - intros N wc wa g.
    destruct (JaynesCummings_build_state N wc wa g self) as (_ & _ & ->).
    destruct (fst _) as [v|e] eqn:E; cbn [H_after]; [|assumption].
    right. right. now apply JaynesCummings_build_value in E.
  - intros N wc wa g.
    destruct (RabiModel_build_state N wc wa g self) as (_ & _ & ->).
    destruct (fst _) as [v|e] eqn:E; cbn [H_after]; [|assumption].
    right. right. now apply RabiModel_build_value in E.
  - intros Na Nc wc wa g.
    destruct (TavisCummings_build_state Na Nc wc wa g self) as (_ & _ & ->).
    destruct (fst _) as [v|e] eqn:E; cbn [H_after]; [|assumption].
    right. right. now apply TavisCummings_build_value in E.
  - intros Na Nc wc wa g.
    destruct (DickeModel_build_state Na Nc wc wa g self) as (_ & _ & ->).
    destruct (fst _) as [v|e] eqn:E; cbn [H_after]; [|assumption].
    right. right. now apply DickeModel_build_value in E.
  - intros N Jx Jy Jz.
    destruct (HeisenbergSpinChain_build_state N Jx Jy Jz self) as (_ & _ & ->).
    destruct (fst _) as [v|e] eqn:E; cbn [H_after]; [|assumption].
    now apply HeisenbergSpinChain_build_value in E.
  - intros Ns Nl t U.
    destruct (BoseHubbard_build_state Ns Nl t U self) as (_ & _ & ->).
    destruct (fst _) as [v|e] eqn:E; cbn [H_after]; [|assumption].
    now apply BoseHubbard_build_value in E.
Qed.

(** X10.  On an object whose [self.H] is [None], the integer 0 or an
    operator, [to_json] raises exactly when some stored parameter value
    is a [complex] number or an operator, it returns exactly when none
    is, and the only exception it raises is [TypeError]. *)
Theorem to_json_raises_only_type_error (self : HamiltonianBase) :
  stored_hamiltonian (H self) ->
  (to_json self = Raise TypeError <->
   Exists (fun kv => rejected (snd kv)) (params self)) /\
  ((exists j, to_json self = Ok j) <->
   Forall (fun kv => ~ rejected (snd kv)) (params self)) /\
  (forall e, to_json self = Raise e -> e = TypeError).
Proof.
  intros Hself.
  assert (HF : Forall (fun kv => serializable (snd kv)) (params self) <->
               Forall (fun kv => ~ rejected (snd kv)) (params self)).
  { rewrite !Forall_forall. split; intros HA kv Hin; apply serializable_iff; auto. }
  destruct (json_params_cases (params self)) as [[js E]|E].
  - assert (Hok : exists j, to_json self = Ok j).
    { destruct Hself as [HH|[HH|(q & HH)]].
      + rewrite (to_json_unbuilt self js) by auto. eauto.
      + rewrite (to_json_unbuilt self js) by auto. eauto.
      + rewrite (to_json_built self q js) by auto. eauto. }
    split; [|split].
    + split.
      * intros Er. destruct Hok as [j Ej]. congruence.
      * intros HE. apply json_params_rejected in HE. congruence.
    + split; [intros _; apply HF; now apply (json_params_serializable _ js)|auto].
    + intros e Ee. destruct Hok as [j Ej]. congruence.
  - pose proof (to_json_params_raise self TypeError Hself E) as Er.
    split; [|split].
    + split; [intros _; now apply json_params_rejected|auto].
    + split.
      * intros [j Ej]. congruence.
      * intros HA. apply HF in HA.
        destruct (json_params_ok _ HA) as (js & E' & _). congruence.
    + intros e Ee. congruence.
Qed.

(** X11.  For any number of spins from 2 on and any couplings, the
    Heisenberg builder returns the operator over [N_spins] two-level
    systems whose entries are those of the nearest-neighbour couplings
    [Jx sx_n sx_(n+1) + Jy sy_n sy_(n+1) + Jz sz_n sz_(n+1)], summed over
    [n = 0 .. N_spins - 2]. *)
Theorem heisenberg_sum_of_couplings (self : HamiltonianBase)
        (N_spins : Z) (Jx Jy Jz : number) :
  (2 <= N_spins)%Z ->
  let m := Z.to_nat N_spins in
  exists h, fst (HeisenbergSpinChain_build N_spins Jx Jy Jz self) = Ok (PObj h) /\
            dims h = repeat 2%nat m /\ shape h = (2 ^ m)%nat /\
            forall i j, (i < 2 ^ m)%nat -> (j < 2 ^ m)%nat ->
              data h i j =
              csum (m - 1)
                   (fun n => data (Heisenberg_coupling_spec m Jx Jy Jz n) i j).
Proof.
  intros HN m.
  rewrite (fst_eq _ _ _ (HeisenbergSpinChain_build_ok N_spins Jx Jy Jz self)).
  fold m.
  destruct (Heisenberg_op_entries m Jx Jy Jz) as (h & -> & Hh); [lia|].
  exists h. split; [reflexivity|exact Hh].
Qed.

(** X12.  With two levels per site the on-site interaction
    [0.5 * U * a.dag() * a.dag() * a * a] has no entries: the operator the
    Bose-Hubbard builder returns does not depend on [U]. *)
Theorem bose_hubbard_two_levels_ignores_U (self : HamiltonianBase)
        (N_sites : Z) (t U U' : number) :
  (1 <= N_sites)%Z ->
  exists h h',
    fst (BoseHubbard_build N_sites 2 t U self) = Ok (PObj h) /\
    fst (BoseHubbard_build N_sites 2 t U' self) = Ok (PObj h') /\
    qeq h h'.
Proof.
  intros HN.
  rewrite (fst_eq _ _ _ (BoseHubbard_build_ok N_sites 2 t U self ltac:(lia))).
  rewrite (fst_eq _ _ _ (BoseHubbard_build_ok N_sites 2 t U' self ltac:(lia))).
  change (Z.to_nat 2) with 2%nat.
  destruct (BoseHubbard_op_two_levels (Z.to_nat N_sites) t U U')
    as (h & h' & -> & -> & E); [lia|].
  exists h, h'. auto.
Qed.

(** X13.  With one atom the Tavis-Cummings builder returns the operator
    the Jaynes-Cummings builder returns for the opposite atomic frequency,
    shifted by [0.5 * wa] times the identity: the two builders count the
    energy of the atom from opposite states of [destroy(2)]. *)
Theorem tavis_single_atom_is_shifted_jaynes_cummings (self : HamiltonianBase)
        (N : Z) (wc wa g : number) :
  (2 <= N)%Z ->
  exists hT hJ,
    fst (TavisCummings_build 1 N wc wa g self) = Ok (PObj hT) /\
    fst (JaynesCummings_build N wc (nopp wa) g self) = Ok (PObj hJ) /\
    qeq hT (qadd hJ (qscale (chalf * wa) (kron (eye (Z.to_nat N)) (eye 2)))).
Proof.
  intros HN.
  rewrite (fst_eq _ _ _ (TavisCummings_build_ok 1 N wc wa g self ltac:(lia) HN)).
  rewrite (fst_eq _ _ _ (JaynesCummings_build_ok N wc (nopp wa) g self HN)).
  change (Z.to_nat 1) with 1%nat.
  pose proof (TavisCummings_single_shift (Z.to_nat N) wc wa g) as E.
  rewrite TavisCummings_op_single in *. cbv zeta in *.
  eexists. eexists. split; [reflexivity|]. split; [reflexivity|]. exact E.
Qed.

(** X14.  With one atom the Dicke builder returns the operator the Rabi
    builder returns for half the coupling, where the divisions [1 / 2]
    and [g / 1] of the Dicke builder are exact. *)
Theorem dicke_single_atom_is_rabi (self : HamiltonianBase)
        (N : Z) (wc wa g : number) :
  (2 <= N)%Z ->
  cdiv (cofZ 1) (c1 + c1) = chalf -> cdiv g c1 = g ->
  exists hD hR,
    fst (DickeModel_build 1 N wc wa g self) = Ok (PObj hD) /\
    fst (RabiModel_build N wc wa (nmul (float chalf) g) self) = Ok (PObj hR) /\
    qeq hD hR.
Proof.
  intros HN Hh Hg.
  rewrite (fst_eq _ _ _ (DickeModel_build_ok 1 N wc wa g self ltac:(lia) HN)).
  rewrite (fst_eq _ _ _ (RabiModel_build_ok N wc wa (nmul (float chalf) g) self HN)).
  eexists. eexists. split; [reflexivity|]. split; [reflexivity|].
  now apply DickeModel_single.
Qed.

(** X15.  The operator the Jaynes-Cummings builder returns commutes with
    the number of quanta (photons plus atomic excitation): the coupling
    of the rotating-wave approximation only exchanges a photon against an
    excitation of the atom. *)
Theorem jaynes_cummings_conserves_quanta (self : HamiltonianBase)
        (N : Z) (wc wa g : number) :
  (2 <= N)%Z ->
  exists h, fst (JaynesCummings_build N wc wa g self) = Ok (PObj h) /\
            commute h (excitation_number (Z.to_nat N)).
Proof.
  intros HN.
  rewrite (fst_eq _ _ _ (JaynesCummings_build_ok N wc wa g self HN)).
  eexists. split; [reflexivity|]. apply JaynesCummings_op_conserves.
Qed.

(** X16.  How far the operator the Jaynes-Cummings builder returns is
    from its adjoint: the operator minus its adjoint is the
    Jaynes-Cummings operator of the couplings minus their conjugates,
    twice their imaginary parts.  It has no entry when the couplings are
    real. *)
Theorem jaynes_cummings_minus_adjoint (self : HamiltonianBase)
        (N : Z) (wc wa g : number) :
  (2 <= N)%Z ->
  exists h, fst (JaynesCummings_build N wc wa g self) = Ok (PObj h) /\
            qeq (qadd h (qscale (- c1) (qdag h)))
                (JaynesCummings_op (Z.to_nat N) (wc - conj wc) (wa - conj wa)
                                   (g - conj g)).
Proof.
  intros HN.
  rewrite (fst_eq _ _ _ (JaynesCummings_build_ok N wc wa g self HN)).
  eexists. split; [reflexivity|].
  apply JaynesCummings_op_minus_adjoint.
Qed.

(** X17.  With at least two photon levels and a coupling that is not
    zero, the operator the Rabi builder returns does not commute with the
    number of quanta: its counter-rotating terms create or destroy two
    quanta at once. *)
Theorem rabi_does_not_conserve_quanta (self : HamiltonianBase)
        (N : Z) (wc wa g : number) :
  (2 <= N)%Z -> value g <> c0 ->
  exists h, fst (RabiModel_build N wc wa g self) = Ok (PObj h) /\
            ~ commute h (excitation_number (Z.to_nat N)).
Proof.
  intros HN Hg.
  rewrite (fst_eq _ _ _ (RabiModel_build_ok N wc wa g self ltac:(lia))).
  eexists. split; [reflexivity|].
  apply RabiModel_op_not_conserved; [lia|assumption].
Qed.

(** X18.  A build that raises has already replaced the parameters but has
    not touched [self.H]: after a Tavis-Cummings or Dicke build that
    succeeded, a second build with no atom raises, and [to_json] then
    reports the parameters of the failed build with the shape and the
    [isherm] of the operator of the first one. *)
Theorem to_json_after_failed_rebuild (self : HamiltonianBase) :
  (forall N_atoms N_cavity (wc wa g : number) N_cavity' (wc' wa' g' : number),
     (1 <= N_atoms)%Z -> (2 <= N_cavity)%Z ->
     is_real wc -> is_real wa -> is_real g ->
     (2 <= N_cavity')%Z ->
     is_complex wc' = false -> is_complex wa' = false -> is_complex g' = false ->
     let s1 := snd (TavisCummings_build N_atoms N_cavity wc wa g self) in
     let r2 := TavisCummings_build 0 N_cavity' wc' wa' g' s1 in
     fst r2 = Raise AttributeError /\
     to_json (snd r2) =
     Ok (json_record (name self)
           [("N_atoms", JInt 0); ("N_cavity", JInt N_cavity');
            ("wc", JNum wc'); ("wa", JNum wa'); ("g", JNum g')]
           (JStr (str_shape (Z.to_nat N_cavity * 2 ^ Z.to_nat N_atoms,
                             Z.to_nat N_cavity * 2 ^ Z.to_nat N_atoms)%nat))
           (JBool true))) /\
  (forall N_atoms N_cavity (wc wa g : number) N_cavity' (wc' wa' g' : number),
     (1 <= N_atoms)%Z -> (2 <= N_cavity)%Z ->
     is_real wc -> is_real wa -> is_real g ->
     (2 <= N_cavity')%Z ->
     is_complex wc' = false -> is_complex wa' = false -> is_complex g' = false ->
     let s1 := snd (DickeModel_build N_atoms N_cavity wc wa g self) in
     let r2 := DickeModel_build 0 N_cavity' wc' wa' g' s1 in
     fst r2 = Raise ValueError /\
     to_json (snd r2) =
     Ok (json_record (name self)
           [("N_atoms", JInt 0); ("N_cavity", JInt N_cavity');
            ("wc", JNum wc'); ("wa", JNum wa'); ("g", JNum g')]
           (JStr (str_shape (Z.to_nat N_cavity * (Z.to_nat N_atoms + 1),
                             Z.to_nat N_cavity * (Z.to_nat N_atoms + 1))%nat))
           (JBool true))).
Proof.
  split.
  - intros Na Nc wc wa g Nc' wc' wa' g' Ha Hc Hwc Hwa Hg Hc' Hwc' Hwa' Hg' s1 r2.
    subst r2. rewrite TavisCummings_build_no_atoms by assumption.
    split; [reflexivity|]. cbn [snd]. subst s1.
    destruct (TavisCummings_returns Na Nc wc wa g self Ha Hc)
      as (h & E & (_ & Hs) & Hh).
    destruct (TavisCummings_build_state Na Nc wc wa g self) as (Hn & _ & HH).
    cbv zeta in *. rewrite E in HH. cbn [H_after] in HH.
    rewrite total_dimension_TavisCummings_space in Hs.
    replace (JBool true) with (JBool (isherm h))
      by (now rewrite hermitian_isherm by auto).
    eapply to_json_after_build with (h := h);
      [exact Hn|reflexivity|exact HH|exact Hs|json_params].
  - intros Na Nc wc wa g Nc' wc' wa' g' Ha Hc Hwc Hwa Hg Hc' Hwc' Hwa' Hg' s1 r2.
    subst r2. rewrite DickeModel_build_no_atoms by assumption.
    split; [reflexivity|]. cbn [snd]. subst s1.
    destruct (DickeModel_returns Na Nc wc wa g self Ha Hc)
      as (h & E & (_ & Hs) & Hh).
    destruct (DickeModel_build_state Na Nc wc wa g self) as (Hn & _ & HH).
    cbv zeta in *. rewrite E in HH. cbn [H_after] in HH.
    rewrite total_dimension_pair in Hs.
    replace (JBool true) with (JBool (isherm h))
      by (now rewrite hermitian_isherm by auto).
    eapply to_json_after_build with (h := h);
      [exact Hn|reflexivity|exact HH|exact Hs|json_params].
Qed.

(** X19.  For any hopping [t] and interaction [U], the operator the
    Bose-Hubbard builder returns commutes with the total number of
    bosons: hopping moves a boson to a neighbouring site and the
    interaction moves none. *)
Theorem bose_hubbard_conserves_number (self : HamiltonianBase)
        (N_sites N_levels : Z) (t U : number) :
  (1 <= N_sites)%Z -> (2 <= N_levels)%Z ->
  exists h, fst (BoseHubbard_build N_sites N_levels t U self) = Ok (PObj h) /\
            commute h (total_number (Z.to_nat N_levels) (Z.to_nat N_sites)).
Proof.
  intros Hs Hl.
  rewrite (fst_eq _ _ _ (BoseHubbard_build_ok N_sites N_levels t U self Hl)).
  destruct (BoseHubbard_op_graded (Z.to_nat N_levels) (Z.to_nat N_sites) t U)
    as (h & -> & [Hd Hsh] & Hg); [lia|].
  exists h. split; [reflexivity|].
  apply graded_commute; [assumption| |assumption].
  now rewrite Hsh, total_dimension_repeat.
Qed.

(** X20.  For any number of atoms and any couplings, the operator the
    Tavis-Cummings builder returns commutes with the number of quanta,
    the photons plus the atoms in state 1 of [destroy(2)]. *)
Theorem tavis_cummings_conserves_quanta (self : HamiltonianBase)
        (N_atoms N_cavity : Z) (wc wa g : number) :
  (1 <= N_atoms)%Z -> (2 <= N_cavity)%Z ->
  exists h, fst (TavisCummings_build N_atoms N_cavity wc wa g self) = Ok (PObj h) /\
            commute h (total_quanta (Z.to_nat N_atoms) (Z.to_nat N_cavity)).
Proof.
  intros Ha Hc.
  rewrite (fst_eq _ _ _ (TavisCummings_build_ok N_atoms N_cavity wc wa g self Ha Hc)).
  destruct (TavisCummings_op_graded (Z.to_nat N_atoms) (Z.to_nat N_cavity) wc wa g)
    as (h & -> & [Hd Hsh] & Hg); [lia|].
  exists h. split; [reflexivity|].
  apply graded_commute; [assumption| |assumption].
  now rewrite Hsh, total_dimension_TavisCummings_space.
Qed.

(** X21.  With equal couplings [Jx = Jy] the operator the Heisenberg
    builder returns commutes with the number of spins in state 1, that is
    with the total [sigmaz]: the [x] and [y] terms together only exchange
    the states of two neighbouring spins. *)
Theorem heisenberg_conserves_magnetization (self : HamiltonianBase)
        (N_spins : Z) (Jx Jy Jz : number) :
  (2 <= N_spins)%Z -> value Jx = value Jy ->
  exists h, fst (HeisenbergSpinChain_build N_spins Jx Jy Jz self) = Ok (PObj h) /\
            commute h (spins_down (Z.to_nat N_spins)).
Proof.
  intros HN HJ.
  rewrite (fst_eq _ _ _ (HeisenbergSpinChain_build_ok N_spins Jx Jy Jz self)).
  rewrite HJ.
  destruct (Heisenberg_op_graded (Z.to_nat N_spins) Jy Jz)
    as (h & -> & [Hd Hsh] & Hg); [lia|].
  exists h. split; [reflexivity|].
  apply graded_commute; [assumption| |assumption].
  now rewrite Hsh, total_dimension_repeat.
Qed.

End Properties.

(** ** The properties at concrete arguments, over the Gaussian rationals *)

Section Concrete.

Local Existing Instance GaussQ.scalar.
Local Open Scope string_scope.

Lemma builders_hermitian_witness :
  (exists h, fst (JaynesCummings_build 2 (float c1) (float c1) (float c1)
                    (fresh "Jaynes-Cummings")) = Ok (PObj h) /\
             hermitian h /\ isherm h = true) /\
  (exists h, fst (RabiModel_build 2 (float c1) (float c1) (float c1)
                    (fresh "Quantum-Rabi")) = Ok (PObj h) /\
             hermitian h /\ isherm h = true) /\
  (exists h, fst (TavisCummings_build 2 2 (float c1) (float c1) (float c1)
                    (fresh "Tavis-Cummings")) = Ok (PObj h) /\
             hermitian h /\ isherm h = true) /\
  (exists h, fst (DickeModel_build 1 2 (float c1) (float c1) (float c1)
                    (fresh "Dicke-Collective")) = Ok (PObj h) /\
             hermitian h /\ isherm h = true) /\
  (exists h, fst (HeisenbergSpinChain_build 3 (float c1) (float c1) (float c1)
                    (fresh "Heisenberg-Chain")) = Ok (PObj h) /\
             hermitian h /\ isherm h = true) /\
  (exists h, fst (BoseHubbard_build 3 2 (float c1) (float c1)
                    (fresh "Bose-Hubbard-Lattice")) = Ok (PObj h) /\
             hermitian h /\ isherm h = true).
Proof.
  split; [|split; [|split; [|split; [|split]]]].
  - destruct (builders_hermitian (fresh "Jaynes-Cummings")) as (HJC & _).
    apply (HJC 2%Z (float c1) (float c1) (float c1));
      [lia|reflexivity|reflexivity|reflexivity].
  - destruct (builders_hermitian (fresh "Quantum-Rabi")) as (_ & HR & _).
    apply (HR 2%Z (float c1) (float c1) (float c1));
      [lia|reflexivity|reflexivity|reflexivity].
  - destruct (builders_hermitian (fresh "Tavis-Cummings")) as (_ & _ & HTC & _).
    apply (HTC 2%Z 2%Z (float c1) (float c1) (float c1));
      [lia|lia|reflexivity|reflexivity|reflexivity].
  - destruct (builders_hermitian (fresh "Dicke-Collective")) as (_ & _ & _ & HD & _).
    apply (HD 1%Z 2%Z (float c1) (float c1) (float c1));
      [lia|lia|reflexivity|reflexivity|reflexivity].
  - destruct (builders_hermitian (fresh "Heisenberg-Chain"))
      as (_ & _ & _ & _ & HH & _).
    apply (HH 3%Z (float c1) (float c1) (float c1));
      [lia|reflexivity|reflexivity|reflexivity].
  - destruct (builders_hermitian (fresh "Bose-Hubbard-Lattice"))
      as (_ & _ & _ & _ & _ & HBH).
    apply (HBH 3%Z 2%Z (float c1) (float c1)); [lia|lia|reflexivity|reflexivity].
Defined.

(** C2 as stated fails: with one spin the Heisenberg builder returns 0, and
    with one site the Bose-Hubbard builder returns an operator. *)
Lemma short_chain_counterexample :
  fst (HeisenbergSpinChain_build 1 (float c1) (float c1) (float c1)
         (fresh "Heisenberg-Chain")) = Ok (PInt 0) /\
  (exists h, fst (BoseHubbard_build 1 2 (float c1) (float c1)
                    (fresh "Bose-Hubbard-Lattice")) = Ok (PObj h)).
Proof.
  split.
  - now rewrite (fst_eq _ _ _ (HeisenbergSpinChain_build_ok _ _ _ _ _)).
  - rewrite (fst_eq _ _ _ (BoseHubbard_build_ok 1 2 (float c1) (float c1) _
                             ltac:(lia))).
    eexists. reflexivity.
Qed.

Lemma short_chain_returns_witness :
  fst (HeisenbergSpinChain_build 1 (float c1) (float c1) (float c1)
         (fresh "Heisenberg-Chain")) = Ok (PInt 0) /\
  fst (BoseHubbard_build 1 2 (float c1) (float c1) (fresh "Bose-Hubbard-Lattice")) =
  Ok (PObj (BoseHubbard_int_op (Z.to_nat 2) 1 c1 0)) /\
  fst (BoseHubbard_build 0 2 (float c1) (float c1) (fresh "Bose-Hubbard-Lattice")) =
  Ok (PInt 0).
Proof.
  split; [|split].
  - destruct (short_chain_returns (fresh "Heisenberg-Chain")) as (HH & _).
    apply (HH 1%Z (float c1) (float c1) (float c1)). lia.
  - destruct (short_chain_returns (fresh "Bose-Hubbard-Lattice")) as (_ & HB & _).
    apply (HB 2%Z (float c1) (float c1)). lia.
  - destruct (short_chain_returns (fresh "Bose-Hubbard-Lattice")) as (_ & _ & HB).
    apply (HB 0%Z 2%Z (float c1) (float c1)). lia.
Defined.

(** C3 as stated fails: with the coupling [g = 1j] the Jaynes-Cummings
    builder returns an operator of which [isherm] is false. *)
Lemma nonhermitian_returned :
  exists h, fst (JaynesCummings_build 2 (float c1) (float c1) (complex ci)
                   (fresh "Jaynes-Cummings")) = Ok (PObj h) /\
            isherm h = false.
Proof.
  rewrite (fst_eq _ _ _ (JaynesCummings_build_ok 2 (float c1) (float c1) (complex ci)
                           _ ltac:(lia))).
  eexists. split; [reflexivity|]. vm_compute. reflexivity.
Qed.

Lemma builders_return_unvalidated_witness :
  (exists h, fst (JaynesCummings_build 2 (float c1) (float c1) (complex ci)
                    (fresh "Jaynes-Cummings")) = Ok (PObj h) /\
             isherm h = false) /\
  (exists h, fst (HeisenbergSpinChain_build 3 (float c1) (complex ci) (float c1)
                    (fresh "Heisenberg-Chain")) = Ok (PObj h) /\
             (is_real c1 -> is_real ci -> is_real c1 -> hermitian h)) /\
  (exists h, fst (BoseHubbard_build 3 2 (complex ci) (float c1)
                    (fresh "Bose-Hubbard-Lattice")) = Ok (PObj h) /\
             (is_real ci -> is_real c1 -> hermitian h)).
Proof.
  split; [|split].
  - destruct (builders_return_unvalidated (fresh "Jaynes-Cummings"))
      as (_ & _ & _ & _ & _ & _ & HJC).
    apply (HJC 2%Z (float c1) (float c1) (complex ci)); [lia|].
    vm_compute. reflexivity.
  - destruct (builders_return_unvalidated (fresh "Heisenberg-Chain"))
      as (_ & _ & _ & _ & HH & _).
    apply (HH 3%Z (float c1) (complex ci) (float c1)). lia.
  - destruct (builders_return_unvalidated (fresh "Bose-Hubbard-Lattice"))
      as (_ & _ & _ & _ & _ & HBH & _).
    apply (HBH 3%Z 2%Z (complex ci) (float c1)); lia.
Defined.

(** C4 as stated fails: with [wa = 1] no relabeling of the basis maps one
    operator to the other, as the diagonals differ. *)
Lemma tavis_single_atom_differs :
  exists hT hJ,
    fst (TavisCummings_build 1 2 (float c1) (float c1) (float c1)
           (fresh "Tavis-Cummings")) = Ok (PObj hT) /\
    fst (JaynesCummings_build 2 (float c1) (float c1) (float c1)
           (fresh "Jaynes-Cummings")) = Ok (PObj hJ) /\
    ~ equal_up_to_relabeling hT hJ.
Proof.
  rewrite (fst_eq _ _ _ (TavisCummings_build_ok 1 2 (float c1) (float c1) (float c1)
                           _ ltac:(lia) ltac:(lia))).
  rewrite (fst_eq _ _ _ (JaynesCummings_build_ok 2 (float c1) (float c1) (float c1)
                           _ ltac:(lia))).
  change (Z.to_nat 1) with 1%nat. change (Z.to_nat 2) with 2%nat.
  rewrite TavisCummings_op_single. cbv zeta.
  eexists. eexists. split; [reflexivity|]. split; [reflexivity|].
  intros (_ & p & (Hp & _) & Hd).
  change (shape _) with 4%nat in Hp, Hd.
  specialize (Hp 0%nat ltac:(lia)).
  specialize (Hd 0%nat 0%nat ltac:(lia) ltac:(lia)).
  destruct (p 0%nat) as [|[|[|[|k]]]]; try lia;
    apply ceqb_eq in Hd; vm_compute in Hd; discriminate Hd.
Qed.

Lemma tavis_single_atom_witness :
  exists hT hJ,
    fst (TavisCummings_build 1 2 (float c1) (float c1) (float c1)
           (fresh "Tavis-Cummings")) = Ok (PObj hT) /\
    fst (JaynesCummings_build 2 (float c1) (float c1) (float c1)
           (fresh "Tavis-Cummings")) = Ok (PObj hJ) /\
    dims hT = dims hJ /\ shape hT = shape hJ /\
    qeq hT (qadd hJ (qscale c1 (kron (eye (Z.to_nat 2)) atomic_offset))) /\
    (qeq hT hJ <-> c1 = c0).
Proof.
  apply (tavis_single_atom (fresh "Tavis-Cummings") 2%Z
           (float c1) (float c1) (float c1)).
  lia.
Defined.

Lemma bose_hubbard_no_hopping_witness :
  exists h, fst (BoseHubbard_build 3 2 (float c0) (float (c1 + c1)%C)
                   (fresh "Bose-Hubbard-Lattice")) = Ok (PObj h) /\
            diagonal h /\ commute h (site_number 2 3 1).
Proof.
  destruct (bose_hubbard_no_hopping (fresh "Bose-Hubbard-Lattice")) as (_ & HB).
  apply (HB 3%Z 2%Z (float c0) (float (c1 + c1)%C) 1%nat); [lia|lia| |reflexivity].
  change (Z.to_nat 3) with 3%nat. lia.
Defined.

Lemma total_dimension_is_product_witness :
  dims (kron (eye 5) (eye 2)) = [5; 2]%nat /\
  shape (kron (eye 5) (eye 2)) = total_dimension (dims (kron (eye 5) (eye 2))).
Proof.
  destruct (total_dimension_is_product (fresh "Jaynes-Cummings")) as (HT & _).
  apply (HT [eye 5; eye 2] (kron (eye 5) (eye 2))).
  - reflexivity.
  - repeat constructor.
Defined.

Lemma embed_single_compose_joint_witness :
  (exists ea eb ej p,
     embed_single [2; 2; 2]%nat 0 sigmax = Ok ea /\
     embed_single [2; 2; 2]%nat 1 sigmax = Ok eb /\
     embed_joint [2; 2; 2]%nat 0 sigmax 1 sigmax = Ok ej /\
     py_mul (PObj ea) (PObj eb) = Ok (PObj p) /\
     qeq p ej) /\
  (exists p,
     (item (map (fun k => site_op 2 3 k sigmax) (seq 0 3)) 0
      .* item (map (fun k => site_op 2 3 k sigmax) (seq 0 3)) 1)%py = Ok (PObj p) /\
     qeq p (embed2_op [2; 2; 2]%nat 0 sigmax 1 sigmax)).
Proof.
  split.
  - destruct embed_single_compose_joint as (HE & _).
    apply (HE [2; 2; 2]%nat 0%nat 1%nat sigmax sigmax).
    + lia.
    + cbn. lia.
    + cbn. lia.
    + split; reflexivity.
    + split; reflexivity.
  - destruct embed_single_compose_joint as (_ & HC).
    apply (HC 3%Z 0%nat
              (map (fun k => site_op 2 3 k sigmax) (seq 0 3))
              (map (fun k => site_op 2 3 k sigmay) (seq 0 3))
              (map (fun k => site_op 2 3 k sigmaz) (seq 0 3))).
    + reflexivity.
    + change (Z.to_nat 3) with 3%nat. lia.
Defined.

(** C9 as stated fails: a build is not pure.  The object the call is made
    on holds other parameters and another Hamiltonian afterwards. *)
Lemma build_overwrites_state :
  params (fresh "Jaynes-Cummings") = [] /\
  H (fresh "Jaynes-Cummings") = PNone /\
  params (snd (JaynesCummings_build 2 (float c1) (float c1) (float c1)
                 (fresh "Jaynes-Cummings"))) =
  [("N", PInt 2); ("wc", PNum (float c1)); ("wa", PNum (float c1));
   ("g", PNum (float c1))] /\
  H (snd (JaynesCummings_build 2 (float c1) (float c1) (float c1)
            (fresh "Jaynes-Cummings"))) =
  PObj (JaynesCummings_op 2 c1 c1 c1).
Proof.
  rewrite (JaynesCummings_build_ok 2 (float c1) (float c1) (float c1) _ ltac:(lia)).
  repeat split.
Qed.

(** C10 as stated fails: a complex parameter given to [__init__] makes
    [to_json] raise before any [build], also when its imaginary part is
    zero. *)
Lemma to_json_before_build_raises :
  H (HamiltonianBase_init "Jaynes-Cummings" (Some [("g", PNum (complex ci))])) = PNone /\
  to_json (HamiltonianBase_init "Jaynes-Cummings" (Some [("g", PNum (complex ci))])) =
  Raise TypeError /\
  to_json (HamiltonianBase_init "Jaynes-Cummings" (Some [("g", PNum (complex c1))])) =
  Raise TypeError.
Proof. repeat split. Qed.

Lemma to_json_before_build_witness :
  (exists js,
     to_json (HamiltonianBase_init "Jaynes-Cummings"
                (Some [("N", PInt 5); ("g", PNum (float chalf))])) =
     Ok (JObj [("model_name", JStr "Jaynes-Cummings"); ("parameters", JObj js);
               ("matrix_shape", JNull); ("is_hermitian", JNull)]) /\
     json_image [("N", PInt 5); ("g", PNum (float chalf))] js) /\
  to_json (HamiltonianBase_init "Jaynes-Cummings"
             (Some [("N", PInt 5); ("g", PNum (complex c1))])) = Raise TypeError.
Proof.
  split.
  - destruct to_json_before_build_serializable as (HT & _).
    apply (HT (HamiltonianBase_init "Jaynes-Cummings"
                 (Some [("N", PInt 5); ("g", PNum (float chalf))]))).
    + reflexivity.
    + constructor; [|constructor; [|constructor]]; eexists; reflexivity.
  - destruct to_json_before_build_serializable as (_ & HR & _).
    apply (HR (HamiltonianBase_init "Jaynes-Cummings"
                 (Some [("N", PInt 5); ("g", PNum (complex c1))]))).
    + reflexivity.
    + right. left. reflexivity.
Defined.

End Concrete.

(** ** The further properties at concrete arguments *)

Section ConcreteProperties.

Local Existing Instance GaussQ.scalar.
Local Open Scope string_scope.

Lemma builders_hilbert_space_witness :
  (exists h, fst (JaynesCummings_build 5 (float c1) (float c1) (float c1)
                    (fresh "Jaynes-Cummings")) = Ok (PObj h) /\
             dims h = [Z.to_nat 5; 2%nat] /\ shape h = (Z.to_nat 5 * 2)%nat) /\
  (exists h, fst (RabiModel_build 5 (float c1) (float c1) (float c1)
                    (fresh "Quantum-Rabi")) = Ok (PObj h) /\
             dims h = [Z.to_nat 5; 2%nat] /\ shape h = (Z.to_nat 5 * 2)%nat) /\
  (exists h, fst (TavisCummings_build 2 3 (float c1) (float c1) (float c1)
                    (fresh "Tavis-Cummings")) = Ok (PObj h) /\
             dims h = Z.to_nat 3 :: repeat 2%nat (Z.to_nat 2) /\
             shape h = (Z.to_nat 3 * 2 ^ Z.to_nat 2)%nat) /\
  (exists h, fst (DickeModel_build 4 5 (float c1) (float c1) (float chalf)
                    (fresh "Dicke-Collective")) = Ok (PObj h) /\
             dims h = [Z.to_nat 5; (Z.to_nat 4 + 1)%nat] /\
             shape h = (Z.to_nat 5 * (Z.to_nat 4 + 1))%nat) /\
  (exists h, fst (HeisenbergSpinChain_build 3 (float c1) (float c1) (float c1)
                    (fresh "Heisenberg-Chain")) = Ok (PObj h) /\
             dims h = repeat 2%nat (Z.to_nat 3) /\
             shape h = (2 ^ Z.to_nat 3)%nat) /\
  (exists h, fst (BoseHubbard_build 3 2 (float c1) (float (c1 + c1)%C)
                    (fresh "Bose-Hubbard-Lattice")) = Ok (PObj h) /\
             dims h = repeat (Z.to_nat 2) (Z.to_nat 3) /\
             shape h = (Z.to_nat 2 ^ Z.to_nat 3)%nat).
Proof.
  split; [|split; [|split; [|split; [|split]]]].
  - destruct (builders_hilbert_space (fresh "Jaynes-Cummings")) as (HJC & _).
    apply (HJC 5%Z (float c1) (float c1) (float c1)). lia.
  - destruct (builders_hilbert_space (fresh "Quantum-Rabi")) as (_ & HR & _).
    apply (HR 5%Z (float c1) (float c1) (float c1)). lia.
  - destruct (builders_hilbert_space (fresh "Tavis-Cummings")) as (_ & _ & HTC & _).
    apply (HTC 2%Z 3%Z (float c1) (float c1) (float c1)); lia.
  - destruct (builders_hilbert_space (fresh "Dicke-Collective"))
      as (_ & _ & _ & HD & _).
    apply (HD 4%Z 5%Z (float c1) (float c1) (float chalf)); lia.
  - destruct (builders_hilbert_space (fresh "Heisenberg-Chain"))
      as (_ & _ & _ & _ & HH & _).
    apply (HH 3%Z (float c1) (float c1) (float c1)). lia.
  - destruct (builders_hilbert_space (fresh "Bose-Hubbard-Lattice"))
      as (_ & _ & _ & _ & _ & HBH).
    apply (HBH 3%Z 2%Z (float c1) (float (c1 + c1)%C)); lia.
Defined.

Lemma tavis_cummings_no_atoms_raises_witness :
  TavisCummings_build 0 3 (float c1) (float c1) (float c1) (fresh "Tavis-Cummings") =
  (Raise AttributeError,
   mkBase "Tavis-Cummings"
          [("N_atoms", PInt 0); ("N_cavity", PInt 3);
           ("wc", PNum (float c1)); ("wa", PNum (float c1)); ("g", PNum (float c1))]
          PNone).
Proof.
  apply (tavis_cummings_no_atoms_raises (fresh "Tavis-Cummings") 3%Z
           (float c1) (float c1) (float c1)).
  lia.
Defined.

Lemma dicke_no_atoms_raises_witness :
  DickeModel_build 0 5 (float c1) (float c1) (float c1) (fresh "Dicke-Collective") =
  (Raise ValueError,
   mkBase "Dicke-Collective"
          [("N_atoms", PInt 0); ("N_cavity", PInt 5);
           ("wc", PNum (float c1)); ("wa", PNum (float c1)); ("g", PNum (float c1))]
          PNone).
Proof.
  apply (dicke_no_atoms_raises (fresh "Dicke-Collective") 5%Z
           (float c1) (float c1) (float c1)).
  lia.
Defined.

Lemma to_json_after_real_build_witness :
  to_json (snd (JaynesCummings_build 5 (float c1) (float c1) (float c1)
                  (fresh "Jaynes-Cummings"))) =
  Ok (json_record "Jaynes-Cummings"
        [("N", JInt 5); ("wc", JNum c1); ("wa", JNum c1); ("g", JNum c1)]
        (JStr (str_shape (Z.to_nat 5 * 2, Z.to_nat 5 * 2)%nat)) (JBool true)) /\
  to_json (snd (RabiModel_build 5 (float c1) (float c1) (float c1)
                  (fresh "Quantum-Rabi"))) =
  Ok (json_record "Quantum-Rabi"
        [("N", JInt 5); ("wc", JNum c1); ("wa", JNum c1); ("g", JNum c1)]
        (JStr (str_shape (Z.to_nat 5 * 2, Z.to_nat 5 * 2)%nat)) (JBool true)) /\
  to_json (snd (TavisCummings_build 2 3 (float c1) (float c1) (float c1)
                  (fresh "Tavis-Cummings"))) =
  Ok (json_record "Tavis-Cummings"
        [("N_atoms", JInt 2); ("N_cavity", JInt 3);
         ("wc", JNum c1); ("wa", JNum c1); ("g", JNum c1)]
        (JStr (str_shape (Z.to_nat 3 * 2 ^ Z.to_nat 2,
                          Z.to_nat 3 * 2 ^ Z.to_nat 2)%nat)) (JBool true)) /\
  to_json (snd (DickeModel_build 4 5 (float c1) (float c1) (float chalf)
                  (fresh "Dicke-Collective"))) =
  Ok (json_record "Dicke-Collective"
        [("N_atoms", JInt 4); ("N_cavity", JInt 5);
         ("wc", JNum c1); ("wa", JNum c1); ("g", JNum chalf)]
        (JStr (str_shape (Z.to_nat 5 * (Z.to_nat 4 + 1),
                          Z.to_nat 5 * (Z.to_nat 4 + 1))%nat)) (JBool true)) /\
  to_json (snd (HeisenbergSpinChain_build 3 (float c1) (float c1) (float c1)
                  (fresh "Heisenberg-Chain"))) =
  Ok (json_record "Heisenberg-Chain"
        [("N_spins", JInt 3); ("Jx", JNum c1); ("Jy", JNum c1); ("Jz", JNum c1)]
        (JStr (str_shape (2 ^ Z.to_nat 3, 2 ^ Z.to_nat 3)%nat)) (JBool true)) /\
  to_json (snd (BoseHubbard_build 3 2 (float c1) (float (c1 + c1)%C)
                  (fresh "Bose-Hubbard-Lattice"))) =
  Ok (json_record "Bose-Hubbard-Lattice"
        [("N_sites", JInt 3); ("N_levels", JInt 2);
         ("t", JNum c1); ("U", JNum (c1 + c1)%C)]
        (JStr (str_shape (Z.to_nat 2 ^ Z.to_nat 3, Z.to_nat 2 ^ Z.to_nat 3)%nat))
        (JBool true)).
Proof.
  split; [|split; [|split; [|split; [|split]]]].
  - destruct (to_json_after_real_build (fresh "Jaynes-Cummings")) as (HJC & _).
    apply (HJC 5%Z (float c1) (float c1) (float c1));
      [lia|split; reflexivity..].
  - destruct (to_json_after_real_build (fresh "Quantum-Rabi")) as (_ & HR & _).
    apply (HR 5%Z (float c1) (float c1) (float c1));
      [lia|split; reflexivity..].
  - destruct (to_json_after_real_build (fresh "Tavis-Cummings"))
      as (_ & _ & HTC & _).
    apply (HTC 2%Z 3%Z (float c1) (float c1) (float c1));
      [lia|lia|split; reflexivity..].
  - destruct (to_json_after_real_build (fresh "Dicke-Collective"))
      as (_ & _ & _ & HD & _).
    apply (HD 4%Z 5%Z (float c1) (float c1) (float chalf));
      [lia|lia|split; reflexivity|split; reflexivity
      |split; [reflexivity|apply ceqb_eq; vm_compute; reflexivity]].
  - destruct (to_json_after_real_build (fresh "Heisenberg-Chain"))
      as (_ & _ & _ & _ & HH & _).
    apply (HH 3%Z (float c1) (float c1) (float c1));
      [lia|split; reflexivity..].
  - destruct (to_json_after_real_build (fresh "Bose-Hubbard-Lattice"))
      as (_ & _ & _ & _ & _ & HBH).
    apply (HBH 3%Z 2%Z (float c1) (float (c1 + c1)%C));
      [lia|lia|split; reflexivity
      |split; [reflexivity|apply ceqb_eq; vm_compute; reflexivity]].
Defined.

Lemma to_json_after_complex_build_witness :
  ((exists h, fst (JaynesCummings_build 2 (float c1) (float c1) (complex c1)
                     (fresh "Jaynes-Cummings")) = Ok (PObj h)) /\
   to_json (snd (JaynesCummings_build 2 (float c1) (float c1) (complex c1)
                   (fresh "Jaynes-Cummings"))) = Raise TypeError) /\
  ((exists h, fst (BoseHubbard_build 3 2 (complex ci) (float c1)
                     (fresh "Bose-Hubbard-Lattice")) = Ok (PObj h)) /\
   to_json (snd (BoseHubbard_build 3 2 (complex ci) (float c1)
                   (fresh "Bose-Hubbard-Lattice"))) = Raise TypeError).
Proof.
  split.
  - destruct (to_json_after_complex_build (fresh "Jaynes-Cummings")) as (HJC & _).
    apply (HJC 2%Z (float c1) (float c1) (complex c1)); [lia|].
    right. right. reflexivity.
  - destruct (to_json_after_complex_build (fresh "Bose-Hubbard-Lattice"))
      as (_ & _ & _ & _ & _ & HBH).
    apply (HBH 3%Z 2%Z (complex ci) (float c1)); [lia|lia|].
    left. reflexivity.
Defined.

Lemma to_json_after_empty_sum_witness :
  to_json (snd (HeisenbergSpinChain_build 1 (float c1) (float c1) (float c1)
                  (fresh "Heisenberg-Chain"))) =
  Ok (json_record "Heisenberg-Chain"
        [("N_spins", JInt 1); ("Jx", JNum c1); ("Jy", JNum c1); ("Jz", JNum c1)]
        JNull JNull) /\
  to_json (snd (BoseHubbard_build 0 2 (float c1) (float c1)
                  (fresh "Bose-Hubbard-Lattice"))) =
  Ok (json_record "Bose-Hubbard-Lattice"
        [("N_sites", JInt 0); ("N_levels", JInt 2); ("t", JNum c1); ("U", JNum c1)]
        JNull JNull).
Proof.
  split.
  - destruct (to_json_after_empty_sum (fresh "Heisenberg-Chain")) as (HH & _).
    apply (HH 1%Z (float c1) (float c1) (float c1));
      [lia|reflexivity|reflexivity|reflexivity].
  - destruct (to_json_after_empty_sum (fresh "Bose-Hubbard-Lattice")) as (_ & HB).
    apply (HB 0%Z 2%Z (float c1) (float c1)); [lia|reflexivity|reflexivity].
Defined.

Lemma plot_energy_levels_guard_witness :
  plot_energy_levels (fun _ => Ok [])
    (snd (HeisenbergSpinChain_build 1 (float c1) (float c1) (float c1)
            (fresh "Heisenberg-Chain"))) =
  Raise AttributeError /\
  plot_energy_levels (fun _ => Ok [])
    (snd (BoseHubbard_build 0 2 (float c1) (float c1) (fresh "Bose-Hubbard-Lattice"))) =
  Raise AttributeError /\
  plot_energy_levels (fun _ => Ok [])
    (snd (JaynesCummings_build 5 (float c1) (float c1) (float c1)
            (fresh "Jaynes-Cummings"))) =
  Ok [PltFigure 7 5; PltPlot [] "ro" 4;
      PltTitle ("Energy Spectrum: " ++ "Jaynes-Cummings");
      PltYlabel "Energy (E)"; PltXlabel "Eigenvalue Index";
      PltGrid true "--" (6 # 10); PltShow].
Proof.
  split; [|split].
  - destruct (plot_energy_levels_guard (fun _ => Ok [])) as (_ & HH & _).
    apply (HH (fresh "Heisenberg-Chain") 1%Z (float c1) (float c1) (float c1)). lia.
  - destruct (plot_energy_levels_guard (fun _ => Ok [])) as (_ & _ & HB & _).
    apply (HB (fresh "Bose-Hubbard-Lattice") 0%Z 2%Z (float c1) (float c1)). lia.
  - destruct (plot_energy_levels_guard (fun _ => Ok [])) as (_ & _ & _ & HJ).
    apply (HJ (fresh "Jaynes-Cummings") 5%Z (float c1) (float c1) (float c1) []);
      [lia|reflexivity].
Defined.

Lemma stored_hamiltonian_invariant_witness :
  stored_hamiltonian
    (H (snd (TavisCummings_build 0 3 (float c1) (float c1) (float c1)
               (fresh "Tavis-Cummings")))) /\
  stored_hamiltonian
    (H (snd (HeisenbergSpinChain_build 1 (float c1) (float c1) (float c1)
               (fresh "Heisenberg-Chain")))).
Proof.
  destruct stored_hamiltonian_invariant as (_ & Hkeep).
  split.
  - destruct (Hkeep (fresh "Tavis-Cummings")) as (_ & _ & HTC & _).
    + left. reflexivity.
    + apply (HTC 0%Z 3%Z (float c1) (float c1) (float c1)).
  - destruct (Hkeep (fresh "Heisenberg-Chain")) as (_ & _ & _ & _ & HH & _).
    + left. reflexivity.
    + apply (HH 1%Z (float c1) (float c1) (float c1)).
Defined.

Lemma to_json_raises_only_type_error_witness :
  (to_json (HamiltonianBase_init "Jaynes-Cummings" (Some [("g", PNum (complex c1))])) =
   Raise TypeError <->
   Exists (fun kv => rejected (snd kv))
          (params (HamiltonianBase_init "Jaynes-Cummings"
                     (Some [("g", PNum (complex c1))])))) /\
  ((exists j, to_json (HamiltonianBase_init "Jaynes-Cummings"
                         (Some [("g", PNum (complex c1))])) = Ok j) <->
   Forall (fun kv => ~ rejected (snd kv))
          (params (HamiltonianBase_init "Jaynes-Cummings"
                     (Some [("g", PNum (complex c1))])))) /\
  (forall e, to_json (HamiltonianBase_init "Jaynes-Cummings"
                        (Some [("g", PNum (complex c1))])) = Raise e ->
             e = TypeError).
Proof.
  apply (to_json_raises_only_type_error
           (HamiltonianBase_init "Jaynes-Cummings" (Some [("g", PNum (complex c1))]))).
  left. reflexivity.
Defined.

Lemma heisenberg_sum_of_couplings_witness :
  exists h, fst (HeisenbergSpinChain_build 4 (float c1) (float c1) (float c1)
                   (fresh "Heisenberg-Chain")) = Ok (PObj h) /\
            dims h = repeat 2%nat (Z.to_nat 4) /\ shape h = (2 ^ Z.to_nat 4)%nat /\
            forall i j, (i < 2 ^ Z.to_nat 4)%nat -> (j < 2 ^ Z.to_nat 4)%nat ->
              data h i j =
              csum (Z.to_nat 4 - 1)
                   (fun n => data (Heisenberg_coupling_spec (Z.to_nat 4) c1 c1 c1 n) i j).
Proof.
  apply (heisenberg_sum_of_couplings (fresh "Heisenberg-Chain") 4%Z
           (float c1) (float c1) (float c1)).
  lia.
Defined.

Lemma bose_hubbard_two_levels_ignores_U_witness :
  exists h h',
    fst (BoseHubbard_build 3 2 (float c1) (float (c1 + c1)%C)
           (fresh "Bose-Hubbard-Lattice")) = Ok (PObj h) /\
    fst (BoseHubbard_build 3 2 (float c1) (float c0)
           (fresh "Bose-Hubbard-Lattice")) = Ok (PObj h') /\
    qeq h h'.
Proof.
  apply (bose_hubbard_two_levels_ignores_U
           (fresh "Bose-Hubbard-Lattice") 3%Z (float c1) (float (c1 + c1)%C) (float c0)).
  lia.
Defined.

Lemma tavis_single_atom_is_shifted_jaynes_cummings_witness :
  exists hT hJ,
    fst (TavisCummings_build 1 2 (float c1) (float c1) (float c1)
           (fresh "Tavis-Cummings")) = Ok (PObj hT) /\
    fst (JaynesCummings_build 2 (float c1) (nopp (float c1)) (float c1)
           (fresh "Tavis-Cummings")) = Ok (PObj hJ) /\
    qeq hT (qadd hJ (qscale (chalf * c1)%C (kron (eye (Z.to_nat 2)) (eye 2)))).
Proof.
  apply (tavis_single_atom_is_shifted_jaynes_cummings
           (fresh "Tavis-Cummings") 2%Z (float c1) (float c1) (float c1)).
  lia.
Defined.

Lemma dicke_single_atom_is_rabi_witness :
  exists hD hR,
    fst (DickeModel_build 1 2 (float c1) (float c1) (float c1)
           (fresh "Dicke-Collective")) = Ok (PObj hD) /\
    fst (RabiModel_build 2 (float c1) (float c1) (nmul (float chalf) (float c1))
           (fresh "Dicke-Collective")) = Ok (PObj hR) /\
    qeq hD hR.
Proof.
  apply (dicke_single_atom_is_rabi (fresh "Dicke-Collective") 2%Z
           (float c1) (float c1) (float c1)).
  - lia.
  - apply ceqb_eq. vm_compute. reflexivity.
  - apply ceqb_eq. vm_compute. reflexivity.
Defined.

Lemma jaynes_cummings_conserves_quanta_witness :
  exists h, fst (JaynesCummings_build 5 (float c1) (float c1) (float c1)
                   (fresh "Jaynes-Cummings")) = Ok (PObj h) /\
            commute h (excitation_number (Z.to_nat 5)).
Proof.
  apply (jaynes_cummings_conserves_quanta (fresh "Jaynes-Cummings") 5%Z
           (float c1) (float c1) (float c1)).
  lia.
Defined.

Lemma jaynes_cummings_minus_adjoint_witness :
  exists h, fst (JaynesCummings_build 2 (float c1) (float c1) (complex ci)
                   (fresh "Jaynes-Cummings")) = Ok (PObj h) /\
            qeq (qadd h (qscale (- c1)%C (qdag h)))
                (JaynesCummings_op (Z.to_nat 2) (c1 - conj c1)%C (c1 - conj c1)%C
                                   (ci - conj ci)%C).
Proof.
  apply (jaynes_cummings_minus_adjoint (fresh "Jaynes-Cummings") 2%Z
           (float c1) (float c1) (complex ci)).
  lia.
Defined.

Lemma rabi_does_not_conserve_quanta_witness :
  exists h, fst (RabiModel_build 2 (float c1) (float c1) (float c1)
                   (fresh "Quantum-Rabi")) = Ok (PObj h) /\
            ~ commute h (excitation_number (Z.to_nat 2)).
Proof.
  apply (rabi_does_not_conserve_quanta (fresh "Quantum-Rabi") 2%Z
           (float c1) (float c1) (float c1)).
  - lia.
  - intros E. apply ceqb_eq in E. vm_compute in E. discriminate E.
Defined.

Lemma to_json_after_failed_rebuild_witness :
  fst (TavisCummings_build 0 5 (float c1) (float c1) (float c1)
         (snd (TavisCummings_build 2 3 (float c1) (float c1) (float c1)
                 (fresh "Tavis-Cummings")))) =
  Raise AttributeError /\
  to_json (snd (TavisCummings_build 0 5 (float c1) (float c1) (float c1)
                  (snd (TavisCummings_build 2 3 (float c1) (float c1) (float c1)
                          (fresh "Tavis-Cummings"))))) =
  Ok (json_record "Tavis-Cummings"
        [("N_atoms", JInt 0); ("N_cavity", JInt 5);
         ("wc", JNum c1); ("wa", JNum c1); ("g", JNum c1)]
        (JStr (str_shape (Z.to_nat 3 * 2 ^ Z.to_nat 2,
                          Z.to_nat 3 * 2 ^ Z.to_nat 2)%nat))
        (JBool true)).
Proof.
  destruct (to_json_after_failed_rebuild (fresh "Tavis-Cummings")) as (HTC & _).
  apply (HTC 2%Z 3%Z (float c1) (float c1) (float c1)
             5%Z (float c1) (float c1) (float c1));
    [lia|lia|reflexivity|reflexivity|reflexivity|lia
    |reflexivity|reflexivity|reflexivity].
Defined.

Lemma bose_hubbard_conserves_number_witness :
  exists h, fst (BoseHubbard_build 3 2 (float c1) (float (c1 + c1)%C)
                   (fresh "Bose-Hubbard-Lattice")) = Ok (PObj h) /\
            commute h (total_number (Z.to_nat 2) (Z.to_nat 3)).
Proof.
  apply (bose_hubbard_conserves_number (fresh "Bose-Hubbard-Lattice")
           3%Z 2%Z (float c1) (float (c1 + c1)%C)); lia.
Defined.

Lemma tavis_cummings_conserves_quanta_witness :
  exists h, fst (TavisCummings_build 2 3 (float c1) (float c1) (float c1)
                   (fresh "Tavis-Cummings")) = Ok (PObj h) /\
            commute h (total_quanta (Z.to_nat 2) (Z.to_nat 3)).
Proof.
  apply (tavis_cummings_conserves_quanta (fresh "Tavis-Cummings") 2%Z 3%Z
           (float c1) (float c1) (float c1));
    lia.
Defined.

Lemma heisenberg_conserves_magnetization_witness :
  exists h, fst (HeisenbergSpinChain_build 3 (float c1) (complex c1) (complex ci)
                   (fresh "Heisenberg-Chain")) = Ok (PObj h) /\
            commute h (spins_down (Z.to_nat 3)).
Proof.
  apply (heisenberg_conserves_magnetization (fresh "Heisenberg-Chain") 3%Z
           (float c1) (complex c1) (complex ci)).
  - lia.
  - reflexivity.
Defined.

End ConcreteProperties.
